(** * Host shell sessions (composio/tools/env/host/shell.py)

    A shallow embedding of the two shell sessions of [shell.py], the local
    [HostShell] and the remote [SSHShell], and of the parts of Python's
    [str] they rely on.

    Text.  A Python [str] is modelled as a list of characters, a character
    being a code point below 256 (type [ascii]).  The [str] methods below
    follow CPython on that range: which characters are white space, which
    ones end a line for [splitlines], what [lower] changes.

    Bytes.  Pipes and channels carry bytes, and a byte is one of the 256
    values of [ascii] as well.  [decode] is the strict UTF-8 decoding of
    [bytes.decode()]: it fails on bytes that are not well-formed, and on
    well-formed bytes with a character above U+00FF it answers [Beyond],
    with which the model stops ([Pending]) rather than go on with text it
    does not cover.

    Time.  The clock counts milliseconds; [time.sleep(0.3)] is a sleep of
    300. *)

From Stdlib Require Import String.
From Stdlib Require Import Ascii List ZArith Lia Bool Arith.
From Stdlib Require DecimalString DecimalZ.
Import ListNotations.

Local Open Scope list_scope.

(** ** Python strings *)

Module Py.

Definition str := list ascii.

(** A literal. *)
Definition py (s : String.string) : str := String.list_ascii_of_string s.

Definition ord (c : ascii) : N := N_of_ascii c.

Definition chr_eqb (a b : ascii) : bool := Ascii.eqb a b.

Fixpoint str_eqb (a b : str) : bool :=
  match a, b with
  | [], [] => true
  | x :: a', y :: b' => chr_eqb x y && str_eqb a' b'
  | _, _ => false
  end.

(** [c.isspace()]: tab to carriage return, the four separators 0x1c-0x1f,
    space, NEL (0x85) and the no-break space (0xa0). *)
Definition isspace (c : ascii) : bool :=
  let n := ord c in
  ((9 <=? n) && (n <=? 13) || (28 <=? n) && (n <=? 32) || (n =? 133) || (n =? 160))%N.

(** The characters at which [splitlines] cuts: LF, VT, FF, CR, FS, GS, RS
    and NEL. *)
Definition is_linebreak (c : ascii) : bool :=
  let n := ord c in
  ((10 <=? n) && (n <=? 13) || (28 <=? n) && (n <=? 30) || (n =? 133))%N.

Definition LF : ascii := ascii_of_N 10.
Definition CR : ascii := ascii_of_N 13.

(** [c.lower()]: A-Z and the capital letters of Latin-1 (0xc0-0xde but the
    multiplication sign 0xd7) move up by 32. *)
Definition lower_chr (c : ascii) : ascii :=
  let n := ord c in
  if ((65 <=? n) && (n <=? 90) || (192 <=? n) && (n <=? 222) && negb (n =? 215))%N
  then ascii_of_N (n + 32) else c.

Definition lower (s : str) : str := map lower_chr s.

Fixpoint lstrip (s : str) : str :=
  match s with
  | c :: s' => if isspace c then lstrip s' else s
  | [] => []
  end.

Definition rstrip (s : str) : str := rev (lstrip (rev s)).

Definition strip (s : str) : str := rstrip (lstrip s).

(** [s.startswith(p)] *)
Fixpoint startswith (s p : str) {struct p} : bool :=
  match p, s with
  | [], _ => true
  | x :: p', y :: s' => chr_eqb x y && startswith s' p'
  | _ :: _, [] => false
  end.

(** [s.endswith(p)] *)
Definition endswith (s p : str) : bool := startswith (rev s) (rev p).

(** Index of the first occurrence of [m] in [s]. *)
Fixpoint index (m s : str) : option nat :=
  if startswith s m then Some 0%nat
  else match s with
       | [] => None
       | _ :: s' => option_map S (index m s')
       end.

(** [s.find(m)], which is -1 when [m] does not occur. *)
Definition find (s m : str) : Z :=
  match index m s with
  | Some i => Z.of_nat i
  | None => (-1)%Z
  end.

(** [m in s] *)
Definition contains (m s : str) : bool :=
  match index m s with Some _ => true | None => false end.

(** An occurrence of [m] in [s], as a proposition. *)
Definition occurs (m s : str) : Prop := exists a b, s = a ++ m ++ b.

(** The slice [s[:i]]; a negative [i] counts from the end. *)
Definition slice_to (s : str) (i : Z) : str :=
  if (i <? 0)%Z then firstn (Z.to_nat (Z.of_nat (length s) + i)) s
  else firstn (Z.to_nat i) s.

(** The slice [s[i:]] for [i >= 0]. *)
Definition slice_from (s : str) (i : nat) : str := skipn i s.

(** [s.split()]: the maximal runs of characters that are not white space. *)
Fixpoint split_ws (s : str) : list str :=
  match s with
  | [] => []
  | c :: s' =>
      if isspace c then split_ws s'
      else match s' with
           | [] => [[c]]
           | d :: _ =>
               if isspace d then [c] :: split_ws s'
               else match split_ws s' with
                    | w :: ws => (c :: w) :: ws
                    | [] => [[c]]
                    end
           end
  end.

(** [s.split(sep)] for a separator that is not empty (Python raises on an
    empty one; every call of the source passes a literal or a marker).
    [skip] counts the characters of a separator still to be passed over,
    [acc] is the current piece, reversed. *)
Fixpoint split_go (sep : str) (skip : nat) (acc : str) (s : str) : list str :=
  match s with
  | [] => [rev acc]
  | c :: s' =>
      match skip with
      | S k => split_go sep k acc s'
      | O => if startswith s sep
             then rev acc :: split_go sep (length sep - 1) [] s'
             else split_go sep 0 (c :: acc) s'
      end
  end.

Definition split (s sep : str) : list str := split_go sep 0 [] s.

(** [s.replace(old, new)] for [old] not empty. *)
Fixpoint replace_go (old new : str) (skip : nat) (s : str) : str :=
  match s with
  | [] => []
  | c :: s' =>
      match skip with
      | S k => replace_go old new k s'
      | O => if startswith s old
             then new ++ replace_go old new (length old - 1) s'
             else c :: replace_go old new 0 s'
      end
  end.

Definition replace (s old new : str) : str := replace_go old new 0 s.

(** [s.splitlines()]: CR LF counts as one line end, and no empty last line
    is reported after a final line end. *)
Fixpoint splitlines_go (acc : str) (s : str) : list str :=
  match s with
  | [] => match acc with [] => [] | _ => [rev acc] end
  | c :: s' =>
      if chr_eqb c CR then
        match s' with
        | d :: s'' => if chr_eqb d LF then rev acc :: splitlines_go [] s''
                      else rev acc :: splitlines_go [] s'
        | [] => [rev acc]
        end
      else if is_linebreak c then rev acc :: splitlines_go [] s'
      else splitlines_go (c :: acc) s'
  end.

Definition splitlines (s : str) : list str := splitlines_go [] s.

(** [sep.join(parts)] *)
Fixpoint join (sep : str) (parts : list str) : str :=
  match parts with
  | [] => []
  | [p] => p
  | p :: rest => p ++ sep ++ join sep rest
  end.

(** Items by position: [l[i]] raises IndexError out of range. *)
Definition item {A} (l : list A) (i : nat) : option A := nth_error l i.

(** [x in t] for a tuple of strings. *)
Definition in_tuple (x : str) (t : list str) : bool := existsb (str_eqb x) t.

(** *** [int(s)] and [str(n)] *)

Definition digit_val (c : ascii) : option Z :=
  let n := ord c in
  if ((48 <=? n) && (n <=? 57))%N then Some (Z.of_N n - 48)%Z else None.

Definition is_underscore (c : ascii) : bool := (ord c =? 95)%N.

(** Digits with single underscores between them; [acc] is the value read
    so far and [after_digit] tells whether the last character was a digit. *)
Fixpoint digits_go (acc : Z) (after_digit : bool) (s : str) : option Z :=
  match s with
  | [] => if after_digit then Some acc else None
  | c :: s' =>
      match digit_val c with
      | Some d => digits_go (10 * acc + d)%Z true s'
      | None => if is_underscore c && after_digit then digits_go acc false s'
                else None
      end
  end.

(** [int(s)] in base ten: white space around, an optional sign, digits.
    [None] stands for ValueError.  (The limit on the number of digits that
    recent interpreters put on the conversion is not modelled.) *)
Definition int (s : str) : option Z :=
  match strip s with
  | [] => None
  | c :: s' =>
      if (ord c =? 45)%N then option_map Z.opp (digits_go 0 false s')
      else if (ord c =? 43)%N then digits_go 0 false s'
      else digits_go 0 false (c :: s')
  end.

(** [str(n)], also what an f-string puts for [{n}]. *)
Definition str_of_int (n : Z) : str :=
  py (DecimalString.NilZero.string_of_int (Z.to_int n)).

(** *** Bytes and UTF-8 *)

Definition bytes : Type := list ascii.

(** What [b.decode()] comes to. *)
Inductive decoded : Type :=
| Decoded (s : str)
| Malformed            (* UnicodeDecodeError *)
| Beyond.              (* well-formed, with a character above U+00FF *)

(** A continuation byte, 0x80 to 0xBF. *)
Definition is_cont (b : ascii) : bool := ((128 <=? ord b) && (ord b <=? 191))%N.

(** The second byte of a sequence of three: 0xA0 to 0xBF behind 0xE0 (no
    overlong form), 0x80 to 0x9F behind 0xED (no surrogate). *)
Definition second_of_three (lead : N) (b : ascii) : bool :=
  (if lead =? 224 then (160 <=? ord b) && (ord b <=? 191)
   else if lead =? 237 then (128 <=? ord b) && (ord b <=? 159)
   else is_cont b)%N.

(** The second byte of a sequence of four: 0x90 to 0xBF behind 0xF0,
    0x80 to 0x8F behind 0xF4 (nothing above U+10FFFF). *)
Definition second_of_four (lead : N) (b : ascii) : bool :=
  (if lead =? 240 then (144 <=? ord b) && (ord b <=? 191)
   else if lead =? 244 then (128 <=? ord b) && (ord b <=? 143)
   else is_cont b)%N.

(** One more character in front of what follows. *)
Definition put (c : ascii) (d : decoded) : decoded :=
  match d with
  | Decoded s => Decoded (c :: s)
  | other => other
  end.

(** A character above U+00FF in front of what follows. *)
Definition far (d : decoded) : decoded :=
  match d with
  | Decoded _ => Beyond
  | other => other
  end.

(** [b.decode()], which is strict UTF-8: one byte below 0x80; two bytes
    from the leads 0xC2 to 0xDF, of which 0xC2 and 0xC3 give the
    characters U+0080 to U+00FF; three bytes from 0xE0 to 0xEF; four from
    0xF0 to 0xF4.  Anything else is malformed, and so is a sequence that
    the end cuts short. *)
Fixpoint decode (b : bytes) : decoded :=
  match b with
  | [] => Decoded []
  | x :: r =>
      let n := ord x in
      if (n <? 128)%N then put x (decode r)
      else if (n <? 194)%N then Malformed
      else if (n <? 224)%N then
        match r with
        | c :: r' =>
            if is_cont c then
              if (n =? 194)%N then put c (decode r')
              else if (n =? 195)%N then put (ascii_of_N (ord c + 64)) (decode r')
              else far (decode r')
            else Malformed
        | [] => Malformed
        end
      else if (n <? 240)%N then
        match r with
        | c1 :: c2 :: r' =>
            if second_of_three n c1 && is_cont c2 then far (decode r')
            else Malformed
        | _ => Malformed
        end
      else if (n <? 245)%N then
        match r with
        | c1 :: c2 :: c3 :: r' =>
            if second_of_four n c1 && is_cont c2 && is_cont c3
            then far (decode r')
            else Malformed
        | _ => Malformed
        end
      else Malformed
  end.

(** [s.encode()] on the characters of the model: one byte below U+0080,
    two bytes from there. *)
Definition encode_chr (c : ascii) : bytes :=
  let n := ord c in
  if (n <? 128)%N then [c]
  else if (n <? 192)%N then [ascii_of_N 194; c]
  else [ascii_of_N 195; ascii_of_N (n - 64)].

Definition encode (s : str) : bytes := flat_map encode_chr s.

(** The text that bytes decode to, for bytes that do. *)
Definition text_of (b : bytes) : str :=
  match decode b with
  | Decoded s => s
  | _ => []
  end.

End Py.

Import Py.

(** ** Results, exceptions and effects *)

(** The text of an exception: literal text and, where the source formats
    its two buffers into the message, the buffers themselves. *)
Inductive fragment : Type :=
| Text (s : str)
| Buffers (stdout_buffer stderr_buffer : bytes).

Definition message := list fragment.

Inductive exn : Type :=
| ValueError (msg : message)
| RuntimeError (msg : message)
| TimeoutError (msg : message)
| IndexError (msg : message)
| UnicodeDecodeError (object : bytes).   (* the bytes that did not decode *)

(** What a call comes to: a value, an exception, or [Pending] when the
    model has no answer: a loop has used up its turns before the call was
    over, or text has come up that the model does not cover. *)
Inductive outcome (A : Type) : Type :=
| Return (a : A)
| Raise (e : exn)
| Pending.

Arguments Return {A} a.
Arguments Raise {A} e.
Arguments Pending {A}.

(** State and exceptions: a computation takes the world and gives an
    outcome and the world after it. *)
Definition M (W A : Type) : Type := W -> outcome A * W.

Definition ret {W A} (a : A) : M W A := fun w => (Return a, w).

Definition raise {W A} (e : exn) : M W A := fun w => (Raise e, w).

Definition bind {W A B} (m : M W A) (k : A -> M W B) : M W B :=
  fun w => match m w with
           | (Return a, w') => k a w'
           | (Raise e, w') => (Raise e, w')
           | (Pending, w') => (Pending, w')
           end.

(** An outcome that does not touch the world. *)
Definition lift {W A} (o : outcome A) : M W A := fun w => (o, w).

(** [b.decode()] as a step of a computation. *)
Definition bytes_decode {W} (b : bytes) : M W str :=
  lift (match decode b with
        | Decoded s => Return s
        | Malformed => Raise (UnicodeDecodeError b)
        | Beyond => Pending
        end).

(** [try: m  except ValueError: handler].  UnicodeDecodeError is a
    ValueError in Python, so the handler takes it too. *)
Definition except_ValueError {W A} (m handler : M W A) : M W A :=
  fun w => match m w with
           | (Raise (ValueError _), w') => handler w'
           | (Raise (UnicodeDecodeError _), w') => handler w'
           | other => other
           end.

(** An outcome for bytes that do not decode: the UnicodeDecodeError for
    bytes that are not well-formed, and no answer for well-formed bytes
    that the model does not cover. *)
Definition undecoded {A} (o : outcome A) : Prop :=
  (exists b, o = Raise (UnicodeDecodeError b) /\ decode b = Malformed) \/
  (exists b, o = Pending /\ decode b = Beyond).

Declare Scope monad_scope.
Delimit Scope monad_scope with monad.
Notation "x <- m ;; k" := (bind m (fun x => k))
  (at level 61, m at next level, right associativity) : monad_scope.
Notation "m ;;; k" := (bind m (fun _ => k))
  (at level 61, right associativity) : monad_scope.
Local Open Scope monad_scope.

(** A dictionary value: the results hold text and numbers. *)
Inductive value : Type :=
| VStr (s : str)
| VInt (n : Z).

(** The dictionary [{STDOUT: .., STDERR: .., EXIT_CODE: ..}] that [exec]
    returns. *)
Record CommandResult : Type := mkResult {
  STDOUT : str;
  STDERR : str;
  EXIT_CODE : value
}.

(** ** Constants of the module *)

Definition _NOWAIT_CMDS : list str := [py "cd"; py "ls"; py "pwd"].

Definition _INTERACTIVE_COMMANDS : list str :=
  [py "tail -f"; py "watch"; py "top"; py "htop"; py "less"; py "more";
   py "vim"; py "nano"; py "vi"].

(** [Shell.sanitize_command], before the text is encoded. *)
Definition sanitize_command (cmd : str) : str := rstrip cmd ++ [LF].

(** ** The local session: [HostShell] *)

Module HostShell.

(** *** The interactivity guard *)

(** The test of one clause against one entry of the catalogue:
    [cmd_parts[0] == interactive_cmd.split()[0] and
     subcmd.startswith(interactive_cmd)]. *)
Definition clause_is (subcmd first : str) (interactive_cmd : str) : bool :=
  match item (split_ws interactive_cmd) 0 with
  | Some first' => str_eqb first first' && startswith subcmd interactive_cmd
  | None => false
  end.

Fixpoint any_interactive (subcmds : list str) : bool :=
  match subcmds with
  | [] => false
  | subcmd :: rest =>
      let subcmd := strip (lower subcmd) in
      match split_ws subcmd with
      | [] => any_interactive rest
      | first :: _ =>
          if existsb (clause_is subcmd first) _INTERACTIVE_COMMANDS then true
          else any_interactive rest
      end
  end.

Definition _is_interactive_command (cmd : str) : bool :=
  any_interactive (split (replace cmd (py "&&") (py ";")) (py ";")).

(** *** The world of a local session

    The shell is a child process reached through three pipes.  The world
    holds the clock, what the operating system would answer, and a log of
    what the session did to the outside.  A pipe is a queue of bytes; the
    world lists them in chunks, each with the time at which the shell
    writes it.  A descriptor is readable when bytes are there to be read
    (the end of a stream is not part of the model). *)

Inductive fd : Type := stdout | stderr.

Inductive event : Type :=
| EvWrite (data : str)      (* [os.write] on the shell's standard input *)
| EvSleep (ms : Z)          (* [time.sleep] *)
| EvPs.                     (* [subprocess.run] of [ps -e -o args=] *)

Record World : Type := mkWorld {
  now : Z;                         (* [time.time()], in milliseconds *)
  ps_output : Z -> str;            (* what [ps -e -o args=] prints at a given time *)
  stdout_pipe : list (Z * bytes);  (* chunks on the shell's output: arrival time, bytes *)
  stderr_pipe : list (Z * bytes);  (* the same for its error stream *)
  returncode : Z -> option Z;      (* [poll()] at a given time *)
  stdin_open : bool;               (* whether a write to the shell succeeds *)
  log : list event                 (* the calls made so far, oldest first *)
}.

Definition set_now (t : Z) (w : World) : World :=
  mkWorld t (ps_output w) (stdout_pipe w) (stderr_pipe w) (returncode w)
          (stdin_open w) (log w).

Definition set_pipe (f : fd) (p : list (Z * bytes)) (w : World) : World :=
  match f with
  | stdout => mkWorld (now w) (ps_output w) p (stderr_pipe w) (returncode w)
                      (stdin_open w) (log w)
  | stderr => mkWorld (now w) (ps_output w) (stdout_pipe w) p (returncode w)
                      (stdin_open w) (log w)
  end.

Definition emit (e : event) (w : World) : World :=
  mkWorld (now w) (ps_output w) (stdout_pipe w) (stderr_pipe w) (returncode w)
          (stdin_open w) (log w ++ [e]).

Definition pipe (f : fd) (w : World) : list (Z * bytes) :=
  match f with stdout => stdout_pipe w | stderr => stderr_pipe w end.

(** [time.time()] *)
Definition time_time : M World Z := fun w => (Return (now w), w).

(** [time.sleep(ms / 1000)] *)
Definition time_sleep (ms : Z) : M World unit :=
  fun w => (Return tt, set_now (now w + ms) (emit (EvSleep ms) w)).

(** [subprocess.run(["ps", "-e", "-o", "args="], ...).stdout.decode()]:
    the listing is taken as the text that a [ps] which runs prints. *)
Definition run_ps : M World str :=
  fun w => (Return (ps_output w (now w)), emit EvPs w).

(** The bytes of a pipe that are there to be read at time [t]: those of
    the chunks in front whose time has come, a pipe being first in, first
    out. *)
Fixpoint arrived (t : Z) (p : list (Z * bytes)) : bytes :=
  match p with
  | (t0, d) :: rest => if (t0 <=? t)%Z then d ++ arrived t rest else []
  | [] => []
  end.

(** A pipe after its first [n] bytes were read. *)
Fixpoint shorten (n : nat) (p : list (Z * bytes)) : list (Z * bytes) :=
  match p with
  | (t0, d) :: rest =>
      if (n =? 0)%nat then p
      else if (length d <=? n)%nat then shorten (n - length d) rest
      else (t0, skipn n d) :: rest
  | [] => []
  end.

(** The time at which a pipe first has a byte to be read. *)
Fixpoint first_byte (p : list (Z * bytes)) : option Z :=
  match p with
  | (t0, d) :: rest =>
      match d with
      | [] => option_map (Z.max t0) (first_byte rest)
      | _ => Some t0
      end
  | [] => None
  end.

(** Whether a descriptor is readable at time [t]: whether it has bytes.
    The end of a stream is not modelled; a pipe stays open, as it does
    while a child of the shell holds it. *)
Definition readable (t : Z) (f : fd) (w : World) : bool :=
  match arrived t (pipe f w) with
  | [] => false
  | _ => true
  end.

Definition ready (f : fd) (w : World) : bool := readable (now w) f w.

(** The earlier of two times, either of which may never come. *)
Definition earliest (a b : option Z) : option Z :=
  match a, b with
  | Some x, Some y => Some (Z.min x y)
  | Some x, None => Some x
  | None, _ => b
  end.

(** [select.select([stderr, stdout], [], [], 0.1)]: the descriptors that
    are readable, at once when there is one; otherwise the call wakes up
    when the first byte comes within its 100 ms, or waits them out and
    returns the empty list. *)
Definition select_select : M World (list fd) :=
  fun w =>
    match filter (fun f => ready f w) [stderr; stdout] with
    | [] =>
        match earliest (first_byte (stderr_pipe w)) (first_byte (stdout_pipe w)) with
        | Some t =>
            if ((now w <? t) && (t <=? now w + 100))%Z
            then (Return (filter (fun f => readable t f w) [stderr; stdout]),
                  set_now t w)
            else (Return [], set_now (now w + 100) w)
        | None => (Return [], set_now (now w + 100) w)
        end
    | fds => (Return fds, w)
    end.

(** [os.read(fd, 4096)]: at most 4096 of the bytes that are there.  (The
    source calls it on descriptors that [select] gave only, so that it
    does not block.) *)
Definition os_read (f : fd) : M World bytes :=
  fun w =>
    let data := firstn 4096 (arrived (now w) (pipe f w)) in
    (Return data, set_pipe f (shorten (length data) (pipe f w)) w).

(** [self._process.poll()] *)
Definition process_poll : M World (option Z) :=
  fun w => (Return (returncode w (now w)), w).

(** *** Completion polling *)

(** [all(cmd.split()[0] in _NOWAIT_CMDS for cmd in commands)]: the
    generator is consumed from the left and [all] stops at the first false;
    [cmd.split()[0]] raises IndexError on a clause without a token. *)
Fixpoint all_nowait (commands : list str) : outcome bool :=
  match commands with
  | [] => Return true
  | cmd :: rest =>
      match item (split_ws cmd) 0 with
      | None => Raise (IndexError [Text (py "list index out of range")])
      | Some first =>
          if in_tuple first _NOWAIT_CMDS then all_nowait rest else Return false
      end
  end.

(** [process == command or process.startswith(f"{command} ")] for some
    command. *)
Definition process_matches (commands : list str) (process : str) : bool :=
  existsb (fun command =>
             str_eqb process command || startswith process (command ++ py " "))
          commands.

(** The loop over the lines of the listing but the first. *)
Fixpoint none_running (commands : list str) (processes : list str) : bool :=
  match processes with
  | [] => true
  | process :: rest =>
      if process_matches commands (strip process) then false
      else none_running commands rest
  end.

Definition _has_command_exited (cmd : str) : M World bool :=
  let commands := map strip (split cmd (py "&&")) in
  match all_nowait commands with
  | Raise e => raise e
  | Pending => fun w => (Pending, w)
  | Return true => time_sleep 300 ;;; ret true
  | Return false =>
      output <- run_ps ;;
      ret (none_running commands (tl (splitlines output)))
  end.

(** *** The output reader *)

(** The local variables of [_read] that the loop changes. *)
Record reader : Type := mkReader {
  buffer_stdout : bytes;         (* [buffer[stdout]] *)
  buffer_stderr : bytes;         (* [buffer[stderr]] *)
  stdout_data : option str;
  stderr_data : option str;
  status_stdout : bool;          (* [markers_status[stdout]] *)
  status_stderr : bool           (* [markers_status[stderr]] *)
}.

Definition reader0 : reader := mkReader [] [] None None false false.

(** Truth value of an optional text: [None] and the empty text are false. *)
Definition truthy (s : option str) : bool :=
  match s with
  | Some (_ :: _) => true
  | _ => false
  end.

(** One turn of [for fd in readables]: a stream whose marker was seen is
    left alone, data that is not empty goes to the buffer. *)
Definition read_fd (f : fd) (r : reader) : M World reader :=
  if (match f with stdout => status_stdout r | stderr => status_stderr r end)
  then ret r
  else
    data <- os_read f ;;
    match data with
    | [] => ret r
    | _ =>
        ret (match f with
             | stdout => mkReader (buffer_stdout r ++ data) (buffer_stderr r)
                           (stdout_data r) (stderr_data r)
                           (status_stdout r) (status_stderr r)
             | stderr => mkReader (buffer_stdout r) (buffer_stderr r ++ data)
                           (stdout_data r) (stderr_data r)
                           (status_stdout r) (status_stderr r)
             end)
    end.

Fixpoint read_fds (fds : list fd) (r : reader) : M World reader :=
  match fds with
  | [] => ret r
  | f :: rest => r' <- read_fd f r ;; read_fds rest r'
  end.

(** [marker is not None and marker not in data] *)
Definition missing (marker : option str) (data : str) : bool :=
  match marker with
  | Some m => negb (contains m data)
  | None => false
  end.

(** [if marker: data = data[:data.find(marker)]] *)
Definition cut_at (marker : option str) (data : str) : str :=
  match marker with
  | Some (c :: m) => slice_to data (find data (c :: m))
  | _ => data
  end.

(** The marker checks after a round of reads, on the two buffers decoded,
    [out] and [err].  The result tells whether the loop breaks
    ([markers_found]). *)
Definition check_markers (command_marker stderr_marker : option str)
    (r : reader) (out err : str) : bool * reader :=
  let miss_out := missing command_marker out in
  let miss_err := missing stderr_marker err in
  let st_out := if miss_out then status_stdout r else true in
  let st_err := if miss_err then status_stderr r else true in
  if miss_out || miss_err
  then (false, mkReader (buffer_stdout r) (buffer_stderr r)
                        (Some out) (Some err) st_out st_err)
  else (true, mkReader (buffer_stdout r) (buffer_stderr r)
                       (Some (cut_at command_marker out))
                       (Some (cut_at stderr_marker err)) st_out st_err).

(** The body of the [while] loop; [true] in the result stands for [break]. *)
Definition read_pass (cmd command_marker stderr_marker : option str)
    (wait : bool) (r : reader) : M World (bool * reader) :=
  exited <- (if wait && truthy cmd
             then _has_command_exited (match cmd with Some c => c | None => [] end)
             else ret true) ;;
  if negb exited then time_sleep 500 ;;; ret (false, r)
  else
    readables <- select_select ;;
    br <- (match readables with
           | [] => ret (false, r)
           | _ => r' <- read_fds readables r ;;
                  out <- bytes_decode (buffer_stdout r') ;;
                  err <- bytes_decode (buffer_stderr r') ;;
                  ret (check_markers command_marker stderr_marker r' out err)
           end) ;;
    if fst br then ret br
    else if negb (truthy cmd) then ret (true, snd br)
    else time_sleep 50 ;;; ret (false, snd br).

(** [while time.time() < end_time: ...] with at most [turns] turns. *)
Fixpoint read_loop (turns : nat) (end_time : Z)
    (cmd command_marker stderr_marker : option str) (wait : bool) (r : reader)
    : M World reader :=
  t <- time_time ;;
  if (t <? end_time)%Z then
    match turns with
    | O => fun w => (Pending, w)
    | S turns' =>
        br <- read_pass cmd command_marker stderr_marker wait r ;;
        if fst br then ret (snd br)
        else read_loop turns' end_time cmd command_marker stderr_marker wait (snd br)
    end
  else ret r.

Definition msg_exited (r : reader) : message :=
  [Text (py "Subprocess exited unexpectedly." ++ [LF] ++ py "Current buffer: ");
   Buffers (buffer_stdout r) (buffer_stderr r)].

Definition msg_timeout (r : reader) : message :=
  [Text (py "Timeout reached while reading from subprocess." ++ [LF]
         ++ py "Current buffer: "); Buffers (buffer_stdout r) (buffer_stderr r);
   Text (py ". Note that interactive commands are not supported "
         ++ py "and can timeout. Use a corresponding non-interactive "
         ++ py "command if possible.")].

(** What follows the loop: the two failure checks and the result. *)
Definition read_finish (end_time : Z) (r : reader) : M World (str * str) :=
  code <- process_poll ;;
  match code with
  | Some _ => raise (RuntimeError (msg_exited r))
  | None =>
      t <- time_time ;;
      if (t >=? end_time)%Z then raise (TimeoutError (msg_timeout r))
      else
        out <- (match stdout_data r with
                | Some d => ret d
                | None => bytes_decode (buffer_stdout r)
                end) ;;
        err <- (match stderr_data r with
                | Some d => ret d
                | None => bytes_decode (buffer_stderr r)
                end) ;;
        ret (out, err)
  end.

(** Every turn that goes on sleeps for 50 ms at least, so the loop is over
    within [timeout / 50 + 1] turns. *)
Definition turns_for (timeout : Z) : nat := S (Z.to_nat (timeout / 50)).

Definition _read (cmd command_marker stderr_marker : option str) (wait : bool)
    (timeout : Z) : M World (str * str) :=
  if wait && (match cmd with None => true | Some _ => false end)
  then raise (ValueError [Text (py "`cmd` cannot be `None` when `wait` is set to `True`")])
  else
    t <- time_time ;;
    let end_time := (t + timeout)%Z in
    r <- read_loop (turns_for timeout) end_time cmd command_marker stderr_marker
                   wait reader0 ;;
    read_finish end_time r.

(** [timeout: float = 120.0] *)
Definition default_timeout : Z := 120000.

(** *** Writing *)

Definition _write (cmd : str) : M World unit :=
  fun w =>
    let w' := emit (EvWrite (sanitize_command cmd)) w in
    if stdin_open w then (Return tt, w')
    else (Raise (RuntimeError [Text (py "[Errno 32] Broken pipe")]), w').

(** *** Markers and [exec] *)

Section Session.

(** The session id, as an f-string prints it ([generate_id] belongs to
    [composio.tools.env.id]). *)
Variable _id : str.

(** Python's [hash] on text. *)
Variable hash : str -> Z.

Definition cmd_end_prefix : str := py "__CMD_END".
Definition exit_prefix : str := py "__EXIT".
Definition stderr_end_prefix : str := py "__STDERR_END".

(** [f"{cmd_end_prefix}_{self._id}_{cmd_hash}__"] *)
Definition command_marker (cmd : str) : str :=
  cmd_end_prefix ++ py "_" ++ _id ++ py "_" ++ str_of_int (hash cmd) ++ py "__".

(** [f"{exit_prefix}_{cmd_hash}__"] *)
Definition exit_marker (cmd : str) : str :=
  exit_prefix ++ py "_" ++ str_of_int (hash cmd) ++ py "__".

(** [f"{stderr_end_prefix}_{self._id}_{cmd_hash}__"] *)
Definition stderr_marker (cmd : str) : str :=
  stderr_end_prefix ++ py "_" ++ _id ++ py "_" ++ str_of_int (hash cmd) ++ py "__".

(** [cmd if cmd else "true"] *)
Definition safe_cmd (cmd : str) : str :=
  match cmd with
  | [] => py "true"
  | _ => cmd
  end.

Definition marked_cmd (cmd : str) : str :=
  safe_cmd cmd ++ py "; "
  ++ py "echo '" ++ exit_marker cmd ++ py " '$?; "
  ++ py "echo '" ++ command_marker cmd ++ py "'; "
  ++ py "printf '" ++ stderr_marker cmd ++ py "' > /dev/stderr".

Definition msg_interactive (cmd : str) : message :=
  [Text (py "Interactive commands are not supported." ++ py " Command '" ++ cmd
         ++ py "' appears to be interactive.")].

Definition msg_index : message := [Text (py "list index out of range")].

(** The loop over [stdout.splitlines()] inside [try]: a line with the
    marker gives the exit code and keeps its text before the marker; a
    ValueError of [int] ends the loop with exit code 1 and the lines
    gathered so far. *)
Fixpoint scan_lines (marker : str) (lines : list str) (exit_code : Z)
    (new_stdout_lines : list str) : outcome (Z * list str) :=
  match lines with
  | [] => Return (exit_code, new_stdout_lines)
  | line :: rest =>
      if contains marker line then
        match item (split line marker) 1 with
        | None => Raise (IndexError msg_index)
        | Some after =>
            match int (strip after) with
            | None => Return (1%Z, new_stdout_lines)
            | Some code =>
                match item (split line marker) 0 with
                | None => Raise (IndexError msg_index)
                | Some before =>
                    scan_lines marker rest code (new_stdout_lines ++ [before])
                end
            end
        end
      else scan_lines marker rest exit_code (new_stdout_lines ++ [line])
  end.

(** Lines 267 to 288 of the source: exit code and cleaned output from the
    text the reader returned. *)
Definition extract_exit_code (marker : str) (stdout : str) : outcome (str * Z) :=
  match (if contains marker stdout
         then match scan_lines marker (splitlines stdout) 0 [] with
              | Return (code, lines) => Return (join [LF] lines, code)
              | Raise e => Raise e
              | Pending => Pending
              end
         else Return (stdout, 0%Z)) with
  | Return (out, code) =>
      Return (if contains exit_prefix out
              then slice_to out (find out exit_prefix) else out, code)
  | other => other
  end.

(** The three markers of a call, as the source computes them at lines 241
    to 247. *)
Record marker_set : Type := mkMarkers {
  command_end : str;
  stderr_end : str;
  exit_code_marker : str
}.

Definition markers (cmd : str) : marker_set :=
  mkMarkers (command_marker cmd) (stderr_marker cmd) (exit_marker cmd).

Definition exec (cmd : str) (wait : bool) : M World CommandResult :=
  if _is_interactive_command cmd then raise (ValueError (msg_interactive cmd))
  else
    _write (marked_cmd cmd) ;;;
    result <- _read (Some (safe_cmd cmd)) (Some (command_marker cmd))
                    (Some (stderr_marker cmd)) wait default_timeout ;;
    oc <- lift (extract_exit_code (exit_marker cmd) (fst result)) ;;
    ret (mkResult (fst oc) (snd result) (VInt (snd oc))).

End Session.

(** *** Effects of a computation, for the statements below *)

(** An event other than a write to the shell. *)
Definition quiet (e : event) : Prop :=
  match e with
  | EvWrite _ => False
  | _ => True
  end.

(** A computation that lets the clock go forward only and adds to the log
    nothing but quiet events. *)
Definition steady {A} (m : M World A) : Prop :=
  forall w, (now w <= now (snd (m w)))%Z /\
            exists l, log (snd (m w)) = log w ++ l /\ Forall quiet l.

(** The reader has seen both markers in its buffers, decoded, and cut its
    two texts at them. *)
Definition found (command_marker stderr_marker : option str) (r : reader) : Prop :=
  exists out err,
    decode (buffer_stdout r) = Decoded out /\
    decode (buffer_stderr r) = Decoded err /\
    missing command_marker out = false /\
    missing stderr_marker err = false /\
    stdout_data r = Some (cut_at command_marker out) /\
    stderr_data r = Some (cut_at stderr_marker err).

(** Whether the completion check of a command raises: the clauses up to
    the first one without a token all begin with a no-wait command. *)
Definition check_raises (cmd : str) : bool :=
  match all_nowait (map strip (split cmd (py "&&"))) with
  | Raise _ => true
  | _ => false
  end.

(** A clause that begins with one of the no-wait commands. *)
Definition nowait_clause (clause : str) : Prop :=
  exists token, item (split_ws clause) 0 = Some token /\
                in_tuple token _NOWAIT_CMDS = true.

(** The clauses that the completion check looks at. *)
Definition polled_clauses (cmd : str) : list str := map strip (split cmd (py "&&")).

(** A line of the process table shows a clause: it is the clause, or the
    clause, a space and more. *)
Definition shows (line clause : str) : Prop :=
  strip line = clause \/ startswith (strip line) (clause ++ py " ") = true.

(** Whether the loop of the reader calls the completion check. *)
Definition polls (cmd : option str) (wait : bool) : bool := wait && truthy cmd.

(** *** What the extraction does to a line, for the statements below *)

(** The exit code that a line with the marker gives:
    [int(line.split(marker)[1].strip())]. *)
Definition line_code (marker line : str) : option Z :=
  match item (split line marker) 1 with
  | Some after => int (strip after)
  | None => None
  end.

(** What the extraction keeps of a line: the text before the marker when
    the line holds it, the line itself otherwise. *)
Definition kept (marker line : str) : str :=
  if contains marker line then slice_to line (find line marker) else line.

(** The last line that holds the marker. *)
Fixpoint last_marked (marker : str) (lines : list str) : option str :=
  match lines with
  | [] => None
  | line :: rest =>
      match last_marked marker rest with
      | Some l => Some l
      | None => if contains marker line then Some line else None
      end
  end.

(** Whether every line that holds the marker gives an exit code. *)
Definition all_parse (marker : str) (lines : list str) : bool :=
  forallb (fun line => negb (contains marker line) ||
                       match line_code marker line with
                       | Some _ => true
                       | None => false
                       end) lines.

(** The lines in front of the first line that holds the marker and gives
    no exit code: those that the loop gets through. *)
Fixpoint parsed_lines (marker : str) (lines : list str) : list str :=
  match lines with
  | [] => []
  | line :: rest =>
      if contains marker line
      then match line_code marker line with
           | Some _ => line :: parsed_lines marker rest
           | None => []
           end
      else line :: parsed_lines marker rest
  end.

(** The cut at a stray [__EXIT] that ends the extraction. *)
Definition cut_stray (out : str) : str :=
  if contains exit_prefix out then slice_to out (find out exit_prefix) else out.

End HostShell.

(** ** The remote session: [SSHShell] *)

Module SSHShell.

(** *** The world of a remote session

    An interactive channel to a remote shell and a side channel for one-off
    commands.  [inbox] lists the bytes that the channel has ready at each
    successive [_read]; [listings] lists what each successive
    [ps -eo command] prints, for as long as the remote side is observed. *)

Inductive event : Type :=
| EvSend (data : str)             (* [channel.send] and [channel.sendall] *)
| EvSleep (ms : Z)                (* [time.sleep] *)
| EvExecCommand (command : str).  (* [client.exec_command] *)

Record World : Type := mkWorld {
  inbox : list bytes;
  listings : list str;
  log : list event
}.

Definition emit (e : event) (w : World) : World :=
  mkWorld (inbox w) (listings w) (log w ++ [e]).

Definition time_sleep (ms : Z) : M World unit :=
  fun w => (Return tt, emit (EvSleep ms) w).

Definition channel_send (data : str) : M World unit :=
  fun w => (Return tt, emit (EvSend data) w).

(** Draining the channel: [recv] while [recv_ready], then the same for the
    error side. *)
Definition channel_drain : M World bytes :=
  fun w => match inbox w with
           | [] => (Return [], w)
           | data :: rest => (Return data, mkWorld rest (listings w) (log w))
           end.

(** [client.exec_command(command)] and the reading of its output. *)
Definition exec_command (command : str) : M World str :=
  fun w => match listings w with
           | [] => (Pending, emit (EvExecCommand command) w)
           | out :: rest =>
               (Return out,
                mkWorld (inbox w) rest (log w ++ [EvExecCommand command]))
           end.

(** *** [_ANSI_ESCAPE] *)

Definition ESC : ascii := ascii_of_N 27.

Definition in_range (lo hi : N) (c : ascii) : bool :=
  ((lo <=? ord c) && (ord c <=? hi))%N.

Fixpoint drop_while (p : ascii -> bool) (s : bytes) : bytes :=
  match s with
  | c :: s' => if p c then drop_while p s' else s
  | [] => []
  end.

(** Length of what the pattern matches after an ESC at the head of the
    text: one character of [[@-Z\\-_]], or a bracket, parameter characters
    [[0-?]*], intermediate characters [[ -/]*] and a final one of [[@-~]]. *)
Definition escape_length (s : bytes) : option nat :=
  match s with
  | c :: s' =>
      if in_range 64 90 c || in_range 92 95 c then Some 1%nat
      else if (ord c =? 91)%N then
        let s1 := drop_while (in_range 48 63) s' in
        let s2 := drop_while (in_range 32 47) s1 in
        match s2 with
        | f :: _ => if in_range 64 126 f
                    then Some (S (S (length s' - length s2)))
                    else None
        | [] => None
        end
      else None
  | [] => None
  end.

(** [_ANSI_ESCAPE.sub(b"", output)] *)
Fixpoint strip_escapes (skip : nat) (s : bytes) : bytes :=
  match s with
  | [] => []
  | c :: s' =>
      match skip with
      | S k => strip_escapes k s'
      | O => if chr_eqb c ESC then
               match escape_length s' with
               | Some n => strip_escapes n s'
               | None => c :: strip_escapes 0 s'
               end
             else c :: strip_escapes 0 s'
      end
  end.

(** *** The methods *)

Definition newline : str := [LF].

Definition _send (buffer : str) (stdin : option str) : M World unit :=
  match stdin with
  | None => channel_send (buffer ++ newline) ;;; time_sleep 50
  | Some input =>
      channel_send (buffer ++ newline) ;;;
      channel_send (input ++ newline) ;;;
      time_sleep 50
  end.

Definition _read : M World str :=
  output <- channel_drain ;;
  bytes_decode (strip_escapes 0 output).

(** [all(not line.lstrip().rstrip().endswith(cmd) for line in ...)] *)
Definition no_line_ends_with (cmd : str) (listing : str) : bool :=
  forallb (fun line => negb (endswith (rstrip (lstrip line)) cmd))
          (split listing newline).

(** [while True: ...] with at most [turns] turns. *)
Fixpoint wait_loop (turns : nat) (cmd : str) : M World unit :=
  match turns with
  | O => fun w => (Pending, w)
  | S turns' =>
      out <- exec_command (py "ps -eo command") ;;
      if no_line_ends_with cmd out then ret tt
      else time_sleep 300 ;;; wait_loop turns' cmd
  end.

Definition _wait (cmd : str) : M World unit :=
  match split cmd (py " ") with
  | [] => raise (ValueError [Text (py "not enough values to unpack")])
  | _cmd :: _rest =>
      if in_tuple _cmd _NOWAIT_CMDS || (length _rest =? 0)%nat
      then time_sleep 300
      else fun w => wait_loop (S (length (listings w))) cmd w
  end.

Definition _exit_status : M World Z :=
  _send (py "echo $?") None ;;;
  except_ValueError
    (text <- _read ;;
     let output := split text newline in
     let chosen := if (length output =? 1)%nat then item output 0 else item output 1 in
     match chosen with
     | None => raise (IndexError [Text (py "list index out of range")])
     | Some line =>
         match int (rstrip (lstrip line)) with
         | Some code => ret code
         | None => raise (ValueError [Text (py "invalid literal for int()")])
         end
     end)
    (ret 1%Z).

Definition _sanitize_output (output : str) : str :=
  let lines := map rstrip (split output [CR; LF]) in
  let clean := join newline (tl lines) in
  let clean := if startswith clean [CR] then slice_from clean 1 else clean in
  replace clean (py "(.dev)" ++ newline) [].

Fixpoint exec_clauses (clauses : list str) (wait : bool) (output : str)
    : M World str :=
  match clauses with
  | [] => ret output
  | _cmd :: rest =>
      _send _cmd None ;;;
      (if wait then _wait _cmd else ret tt) ;;;
      text <- _read ;;
      exec_clauses rest wait (output ++ _sanitize_output text)
  end.

Definition exec (cmd : str) (wait : bool) : M World CommandResult :=
  output <- exec_clauses (split cmd (py " && ")) wait [] ;;
  code <- _exit_status ;;
  ret (mkResult output [] (VStr (str_of_int code))).

(** *** What the methods come to, for the statements below *)

(** The line of the response that [_exit_status] reads: the second one,
    or the only one. *)
Definition status_line (response : str) : str :=
  let output := split response newline in
  if (length output =? 1)%nat then nth 0 output [] else nth 1 output [].

Definition status_code (response : str) : Z :=
  match int (rstrip (lstrip (status_line response))) with
  | Some code => code
  | None => 1%Z
  end.

(** The exit code that [_exit_status] gives for the bytes it has read,
    where the model has an answer. *)
Definition status_of (b : bytes) : option Z :=
  match decode b with
  | Decoded response => Some (status_code response)
  | Malformed => Some 1%Z
  | Beyond => None
  end.

(** What the channel has ready at the read number [i] of a call, counted
    from 0, without its escape sequences. *)
Definition received (w : World) (i : nat) : bytes :=
  strip_escapes 0 (nth i (inbox w) []).

(** The events of sending clauses one by one. *)
Definition sent (clauses : list str) : list event :=
  flat_map (fun c => [EvSend (c ++ newline); EvSleep 50]) clauses.

(** The events of the status query. *)
Definition queried : list event := [EvSend (py "echo $?" ++ newline); EvSleep 50].

(** The listing command of [_wait]. *)
Definition ps_command : str := py "ps -eo command".

(** A listing that still shows the clause: one of its lines, trimmed, ends
    with it. *)
Definition busy (cmd listing : str) : Prop := no_line_ends_with cmd listing = false.

(** The events of a wait that went through the listings [seen] before the
    one that let it return. *)
Definition polling (seen : list str) : list event :=
  flat_map (fun _ => [EvExecCommand ps_command; EvSleep 300]) seen
  ++ [EvExecCommand ps_command].

End SSHShell.

(** ** The specification's wording, for comparison *)

Module Spec.

(** Splitting a command on [&&] and [;] into clauses, read left to right. *)
Fixpoint clauses_go (acc : str) (s : str) : list str :=
  match s with
  | [] => [rev acc]
  | c :: s' =>
      if chr_eqb c ";" then rev acc :: clauses_go [] s'
      else if chr_eqb c "&" then
        match s' with
        | d :: s'' => if chr_eqb d "&" then rev acc :: clauses_go [] s''
                      else clauses_go (c :: acc) s'
        | [] => [rev (c :: acc)]
        end
      else clauses_go (c :: acc) s'
  end.

Definition clauses (cmd : str) : list str := clauses_go [] cmd.

(** A clause matches an entry of the catalogue: trimmed and in lower case,
    its first token is the entry's first token and it starts with the whole
    entry. *)
Definition clause_matches (clause entry : str) : Prop :=
  let c := strip (lower clause) in
  exists token, item (split_ws c) 0 = Some token /\
                item (split_ws entry) 0 = Some token /\
                startswith c entry = true.

Definition names_interactive (cmd : str) : Prop :=
  exists clause entry,
    In clause (clauses cmd) /\ In entry _INTERACTIVE_COMMANDS /\
    clause_matches clause entry.

(** Section 4.5 as written: the first line with the marker gives the exit
    code, 1 when it does not parse, and that line goes as a whole. *)
Fixpoint first_marked (marker : str) (lines : list str) : option str :=
  match lines with
  | [] => None
  | line :: rest => if contains marker line then Some line
                    else first_marked marker rest
  end.

Fixpoint without_first_marked (marker : str) (lines : list str) : list str :=
  match lines with
  | [] => []
  | line :: rest => if contains marker line then rest
                    else line :: without_first_marked marker rest
  end.

Definition extract_exit_code (marker stdout : str) : str * Z :=
  let lines := splitlines stdout in
  match first_marked marker lines with
  | Some line =>
      (join [LF] (without_first_marked marker lines),
       match HostShell.line_code marker line with Some c => c | None => 1%Z end)
  | None => (stdout, 0%Z)
  end.

(** Section 4.6 as written: the exit code is parsed from the last line of
    the response that is not empty, 1 when it does not parse. *)
Fixpoint last_nonempty (lines : list str) : option str :=
  match lines with
  | [] => None
  | line :: rest =>
      match last_nonempty rest with
      | Some l => Some l
      | None => match strip line with [] => None | _ => Some line end
      end
  end.

Definition exit_status (response : str) : Z :=
  match last_nonempty (split response [LF]) with
  | Some line => match int (strip line) with Some c => c | None => 1%Z end
  | None => 1%Z
  end.

(** A marker is built from some parts when each of them occurs in it. *)
Definition built_from (parts : list str) (marker : str) : Prop :=
  Forall (fun part => occurs part marker) parts.

End Spec.

(** ** Sample sessions *)

Module Demo.

(** A session id. *)
Definition session : str := py "b7c1".

(** Python seeds [hash] anew in every process; this one stands for the
    function of some process. *)
Definition hash (s : str) : Z :=
  fold_left (fun h c => ((31 * h + Z.of_N (ord c)) mod 1000003)%Z) s 7%Z.

(** A shell that answers a command at once: [out] and the two lines of the
    wrapper on its output, [err] and the marker on its error stream. *)
Definition answering (cmd out err : str) (code : Z) : HostShell.World :=
  HostShell.mkWorld 0 (fun _ => [])
    [(0%Z, encode (out ++ HostShell.exit_marker hash cmd ++ py " "
                   ++ str_of_int code ++ [LF]
                   ++ HostShell.command_marker session hash cmd ++ [LF]))]
    [(0%Z, encode (err ++ HostShell.stderr_marker session hash cmd))]
    (fun _ => None) true [].

(** The same shell after [set -x]: it traces the commands of the wrapper
    on its error stream. *)
Definition traced (cmd out : str) : HostShell.World :=
  answering cmd out
    (py "+ echo '" ++ HostShell.exit_marker hash cmd ++ py " 0'" ++ [LF]) 0.

(** A shell that prints nothing. *)
Definition silent : HostShell.World :=
  HostShell.mkWorld 0 (fun _ => []) [] [] (fun _ => None) true [].

(** A shell that has ended with status 1. *)
Definition dead : HostShell.World :=
  HostShell.mkWorld 0 (fun _ => []) [] [] (fun _ => Some 1%Z) true [].

(** A shell that has written a byte that is no UTF-8, 0xFF, and ended. *)
Definition garbled : HostShell.World :=
  HostShell.mkWorld 0 (fun _ => []) [(0%Z, [ascii_of_N 255])] []
    (fun _ => Some 1%Z) true [].


(** A process table that shows [make all] running, after its first line. *)
Definition table : str :=
  py "/sbin/init" ++ [LF] ++ py "/bin/bash -l -m" ++ [LF] ++ py "make all" ++ [LF].

Definition building : HostShell.World :=
  HostShell.mkWorld 0 (fun _ => table) [] [] (fun _ => None) true [].

(** A remote side whose listing shows [make all] once and then no more. *)
Definition remote_listing (running : bool) : str :=
  py "COMMAND" ++ [LF] ++ py "-bash" ++ [LF]
  ++ (if running then py "make all" ++ [LF] else []).

Definition remote (inbox : list bytes) : SSHShell.World :=
  SSHShell.mkWorld inbox [remote_listing true; remote_listing false] [].

End Demo.

(** ** Setting a session up *)

(** [_DEV_SOURCE], as [f"source {_DEV_SOURCE}"] prints it. *)
Definition _DEV_SOURCE : str := py "/home/user/.dev/bin/activate".

(** [f"export {key}={value}"] *)
Definition export_cmd (key value : str) : str := py "export " ++ key ++ py "=" ++ value.

Module HostShellSetup.

Import HostShell.

Section Session.

Variable _id : str.
Variable hash : str -> Z.

(** [for key, value in self.environment.items(): ...] *)
Fixpoint export_all (environment : list (str * str)) : M World unit :=
  match environment with
  | [] => ret tt
  | (key, value) :: rest =>
      exec _id hash (export_cmd key value) true ;;;
      time_sleep 50 ;;;
      export_all rest
  end.

(** [HostShell.setup], once the shell process is there; [dev_source_exists]
    is what [_DEV_SOURCE.exists()] answers and [environment] the items of
    [self.environment] in their order. *)
Definition setup (dev_source_exists : bool) (environment : list (str * str))
    : M World unit :=
  _read None None None false default_timeout ;;;
  (if dev_source_exists
   then exec _id hash (py "source " ++ _DEV_SOURCE) true ;;; ret tt
   else ret tt) ;;;
  export_all environment.

(** The commands that [setup] has [exec] run, in their order. *)
Definition setup_commands (dev_source_exists : bool)
    (environment : list (str * str)) : list str :=
  (if dev_source_exists then [py "source " ++ _DEV_SOURCE] else [])
  ++ map (fun kv => export_cmd (fst kv) (snd kv)) environment.

End Session.

End HostShellSetup.

Module SSHShellSetup.

Import SSHShell.

(** [for key, value in self.environment.items(): ...] *)
Fixpoint export_all (environment : list (str * str)) : M World unit :=
  match environment with
  | [] => ret tt
  | (key, value) :: rest =>
      _send (export_cmd key value) None ;;;
      time_sleep 50 ;;;
      _read ;;;
      export_all rest
  end.

(** [SSHShell.setup] *)
Definition setup (dev_source_exists : bool) (environment : list (str * str))
    : M World unit :=
  (if dev_source_exists
   then exec (py "source " ++ _DEV_SOURCE) true ;;; ret tt
   else ret tt) ;;;
  export_all environment ;;;
  exec (py "cd ~/ && export PS1=''") true ;;;
  ret tt.

End SSHShellSetup.

(** ** More notions for the statements *)

Module Notions.

Import HostShell.

(** The bytes still in a pipe. *)
Definition pending (f : fd) (w : World) : bytes := concat (map snd (pipe f w)).

(** What the reader has taken from a stream. *)
Definition buffer (f : fd) (r : reader) : bytes :=
  match f with
  | stdout => buffer_stdout r
  | stderr => buffer_stderr r
  end.

(** The writes of a log, in their order. *)
Definition writes (l : list event) : list str :=
  flat_map (fun e => match e with EvWrite data => [data] | _ => [] end) l.

(** The line that the first [echo] of the wrapper prints. *)
Definition exit_line (hash : str -> Z) (cmd : str) (code : Z) : str :=
  exit_marker hash cmd ++ py " " ++ str_of_int code.

(** What a shell prints on its output for the wrapped command when the
    command prints [out] and ends with status [code]: [out], the line of
    the first [echo] and the line of the second. *)
Definition answer_stdout (_id : str) (hash : str -> Z) (cmd out : str)
    (code : Z) : str :=
  out ++ exit_marker hash cmd ++ py " " ++ str_of_int code ++ [LF]
  ++ command_marker _id hash cmd ++ [LF].

(** And on its error stream: [err] and what [printf] puts there. *)
Definition answer_stderr (_id : str) (hash : str -> Z) (cmd err : str) : str :=
  err ++ stderr_marker _id hash cmd.

(** Text made of whole lines: empty, or ending in a line feed. *)
Definition whole_lines (s : str) : Prop := s = [] \/ exists t, s = t ++ [LF].

(** Text whose line ends are all line feeds. *)
Definition unix_lines (s : str) : Prop :=
  forall c, In c s -> is_linebreak c = true -> c = LF.

(** What leaves the pipes alone. *)
Definition same_pipes (w w' : World) : Prop :=
  stdout_pipe w' = stdout_pipe w /\ stderr_pipe w' = stderr_pipe w /\
  returncode w' = returncode w /\ ps_output w' = ps_output w /\
  stdin_open w' = stdin_open w.

(** The reader's texts begin its buffers, decoded. *)
Definition data_from_buffers (r : reader) : Prop :=
  (forall d, stdout_data r = Some d ->
             exists t, decode (buffer_stdout r) = Decoded (d ++ t)) /\
  (forall d, stderr_data r = Some d ->
             exists t, decode (buffer_stderr r) = Decoded (d ++ t)).

(** What a turn of the loop keeps: bytes are only moved from the pipes to
    the buffers. *)
Definition turn_ok (r : reader) (w : World) (r' : reader) (w' : World) : Prop :=
  (forall f, buffer f r' ++ pending f w' = buffer f r ++ pending f w) /\
  (data_from_buffers r -> data_from_buffers r') /\
  returncode w' = returncode w.

(** The bytes [b] are what the reader has of some stream after a round of
    reads that began with the reader [r] in the world [w] and ended in
    the world [w']. *)
Definition read_so_far (b : bytes) (r : reader) (w w' : World) : Prop :=
  exists f, b ++ pending f w' = buffer f r ++ pending f w.

(** What one [os.read] at time [t] takes from a stream: at most 4096 of
    the bytes that are there. *)
Definition taken (t : Z) (f : fd) (w : World) : bytes :=
  firstn 4096 (arrived t (pipe f w)).

(** The time at which [select] returns: at once when a byte is there to be
    read, with the first byte when it comes within 100 ms, after 100 ms
    otherwise. *)
Definition wake (w : World) : Z :=
  match earliest (first_byte (stderr_pipe w)) (first_byte (stdout_pipe w)) with
  | Some t => if (t <=? now w)%Z then now w
              else if (t <=? now w + 100)%Z then t
              else (now w + 100)%Z
  | None => (now w + 100)%Z
  end.

(** The reader after [data] was added to the buffer of a stream. *)
Definition add_data (f : fd) (r : reader) (data : bytes) : reader :=
  match f with
  | stdout => mkReader (buffer_stdout r ++ data) (buffer_stderr r)
                (stdout_data r) (stderr_data r) (status_stdout r) (status_stderr r)
  | stderr => mkReader (buffer_stdout r) (buffer_stderr r ++ data)
                (stdout_data r) (stderr_data r) (status_stdout r) (status_stderr r)
  end.

(** A computation that writes to the shell the wrapped form of the
    commands [cmds], one after the other and nothing else; all of them
    when it returns, the first ones when it raises. *)
Definition runs {A} (_id : str) (hash : str -> Z) (m : M World A)
    (cmds : list str) : Prop :=
  forall w, exists done rest,
    cmds = done ++ rest /\
    writes (log (snd (m w)))
    = writes (log w) ++ map (fun c => marked_cmd _id hash c ++ [LF]) done /\
    (forall a, fst (m w) = Return a -> rest = []).

End Notions.

(** * Properties *)

(** ** The model at work *)

Section Examples.

Import HostShell.

Example split_on_separator :
  split (py "a&&b&&&c&&") (py "&&") = [py "a"; py "b"; py "&c"; []].
Proof. reflexivity. Qed.

Example split_on_white_space :
  split_ws (py "  tail   -f  log ") = [py "tail"; py "-f"; py "log"].
Proof. reflexivity. Qed.

Example splitlines_of_output :
  splitlines (py "a" ++ [CR; LF] ++ py "b" ++ [LF; LF] ++ py "c" ++ [LF])
  = [py "a"; py "b"; []; py "c"].
Proof. reflexivity. Qed.

Example int_of_text :
  int (py " -12 ") = Some (-12)%Z /\ int (py "1_000") = Some 1000%Z /\
  int (py "0 x") = None /\ int [] = None /\ int (py "_1") = None.
Proof. repeat split. Qed.

Example text_of_int :
  str_of_int (-15) = py "-15" /\ str_of_int 0 = py "0".
Proof. split; reflexivity. Qed.

Example slice_before_marker :
  slice_to (py "out__M__rest") (find (py "out__M__rest") (py "__M__")) = py "out".
Proof. reflexivity. Qed.

Example guard_examples :
  _is_interactive_command (py "vim notes.txt") = true /\
  _is_interactive_command (py "ls; TAIL -F log") = true /\
  _is_interactive_command (py "make && top") = true /\
  _is_interactive_command (py "tail log") = false /\
  _is_interactive_command (py "vixen") = false /\
  _is_interactive_command (py "echo vim") = false.
Proof. repeat split. Qed.

Example clauses_of_command :
  Spec.clauses (py "ls && cd /tmp;pwd&") = [py "ls "; py " cd /tmp"; py "pwd&"].
Proof. reflexivity. Qed.

Example exited_after_delay :
  _has_command_exited (py "cd /tmp && ls") Demo.building
  = (Return true, set_now 300 (emit (EvSleep 300) Demo.building)).
Proof. reflexivity. Qed.

Example still_running :
  _has_command_exited (py "make all") Demo.building
  = (Return false, emit EvPs Demo.building) /\
  _has_command_exited (py "make") Demo.building
  = (Return false, emit EvPs Demo.building).
Proof. split; reflexivity. Qed.

Example not_running :
  _has_command_exited (py "mak") Demo.building
  = (Return true, emit EvPs Demo.building) /\
  _has_command_exited (py "/sbin/init") Demo.building
  = (Return true, emit EvPs Demo.building).
Proof. split; reflexivity. Qed.

Example wrapped_command :
  marked_cmd (py "s1") (fun _ => 5%Z) (py "echo hi")
  = py "echo hi; echo '__EXIT_5__ '$?; echo '__CMD_END_s1_5__'; "
    ++ py "printf '__STDERR_END_s1_5__' > /dev/stderr".
Proof. reflexivity. Qed.

Example escapes_stripped :
  SSHShell.strip_escapes 0
    ([SSHShell.ESC] ++ py "[0;31mred" ++ [SSHShell.ESC] ++ py "[0m"
     ++ [SSHShell.ESC] ++ py "Mx" ++ [SSHShell.ESC] ++ py "[12")
  = py "redx" ++ [SSHShell.ESC] ++ py "[12".
Proof. reflexivity. Qed.

Example remote_output_cleaned :
  SSHShell._sanitize_output
    (py "ls" ++ [CR; LF] ++ py "(.dev)" ++ [CR; LF] ++ py "a  b  " ++ [CR; LF])
  = py "a  b" ++ [LF].
Proof. reflexivity. Qed.

End Examples.

(** ** Text *)

Section TextFacts.

Lemma chr_eqb_eq (a b : ascii) : chr_eqb a b = true <-> a = b.
Proof. apply Ascii.eqb_eq. Qed.

Lemma chr_eqb_refl (a : ascii) : chr_eqb a a = true.
Proof. apply Ascii.eqb_refl. Qed.

Lemma str_eqb_eq (a b : str) : str_eqb a b = true <-> a = b.
Proof.
  revert b; induction a as [|x a IH]; intros [|y b]; simpl; split;
    try congruence; try reflexivity.
  - intros H; apply andb_true_iff in H as [H1 H2].
    apply chr_eqb_eq in H1; apply IH in H2; congruence.
  - intros H; injection H as -> ->.
    rewrite chr_eqb_refl; simpl; apply IH; reflexivity.
Qed.

Lemma startswith_iff (s p : str) :
  startswith s p = true <-> exists t, s = p ++ t.
Proof.
  revert s; induction p as [|x p IH]; intros s; simpl.
  - split; [intros _; exists s; reflexivity | reflexivity].
  - destruct s as [|y s].
    + split; [discriminate | intros [t Ht]; discriminate].
    + split.
      * intros H; apply andb_true_iff in H as [H1 H2].
        apply chr_eqb_eq in H1; apply IH in H2 as [t ->].
        exists t; congruence.
      * intros [t Ht]; injection Ht as -> ->.
        rewrite chr_eqb_refl; simpl; apply IH; exists t; reflexivity.
Qed.

Lemma startswith_app (s t p : str) :
  startswith s p = true -> startswith (s ++ t) p = true.
Proof.
  intros H; apply startswith_iff in H as [u ->].
  apply startswith_iff; exists (u ++ t); rewrite app_assoc; reflexivity.
Qed.

Lemma startswith_length (s p : str) :
  startswith s p = true -> length p <= length s.
Proof.
  intros H; apply startswith_iff in H as [t ->]; rewrite length_app; lia.
Qed.

Lemma startswith_nil_l (p : str) : p <> [] -> startswith [] p = false.
Proof. destruct p; [congruence | reflexivity]. Qed.

Lemma index_cons (m : str) (c : ascii) (s : str) :
  index m (c :: s) =
  if startswith (c :: s) m then Some 0 else option_map S (index m s).
Proof. reflexivity. Qed.

Lemma index_nil (m : str) :
  index m [] = if startswith [] m then Some 0 else None.
Proof. reflexivity. Qed.

Lemma index_here (m s : str) : startswith s m = true -> index m s = Some 0.
Proof.
  intros H; destruct s; [rewrite index_nil | rewrite index_cons];
    rewrite H; reflexivity.
Qed.

Lemma index_split (m s : str) (i : nat) :
  index m s = Some i -> exists t, s = firstn i s ++ m ++ t.
Proof.
  revert i; induction s as [|c s IH]; intros i.
  - rewrite index_nil; destruct (startswith [] m) eqn:E; [|discriminate].
    intros H; injection H as <-; apply startswith_iff in E; exact E.
  - rewrite index_cons; destruct (startswith (c :: s) m) eqn:E.
    + intros H; injection H as <-; apply startswith_iff in E; exact E.
    + destruct (index m s) as [j|]; [|discriminate].
      intros H; injection H as <-.
      destruct (IH j eq_refl) as [t Ht]; exists t; simpl; congruence.
Qed.

Lemma contains_iff (m s : str) : contains m s = true <-> occurs m s.
Proof.
  unfold contains, occurs; split.
  - destruct (index m s) as [i|] eqn:E; [|discriminate].
    intros _; apply index_split in E as [t Ht]; eauto.
  - intros (a & b & ->).
    induction a as [|c a IH]; cbn [app].
    + rewrite index_here; [reflexivity|].
      apply startswith_iff; exists b; reflexivity.
    + rewrite index_cons.
      destruct (startswith (c :: a ++ m ++ b) m); [reflexivity|].
      destruct (index m (a ++ m ++ b)); [reflexivity | discriminate].
Qed.

Lemma not_contains_iff (m s : str) : contains m s = false <-> ~ occurs m s.
Proof.
  rewrite <- contains_iff; destruct (contains m s); split; congruence.
Qed.

Lemma occurs_app_l (m s t : str) : occurs m s -> occurs m (s ++ t).
Proof.
  intros (a & b & ->); exists a, (b ++ t); rewrite <- !app_assoc; reflexivity.
Qed.

Lemma occurs_app_r (m s t : str) : occurs m t -> occurs m (s ++ t).
Proof.
  intros (a & b & ->); exists (s ++ a), b; rewrite <- !app_assoc; reflexivity.
Qed.

Lemma occurs_trans (m s t : str) : occurs m s -> occurs s t -> occurs m t.
Proof.
  intros (a & b & ->) (c & d & ->).
  exists (c ++ a), (b ++ d); rewrite <- !app_assoc; reflexivity.
Qed.

(** The text before the first occurrence of a marker holds no occurrence
    of it. *)
Lemma index_first (m s : str) (i : nat) :
  m <> [] -> index m s = Some i -> contains m (firstn i s) = false.
Proof.
  intros Hm; revert i; induction s as [|c s IH]; intros i.
  - rewrite index_nil, startswith_nil_l by exact Hm; discriminate.
  - rewrite index_cons; destruct (startswith (c :: s) m) eqn:E.
    + intros H; injection H as <-; simpl.
      unfold contains; rewrite index_nil, startswith_nil_l by exact Hm; reflexivity.
    + destruct (index m s) as [j|] eqn:Ej; [|discriminate].
      intros H; injection H as <-; simpl.
      specialize (IH j eq_refl).
      unfold contains in *; rewrite index_cons.
      destruct (startswith (c :: firstn j s) m) eqn:E'.
      * apply (startswith_app _ (skipn j s)) in E'.
        simpl in E'; rewrite firstn_skipn in E'; congruence.
      * destruct (index m (firstn j s)); [discriminate | reflexivity].
Qed.

Lemma slice_to_find (m s : str) (i : nat) :
  index m s = Some i -> slice_to s (find s m) = firstn i s.
Proof.
  intros H; unfold slice_to, find; rewrite H.
  destruct (Z.ltb_spec (Z.of_nat i) 0); [lia|].
  rewrite Nat2Z.id; reflexivity.
Qed.

(** [data[:data.find(marker)]] holds no occurrence of the marker. *)
Lemma cut_free (m s : str) :
  m <> [] -> contains m s = true -> contains m (slice_to s (find s m)) = false.
Proof.
  intros Hm H; unfold contains in H.
  destruct (index m s) as [i|] eqn:E; [|discriminate].
  rewrite (slice_to_find _ _ _ E); apply index_first; assumption.
Qed.

Lemma cut_prefix (m s : str) :
  contains m s = true -> exists t, s = slice_to s (find s m) ++ t.
Proof.
  intros H; unfold contains in H.
  destruct (index m s) as [i|] eqn:E; [|discriminate].
  rewrite (slice_to_find _ _ _ E).
  exists (skipn i s); symmetry; apply firstn_skipn.
Qed.

End TextFacts.

Section SplitFacts.

Lemma split_go_skip (sep : str) (k : nat) (acc s : str) :
  k <= length s -> split_go sep k acc s = split_go sep 0 acc (skipn k s).
Proof.
  revert s; induction k as [|k IH]; intros s Hk; [reflexivity|].
  destruct s as [|c s]; simpl in Hk; [lia|].
  simpl; apply IH; lia.
Qed.

(** [split] cuts at the first occurrence of the separator and goes on
    behind it. *)
Lemma split_go_unfold (sep acc s : str) :
  sep <> [] ->
  split_go sep 0 acc s =
  match index sep s with
  | None => [rev acc ++ s]
  | Some i => (rev acc ++ firstn i s)
              :: split_go sep 0 [] (skipn (i + length sep) s)
  end.
Proof.
  intros Hsep; revert acc; induction s as [|c s IH]; intros acc.
  - rewrite index_nil, startswith_nil_l by exact Hsep.
    simpl; rewrite app_nil_r; reflexivity.
  - rewrite index_cons; cbn [split_go].
    destruct (startswith (c :: s) sep) eqn:E.
    + cbn [firstn]; rewrite app_nil_r; f_equal.
      pose proof (startswith_length _ _ E) as Hl; simpl in Hl.
      destruct sep as [|x sep]; [congruence|].
      cbn [length Nat.add skipn] in *.
      replace (S (length sep) - 1) with (length sep) by lia.
      apply split_go_skip; lia.
    + rewrite IH; destruct (index sep s) as [i|]; cbn [option_map].
      * cbn [rev firstn Nat.add skipn]; rewrite <- app_assoc; reflexivity.
      * cbn [rev]; rewrite <- app_assoc; reflexivity.
Qed.

Lemma split_unfold (s sep : str) :
  sep <> [] ->
  split s sep =
  match index sep s with
  | None => [s]
  | Some i => firstn i s :: split (skipn (i + length sep) s) sep
  end.
Proof.
  intros Hsep; unfold split; rewrite split_go_unfold by exact Hsep.
  destruct (index sep s); reflexivity.
Qed.

(** The piece in front is the text before the separator. *)
Lemma split_item0 (s sep : str) :
  sep <> [] -> contains sep s = true ->
  item (split s sep) 0 = Some (slice_to s (find s sep)).
Proof.
  intros Hsep H; rewrite split_unfold by exact Hsep.
  unfold contains in H; destruct (index sep s) as [i|] eqn:E; [|discriminate].
  rewrite (slice_to_find _ _ _ E); reflexivity.
Qed.

Lemma split_item0_prefix (s sep x : str) :
  sep <> [] -> item (split s sep) 0 = Some x -> exists t, s = x ++ t.
Proof.
  intros Hsep; rewrite split_unfold by exact Hsep.
  destruct (index sep s) as [i|]; cbn; intros H; injection H as <-.
  - exists (skipn i s); symmetry; apply firstn_skipn.
  - exists []; symmetry; apply app_nil_r.
Qed.

Lemma split_nonempty (s sep : str) : sep <> [] -> split s sep <> [].
Proof.
  intros Hsep; rewrite split_unfold by exact Hsep.
  destruct (index sep s); discriminate.
Qed.

(** With the separator in the text there is a second piece. *)
Lemma split_item1 (s sep : str) :
  sep <> [] -> contains sep s = true -> exists x, item (split s sep) 1 = Some x.
Proof.
  intros Hsep H; rewrite split_unfold by exact Hsep.
  unfold contains in H; destruct (index sep s) as [i|] eqn:E; [|discriminate].
  cbn [item nth_error].
  pose proof (split_nonempty (skipn (i + length sep) s) sep Hsep) as Hn.
  destruct (split (skipn (i + length sep) s) sep) as [|x r]; [congruence|].
  exists x; reflexivity.
Qed.

(** Every line of [splitlines] is a piece of the text. *)
Lemma splitlines_go_occurs (n : nat) :
  forall (s acc l : str), length s <= n ->
    In l (splitlines_go acc s) -> occurs l (rev acc ++ s).
Proof.
  induction n as [|n IH]; intros s acc l Hn.
  - destruct s; [|simpl in Hn; lia].
    simpl; destruct acc; simpl; [tauto|].
    intros [<-|[]]; exists [], []; rewrite !app_nil_r; reflexivity.
  - destruct s as [|c s].
    + simpl; destruct acc; simpl; [tauto|].
      intros [<-|[]]; exists [], []; rewrite !app_nil_r; reflexivity.
    + simpl in Hn.
      assert (Hhead : forall t, occurs (rev acc) (rev acc ++ t)).
      { intros t; exists [], t; reflexivity. }
      cbn [splitlines_go].
      destruct (chr_eqb c CR).
      * destruct s as [|d s].
        { intros [<-|[]]; apply Hhead. }
        destruct (chr_eqb d LF).
        -- intros [<-|H]; [apply Hhead|].
           apply (IH s [] l) in H; [|simpl in Hn; lia].
           apply occurs_app_r.
           apply (occurs_app_r _ [c; d]); exact H.
        -- intros [<-|H]; [apply Hhead|].
           apply (IH (d :: s) [] l) in H; [|lia].
           apply occurs_app_r.
           apply (occurs_app_r _ [c]); exact H.
      * destruct (is_linebreak c).
        -- intros [<-|H]; [apply Hhead|].
           apply (IH s [] l) in H; [|lia].
           apply occurs_app_r.
           apply (occurs_app_r _ [c]); exact H.
        -- intros H; apply (IH s (c :: acc) l) in H; [|lia].
           cbn [rev] in H; rewrite <- app_assoc in H; exact H.
Qed.

Lemma splitlines_occurs (s l : str) : In l (splitlines s) -> occurs l s.
Proof.
  intros H; apply (splitlines_go_occurs (length s) s [] l) in H; [exact H | lia].
Qed.

Lemma occurs_nil (m : str) : occurs m [] -> m = [].
Proof.
  intros (a & b & H); symmetry in H.
  apply app_eq_nil in H as [_ H]; apply app_eq_nil in H as [H _]; exact H.
Qed.

(** An occurrence in two texts put together around a character that the
    marker does not hold lies in one of the two. *)
Lemma occurs_around (m x y : str) (c : ascii) :
  ~ In c m -> occurs m (x ++ c :: y) -> occurs m x \/ occurs m y.
Proof.
  intros Hc (a & b & H).
  apply app_eq_app in H as [l [[Hx Hm]|[Ha Hy]]].
  - apply app_eq_app in Hm as [l2 [[Hm Hb]|[Hl Hb]]].
    + destruct l2 as [|d l2].
      * left; exists a, []; rewrite Hx, Hm, !app_nil_r; reflexivity.
      * simpl in Hb; injection Hb as Hd _; subst d.
        exfalso; apply Hc; rewrite Hm.
        apply in_or_app; right; left; reflexivity.
    + left; exists a, l2; rewrite Hx, Hl; reflexivity.
  - destruct l as [|d l].
    + destruct m as [|e m].
      * left; exists x, []; rewrite app_nil_r; reflexivity.
      * simpl in Hy; injection Hy as He _; subst e.
        exfalso; apply Hc; left; reflexivity.
    + simpl in Hy; injection Hy as _ Hy; subst y.
      right; exists l, b; reflexivity.
Qed.

Lemma occurs_join (m : str) (c : ascii) (parts : list str) :
  m <> [] -> ~ In c m -> occurs m (join [c] parts) ->
  exists p, In p parts /\ occurs m p.
Proof.
  intros Hm Hc; induction parts as [|p rest IH]; intros H.
  - apply occurs_nil in H; congruence.
  - destruct rest as [|q rest].
    + exists p; split; [left; reflexivity | exact H].
    + change (join [c] (p :: q :: rest)) with (p ++ c :: join [c] (q :: rest)) in H.
      apply occurs_around in H as [H|H]; [| |exact Hc].
      * exists p; split; [left; reflexivity | exact H].
      * destruct (IH H) as (p' & Hin & Ho).
        exists p'; split; [right; exact Hin | exact Ho].
Qed.

(** [str(n)] is made of digits and a sign. *)
Lemma str_of_int_chars (n : Z) (c : ascii) :
  In c (str_of_int n) -> is_linebreak c = false /\ isspace c = false.
Proof.
  unfold str_of_int, py.
  assert (Hu : forall d, In c (String.list_ascii_of_string
                                 (DecimalString.NilEmpty.string_of_uint d)) ->
                         is_linebreak c = false /\ isspace c = false).
  { induction d; simpl; try tauto;
      (intros [<-|H]; [split; reflexivity | exact (IHd H)]). }
  assert (Hz : forall d, In c (String.list_ascii_of_string
                                 (DecimalString.NilZero.string_of_uint d)) ->
                         is_linebreak c = false /\ isspace c = false).
  { intros d; destruct d; try apply Hu.
    simpl; intros [<-|[]]; split; reflexivity. }
  destruct (Z.to_int n) as [d|d]; simpl.
  - apply Hz.
  - intros [<-|H]; [split; reflexivity | exact (Hz d H)].
Qed.

End SplitFacts.

(** ** Exit-code extraction *)

Section ExtractionFacts.

Import HostShell.

Lemma exit_marker_prefix (hash : str -> Z) (cmd : str) :
  exists t, exit_marker hash cmd = exit_prefix ++ t.
Proof. eexists; reflexivity. Qed.

Lemma exit_marker_nonempty (hash : str -> Z) (cmd : str) :
  exit_marker hash cmd <> [].
Proof. discriminate. Qed.

Lemma command_marker_nonempty (_id : str) (hash : str -> Z) (cmd : str) :
  command_marker _id hash cmd <> [].
Proof. discriminate. Qed.

Lemma stderr_marker_nonempty (_id : str) (hash : str -> Z) (cmd : str) :
  stderr_marker _id hash cmd <> [].
Proof. discriminate. Qed.

Lemma command_marker_no_LF (_id : str) (hash : str -> Z) (cmd : str) :
  ~ In LF _id -> ~ In LF (command_marker _id hash cmd).
Proof.
  intros Hid H; unfold command_marker in H.
  repeat (apply in_app_or in H as [H|H]).
  - vm_compute in H; intuition discriminate.
  - vm_compute in H; intuition discriminate.
  - exact (Hid H).
  - vm_compute in H; intuition discriminate.
  - apply str_of_int_chars in H as [H _]; discriminate.
  - vm_compute in H; intuition discriminate.
Qed.

(** The lines that [scan_lines] gathers begin lines of its input. *)
Lemma scan_lines_prefixes (m : str) (lines : list str) :
  m <> [] ->
  forall code new code' new',
    scan_lines m lines code new = Return (code', new') ->
    forall l, In l new' ->
      In l new \/ exists line t, In line lines /\ line = l ++ t.
Proof.
  intros Hm; induction lines as [|line rest IH]; intros code new code' new' H l Hl.
  - injection H as _ <-; left; exact Hl.
  - cbn [scan_lines] in H.
    destruct (contains m line) eqn:Ec.
    + destruct (item (split line m) 1) as [after|]; [|discriminate].
      destruct (int (strip after)) as [c|].
      * destruct (item (split line m) 0) as [before|] eqn:E0; [|discriminate].
        destruct (IH _ _ _ _ H l Hl) as [Hin|(line' & t & Hin & Ht)].
        -- apply in_app_or in Hin as [Hin|[<-|[]]]; [left; exact Hin|].
           apply split_item0_prefix in E0 as [t Ht]; [|exact Hm].
           right; exists line, t; split; [left; reflexivity | exact Ht].
        -- right; exists line', t; split; [right; exact Hin | exact Ht].
      * injection H as _ <-; left; exact Hl.
    + destruct (IH _ _ _ _ H l Hl) as [Hin|(line' & t & Hin & Ht)].
      * apply in_app_or in Hin as [Hin|[<-|[]]]; [left; exact Hin|].
        right; exists line, []; split; [left; reflexivity|].
        symmetry; apply app_nil_r.
      * right; exists line', t; split; [right; exact Hin | exact Ht].
Qed.



(** With every marked line giving a code, the scan keeps of each line what
    [kept] says and leaves the code of the last marked line. *)
Lemma scan_lines_all_parse (m : str) (lines : list str) :
  m <> [] -> all_parse m lines = true ->
  forall code new,
    scan_lines m lines code new =
    Return (match last_marked m lines with
            | Some l => match line_code m l with Some c => c | None => 1%Z end
            | None => code
            end, new ++ map (kept m) lines).
Proof.
  intros Hm; induction lines as [|line rest IH]; intros Hall code new.
  - simpl; rewrite app_nil_r; reflexivity.
  - cbn [all_parse forallb] in Hall; apply andb_true_iff in Hall as [Hline Hrest].
    cbn [scan_lines last_marked map].
    change (kept m line)
      with (if contains m line then slice_to line (find line m) else line).
    unfold line_code in Hline.
    destruct (contains m line) eqn:Ec.
    + destruct (split_item1 line m Hm Ec) as [after Ea].
      rewrite Ea in *; cbn [negb orb] in Hline.
      destruct (int (strip after)) as [c|] eqn:Ei; [|discriminate].
      rewrite (split_item0 line m Hm Ec).
      rewrite (IH Hrest), <- app_assoc; cbn [app].
      destruct (last_marked m rest) as [l|]; [reflexivity|].
      unfold line_code; rewrite Ea, Ei; reflexivity.
    + rewrite (IH Hrest), <- app_assoc; cbn [app].
      destruct (last_marked m rest) as [l|]; reflexivity.
Qed.

(** With a marked line that gives no code, the scan ends with 1. *)
Lemma scan_lines_parse_failure (m : str) (lines : list str) :
  m <> [] -> all_parse m lines = false ->
  forall code new, exists new', scan_lines m lines code new = Return (1%Z, new').
Proof.
  intros Hm; induction lines as [|line rest IH]; intros Hall code new.
  - discriminate.
  - cbn [all_parse forallb] in Hall; cbn [scan_lines]; unfold line_code in Hall.
    destruct (contains m line) eqn:Ec.
    + destruct (split_item1 line m Hm Ec) as [after Ea].
      rewrite Ea in *; cbn [negb orb] in Hall.
      destruct (int (strip after)) as [c|] eqn:Ei.
      * rewrite (split_item0 line m Hm Ec); apply IH; exact Hall.
      * exists new; reflexivity.
    + apply IH; exact Hall.
Qed.


Lemma parsed_lines_all (m : str) (lines : list str) :
  all_parse m lines = true -> parsed_lines m lines = lines.
Proof.
  induction lines as [|line rest IH]; intros Hall; [reflexivity|].
  cbn [all_parse forallb] in Hall; apply andb_true_iff in Hall as [Hline Hrest].
  cbn [parsed_lines]; fold (all_parse m rest) in Hrest; rewrite (IH Hrest).
  destruct (contains m line); [|reflexivity].
  cbn [negb orb] in Hline; destruct (line_code m line); [reflexivity | discriminate].
Qed.

Lemma scan_lines_returns (m : str) (lines : list str) (code : Z) (new : list str) :
  m <> [] -> exists code' new', scan_lines m lines code new = Return (code', new').
Proof.
  intros Hm; destruct (all_parse m lines) eqn:E.
  - rewrite (scan_lines_all_parse m lines Hm E); eauto.
  - destruct (scan_lines_parse_failure m lines Hm E code new) as [new' H]; eauto.
Qed.

Lemma cut_stray_prefix (out : str) : exists t, out = cut_stray out ++ t.
Proof.
  unfold cut_stray; destruct (contains exit_prefix out) eqn:E.
  - apply cut_prefix; exact E.
  - exists []; symmetry; apply app_nil_r.
Qed.

Lemma cut_stray_free (out m t : str) :
  m = exit_prefix ++ t -> contains m (cut_stray out) = false.
Proof.
  intros ->; apply not_contains_iff; intros H.
  assert (Hp : occurs exit_prefix (cut_stray out)).
  { apply (occurs_trans _ (exit_prefix ++ t)); [|exact H].
    exists [], t; reflexivity. }
  apply contains_iff in Hp; unfold cut_stray in Hp.
  destruct (contains exit_prefix out) eqn:E; [|congruence].
  rewrite cut_free in Hp; [discriminate | discriminate | exact E].
Qed.

(** The extraction always comes to a result, and its output is
    [cut_stray] of the lines joined, or of the text itself without marker. *)
Lemma extract_exit_code_shape (m stdout : str) :
  m <> [] ->
  exists out code,
    extract_exit_code m stdout = Return (cut_stray out, code) /\
    (contains m stdout = false /\ out = stdout /\ code = 0%Z \/
     contains m stdout = true /\
     exists lines, scan_lines m (splitlines stdout) 0 [] = Return (code, lines) /\
                   out = join [LF] lines).
Proof.
  intros Hm; unfold extract_exit_code.
  destruct (contains m stdout) eqn:E.
  - destruct (scan_lines_returns m (splitlines stdout) 0 [] Hm) as (code & lines & H).
    rewrite H; exists (join [LF] lines), code; split; [reflexivity|].
    right; split; [reflexivity|]; exists lines; auto.
  - exists stdout, 0%Z; split; [reflexivity|]; left; auto.
Qed.

(** A marker without line feed that the text does not hold is not in the
    output of the extraction either. *)
Lemma extract_keeps_free (m stdout other out : str) (code : Z) :
  m <> [] -> other <> [] -> ~ In LF other ->
  contains other stdout = false ->
  extract_exit_code m stdout = Return (out, code) ->
  contains other out = false.
Proof.
  intros Hm Ho Hlf Hfree H.
  destruct (extract_exit_code_shape m stdout Hm) as (out0 & code0 & Hx & Hcase).
  rewrite Hx in H; injection H as <- <-.
  apply not_contains_iff; intros Hocc.
  apply not_contains_iff in Hfree; apply Hfree.
  destruct (cut_stray_prefix out0) as [t Ht].
  assert (Hocc0 : occurs other out0) by (rewrite Ht; apply occurs_app_l; exact Hocc).
  destruct Hcase as [(_ & -> & _)|(_ & lines & Hs & ->)]; [exact Hocc0|].
  apply occurs_join in Hocc0 as (p & Hp & Hop); [|exact Ho|exact Hlf].
  destruct (scan_lines_prefixes m _ Hm _ _ _ _ Hs p Hp) as [[]|(line & u & Hin & ->)].
  apply splitlines_occurs in Hin.
  apply (occurs_trans _ (p ++ u)); [apply occurs_app_l; exact Hop | exact Hin].
Qed.

End ExtractionFacts.

(** ** Effects of the local session *)

Section LocalEffects.

Import HostShell.

Lemma steady_ret {A} (a : A) : steady (ret a).
Proof.
  intros w; cbn; split; [lia|].
  exists []; rewrite app_nil_r; auto.
Qed.

Lemma steady_raise {A} (e : exn) : steady (@raise World A e).
Proof.
  intros w; cbn; split; [lia|].
  exists []; rewrite app_nil_r; auto.
Qed.

Lemma steady_pending {A} : steady (fun w : World => (@Pending A, w)).
Proof.
  intros w; cbn; split; [lia|].
  exists []; rewrite app_nil_r; auto.
Qed.

Lemma steady_lift {A} (o : outcome A) : steady (lift o).
Proof.
  intros w; cbn; split; [lia|].
  exists []; rewrite app_nil_r; auto.
Qed.

Lemma steady_bind {A B} (m : M World A) (k : A -> M World B) :
  steady m -> (forall a, steady (k a)) -> steady (bind m k).
Proof.
  intros Hm Hk w; unfold bind.
  destruct (Hm w) as (Ht & l & Hl & Hq).
  destruct (m w) as [[a|e|] w1]; cbn [snd] in *;
    try (split; [exact Ht | exists l; auto]).
  destruct (Hk a w1) as (Ht' & l' & Hl' & Hq').
  split; [lia|].
  exists (l ++ l'); rewrite Hl', Hl, app_assoc; split; [reflexivity|].
  apply Forall_app; auto.
Qed.

Lemma steady_time_time : steady time_time.
Proof.
  intros w; cbn; split; [lia|].
  exists []; rewrite app_nil_r; auto.
Qed.

Lemma steady_time_sleep (ms : Z) : (0 <= ms)%Z -> steady (time_sleep ms).
Proof.
  intros H w; cbn; split; [lia|].
  exists [EvSleep ms]; split; [reflexivity|].
  constructor; [exact I | constructor].
Qed.

Lemma steady_run_ps : steady run_ps.
Proof.
  intros w; cbn; split; [lia|].
  exists [EvPs]; split; [reflexivity|].
  constructor; [exact I | constructor].
Qed.

Lemma steady_select_select : steady select_select.
Proof.
  intros w; unfold select_select.
  destruct (filter _ _); [|cbn; split; [lia | exists []; rewrite app_nil_r; auto]].
  destruct (earliest _ _) as [t|];
    [|cbn; split; [lia | exists []; rewrite app_nil_r; auto]].
  destruct (Z.ltb_spec (now w) t); cbn [andb];
    [|cbn; split; [lia | exists []; rewrite app_nil_r; auto]].
  destruct (t <=? now w + 100)%Z; cbn; (split; [lia|]);
    exists []; rewrite app_nil_r; auto.
Qed.

Lemma steady_os_read (f : fd) : steady (os_read f).
Proof.
  intros w; unfold os_read; destruct f; cbn; (split; [lia|]);
    exists []; rewrite app_nil_r; auto.
Qed.

Lemma steady_bytes_decode (b : bytes) : steady (@bytes_decode World b).
Proof. apply steady_lift. Qed.

Lemma steady_process_poll : steady process_poll.
Proof.
  intros w; cbn; split; [lia|].
  exists []; rewrite app_nil_r; auto.
Qed.

Lemma steady_has_command_exited (cmd : str) : steady (_has_command_exited cmd).
Proof.
  unfold _has_command_exited.
  destruct (all_nowait _) as [[|]|e|].
  - apply steady_bind; [apply steady_time_sleep; lia | intros; apply steady_ret].
  - apply steady_bind; [apply steady_run_ps | intros; apply steady_ret].
  - apply steady_raise.
  - apply steady_pending.
Qed.

Lemma steady_read_fd (f : fd) (r : reader) : steady (read_fd f r).
Proof.
  unfold read_fd.
  destruct (match f with stdout => _ | stderr => _ end); [apply steady_ret|].
  apply steady_bind; [apply steady_os_read|].
  intros [|c data]; apply steady_ret.
Qed.

Lemma steady_read_fds (fds : list fd) (r : reader) : steady (read_fds fds r).
Proof.
  revert r; induction fds as [|f fds IH]; intros r; cbn [read_fds].
  - apply steady_ret.
  - apply steady_bind; [apply steady_read_fd | intros; apply IH].
Qed.

Lemma steady_read_pass (cmd cm sm : option str) (wait : bool) (r : reader) :
  steady (read_pass cmd cm sm wait r).
Proof.
  unfold read_pass.
  apply steady_bind.
  { destruct (wait && truthy cmd);
      [apply steady_has_command_exited | apply steady_ret]. }
  intros exited; destruct (negb exited).
  { apply steady_bind; [apply steady_time_sleep; lia | intros; apply steady_ret]. }
  apply steady_bind; [apply steady_select_select|].
  intros readables; apply steady_bind.
  { destruct readables; [apply steady_ret|].
    apply steady_bind; [apply steady_read_fds|]; intros r'.
    apply steady_bind; [apply steady_bytes_decode|]; intros out.
    apply steady_bind; [apply steady_bytes_decode | intros; apply steady_ret]. }
  intros br; destruct (fst br); [apply steady_ret|].
  destruct (negb (truthy cmd)); [apply steady_ret|].
  apply steady_bind; [apply steady_time_sleep; lia | intros; apply steady_ret].
Qed.

Lemma steady_read_loop (turns : nat) (end_time : Z) (cmd cm sm : option str)
    (wait : bool) (r : reader) :
  steady (read_loop turns end_time cmd cm sm wait r).
Proof.
  revert r; induction turns as [|turns IH]; intros r; cbn [read_loop];
    (apply steady_bind; [apply steady_time_time|]);
    intros t; destruct (t <? end_time)%Z; try apply steady_ret.
  - apply steady_pending.
  - apply steady_bind; [apply steady_read_pass|].
    intros br; destruct (fst br); [apply steady_ret | apply IH].
Qed.

Lemma steady_read_finish (end_time : Z) (r : reader) :
  steady (read_finish end_time r).
Proof.
  unfold read_finish.
  apply steady_bind; [apply steady_process_poll|].
  intros [code|]; [apply steady_raise|].
  apply steady_bind; [apply steady_time_time|].
  intros t; destruct (t >=? end_time)%Z; [apply steady_raise|].
  apply steady_bind.
  { destruct (stdout_data r); [apply steady_ret | apply steady_bytes_decode]. }
  intros out; apply steady_bind; [|intros; apply steady_ret].
  destruct (stderr_data r); [apply steady_ret | apply steady_bytes_decode].
Qed.

Lemma steady_read (cmd cm sm : option str) (wait : bool) (timeout : Z) :
  steady (_read cmd cm sm wait timeout).
Proof.
  unfold _read.
  destruct (wait && _); [apply steady_raise|].
  apply steady_bind; [apply steady_time_time|].
  intros t; apply steady_bind; [apply steady_read_loop|].
  intros r; apply steady_read_finish.
Qed.

End LocalEffects.

(** ** The output reader *)

Section ReaderFacts.

Import HostShell.

Lemma bind_Return_inv {W A B} (m : M W A) (k : A -> M W B) (w w' : W) (b : B) :
  bind m k w = (Return b, w') ->
  exists a w1, m w = (Return a, w1) /\ k a w1 = (Return b, w').
Proof.
  unfold bind; destruct (m w) as [[a|e|] w1]; try discriminate.
  intros H; eauto.
Qed.

Lemma bind_Return {W A B} (m : M W A) (k : A -> M W B) (w w1 : W) (a : A) :
  m w = (Return a, w1) -> bind m k w = k a w1.
Proof. intros H; unfold bind; rewrite H; reflexivity. Qed.

Lemma bind_Raise {W A B} (m : M W A) (k : A -> M W B) (w w1 : W) (e : exn) :
  m w = (Raise e, w1) -> bind m k w = (Raise e, w1).
Proof. intros H; unfold bind; rewrite H; reflexivity. Qed.

(** What a decoding step comes to. *)
Lemma bytes_decode_Return {W} (b : bytes) (w w' : W) (s : str) :
  bytes_decode b w = (Return s, w') -> decode b = Decoded s /\ w' = w.
Proof.
  unfold bytes_decode, lift; destruct (decode b); intros H; try discriminate.
  injection H as <- <-; auto.
Qed.

Lemma bytes_decode_Raise {W} (b : bytes) (w w' : W) (e : exn) :
  bytes_decode b w = (Raise e, w') ->
  e = UnicodeDecodeError b /\ decode b = Malformed /\ w' = w.
Proof.
  unfold bytes_decode, lift; destruct (decode b); intros H; try discriminate.
  injection H as <- <-; auto.
Qed.

Lemma bytes_decode_Pending {W} (b : bytes) (w w' : W) :
  bytes_decode b w = (@Pending str, w') -> decode b = Beyond /\ w' = w.
Proof.
  unfold bytes_decode, lift; destruct (decode b); intros H; try discriminate.
  injection H as <-; auto.
Qed.

Lemma bytes_decode_Decoded {W} (b : bytes) (s : str) (w : W) :
  decode b = Decoded s -> bytes_decode b w = (Return s, w).
Proof. intros H; unfold bytes_decode, lift; rewrite H; reflexivity. Qed.

Lemma check_markers_found (cm sm : option str) (r r' : reader) (out err : str) :
  decode (buffer_stdout r) = Decoded out ->
  decode (buffer_stderr r) = Decoded err ->
  check_markers cm sm r out err = (true, r') -> found cm sm r'.
Proof.
  unfold check_markers, found; intros Do De.
  destruct (missing cm out) eqn:Eo; destruct (missing sm err) eqn:Ee; cbn [orb];
    intros H; try discriminate.
  injection H as <-; exists out, err; cbn; repeat split; auto.
Qed.

(** What the reads and the marker checks of a turn come to. *)
Lemma read_and_check_Return (cm sm : option str) (fds : list fd) (r : reader)
    (w w' : World) (br : bool * reader) :
  (r' <- read_fds fds r ;;
   out <- bytes_decode (buffer_stdout r') ;;
   err <- bytes_decode (buffer_stderr r') ;;
   ret (check_markers cm sm r' out err)) w = (Return br, w') ->
  exists r' out err,
    read_fds fds r w = (Return r', w') /\
    decode (buffer_stdout r') = Decoded out /\
    decode (buffer_stderr r') = Decoded err /\
    br = check_markers cm sm r' out err.
Proof.
  intros H.
  apply bind_Return_inv in H as (r' & w1 & Hr & H).
  apply bind_Return_inv in H as (out & w2 & Ho & H).
  apply bind_Return_inv in H as (err & w3 & He & H).
  apply bytes_decode_Return in Ho as [Ho ->].
  apply bytes_decode_Return in He as [He ->].
  injection H as <- <-; exists r', out, err; auto.
Qed.

(** A turn of the loop that breaks has found the markers, unless no command
    was given. *)
Lemma read_pass_break (cmd cm sm : option str) (wait : bool) (r r' : reader)
    (w w' : World) :
  read_pass cmd cm sm wait r w = (Return (true, r'), w') ->
  found cm sm r' \/ truthy cmd = false.
Proof.
  unfold read_pass; intros H.
  apply bind_Return_inv in H as (exited & w1 & _ & H).
  destruct exited; cbn [negb] in H.
  - apply bind_Return_inv in H as (readables & w2 & _ & H).
    apply bind_Return_inv in H as ([b r1] & w3 & Hbr & H).
    cbn [fst snd] in H; destruct b.
    + injection H as <- <-.
      destruct readables as [|f fs]; [discriminate|].
      apply read_and_check_Return in Hbr as (r0 & out & err & _ & Do & De & Hbr).
      left; exact (check_markers_found _ _ _ _ _ _ Do De (eq_sym Hbr)).
    + destruct (truthy cmd); cbn [negb] in H; [|right; reflexivity].
      apply bind_Return_inv in H as (u & w4 & _ & H); discriminate.
  - apply bind_Return_inv in H as (u & w2 & _ & H); discriminate.
Qed.

(** The loop ends with the markers found, or with no command given, or
    with the time used up. *)
Lemma read_loop_return (turns : nat) (end_time : Z) (cmd cm sm : option str)
    (wait : bool) :
  forall (r r' : reader) (w w' : World),
    read_loop turns end_time cmd cm sm wait r w = (Return r', w') ->
    found cm sm r' \/ truthy cmd = false \/ (end_time <= now w')%Z.
Proof.
  induction turns as [|turns IH]; intros r r' w w' H; cbn [read_loop] in H;
    apply bind_Return_inv in H as (t & w1 & Ht & H);
    injection Ht as <- <-;
    destruct (Z.ltb_spec (now w) end_time) as [Hlt|Hge];
    try (injection H as <- <-; right; right; exact Hge).
  - discriminate.
  - apply bind_Return_inv in H as ([b r1] & w2 & Hp & H); cbn [fst snd] in H.
    destruct b.
    + injection H as <- <-.
      destruct (read_pass_break _ _ _ _ _ _ _ _ Hp); auto.
    + exact (IH _ _ _ _ H).
Qed.

(** [_read] behind the check at its head. *)
Lemma read_unfold (cmd cm sm : option str) (wait : bool) (timeout : Z) (w : World) :
  wait && (match cmd with None => true | Some _ => false end) = false ->
  _read cmd cm sm wait timeout w
  = match read_loop (turns_for timeout) (now w + timeout) cmd cm sm wait reader0 w with
    | (Return r, w1) => read_finish (now w + timeout) r w1
    | (Raise e, w1) => (Raise e, w1)
    | (Pending, w1) => (Pending, w1)
    end.
Proof. intros H; unfold _read; rewrite H; reflexivity. Qed.

(** What follows the loop, case by case. *)
Lemma read_finish_cases (end_time : Z) (r : reader) (w : World) :
  read_finish end_time r w
  = match returncode w (now w) with
    | Some _ => (Raise (RuntimeError (msg_exited r)), w)
    | None =>
        if (now w >=? end_time)%Z then (Raise (TimeoutError (msg_timeout r)), w)
        else
          (out <- (match stdout_data r with
                   | Some d => ret d
                   | None => bytes_decode (buffer_stdout r)
                   end) ;;
           err <- (match stderr_data r with
                   | Some d => ret d
                   | None => bytes_decode (buffer_stderr r)
                   end) ;;
           ret (out, err)) w
    end.
Proof.
  unfold read_finish; unfold bind at 1, process_poll.
  destruct (returncode w (now w)); [reflexivity|].
  unfold bind at 1, time_time.
  destruct (now w >=? end_time)%Z; reflexivity.
Qed.

(** With both texts there, the result is the two texts. *)
Lemma read_finish_data (end_time : Z) (r : reader) (w : World) (out err : str) :
  stdout_data r = Some out -> stderr_data r = Some err ->
  read_finish end_time r w
  = match returncode w (now w) with
    | Some _ => (Raise (RuntimeError (msg_exited r)), w)
    | None =>
        if (now w >=? end_time)%Z then (Raise (TimeoutError (msg_timeout r)), w)
        else (Return (out, err), w)
    end.
Proof. intros Ho He; rewrite read_finish_cases, Ho, He; reflexivity. Qed.

(** A call of [_read] that returns has found both markers; what it returns
    is each buffer, decoded and cut at its marker. *)
Lemma read_return (c : str) (cm sm : option str) (wait : bool) (timeout : Z)
    (w w' : World) (out err : str) :
  c <> [] ->
  _read (Some c) cm sm wait timeout w = (Return (out, err), w') ->
  exists r out0 err0,
    decode (buffer_stdout r) = Decoded out0 /\
    decode (buffer_stderr r) = Decoded err0 /\
    missing cm out0 = false /\ missing sm err0 = false /\
    out = cut_at cm out0 /\ err = cut_at sm err0.
Proof.
  intros Hc H; unfold _read in H; rewrite andb_false_r in H.
  apply bind_Return_inv in H as (t & w1 & Ht & H); injection Ht as <- <-.
  apply bind_Return_inv in H as (r & w2 & Hloop & H).
  apply read_loop_return in Hloop as [Hf|[Ht|Ht]].
  - destruct Hf as (out0 & err0 & Do & De & Mo & Me & So & Se).
    rewrite (read_finish_data _ _ _ _ _ So Se) in H.
    destruct (returncode w2 (now w2)); [discriminate|].
    destruct (now w2 >=? now w + timeout)%Z; [discriminate|].
    injection H as <- <- _.
    exists r, out0, err0; auto 10.
  - destruct c; [congruence | discriminate].
  - rewrite read_finish_cases in H.
    destruct (returncode w2 (now w2)); [discriminate|].
    destruct (Z.geb_spec (now w2) (now w + timeout)); [discriminate | lia].
Qed.

(** *** The loop always comes to an end *)

Lemma all_nowait_not_pending (commands : list str) : all_nowait commands <> Pending.
Proof.
  induction commands as [|c rest IH]; cbn [all_nowait]; [discriminate|].
  destruct (item (split_ws c) 0); [|discriminate].
  destruct (in_tuple _ _); [exact IH | discriminate].
Qed.

Lemma has_command_exited_returns (cmd : str) (w : World) :
  check_raises cmd = false ->
  exists b w', _has_command_exited cmd w = (Return b, w').
Proof.
  unfold check_raises, _has_command_exited.
  pose proof (all_nowait_not_pending (map strip (split cmd (py "&&")))) as Hp.
  destruct (all_nowait _) as [[|]|e|]; intros H; try discriminate; try congruence.
  - eexists _, _; reflexivity.
  - eexists _, _; reflexivity.
Qed.

Lemma read_fds_returns (fds : list fd) :
  forall (r : reader) (w : World), exists r' w', read_fds fds r w = (Return r', w').
Proof.
  induction fds as [|f fds IH]; intros r w; cbn [read_fds].
  - eexists _, _; reflexivity.
  - assert (Hf : exists r1 w1, read_fd f r w = (Return r1, w1)).
    { unfold read_fd.
      destruct (match f with stdout => _ | stderr => _ end);
        [eexists _, _; reflexivity|].
      unfold bind, os_read.
      destruct (firstn 4096 _); eexists _, _; reflexivity. }
    destruct Hf as (r1 & w1 & Hf).
    rewrite (bind_Return _ _ _ _ _ Hf); apply IH.
Qed.

Lemma select_select_returns (w : World) :
  exists fds w', select_select w = (Return fds, w').
Proof.
  unfold select_select; destruct (filter _ _); [|eexists _, _; reflexivity].
  destruct (earliest _ _); [|eexists _, _; reflexivity].
  destruct (_ && _)%bool; eexists _, _; reflexivity.
Qed.

Lemma now_after {A} (m : M World A) (w w' : World) (o : outcome A) :
  steady m -> m w = (o, w') -> (now w <= now w')%Z.
Proof.
  intros Hs H; destruct (Hs w) as [Ht _]; rewrite H in Ht; exact Ht.
Qed.

(** The reads and the marker checks of a turn. *)
Lemma read_and_check_ends (cm sm : option str) (fds : list fd) (r : reader)
    (w : World) :
  exists o w',
    (r' <- read_fds fds r ;;
     out <- bytes_decode (buffer_stdout r') ;;
     err <- bytes_decode (buffer_stderr r') ;;
     ret (check_markers cm sm r' out err)) w = (o, w') /\
    (now w <= now w')%Z /\
    ((exists br, o = Return br) \/ undecoded o).
Proof.
  destruct (read_fds_returns fds r w) as (r1 & w1 & H1).
  pose proof (now_after _ _ _ _ (steady_read_fds _ _) H1) as Ht.
  rewrite (bind_Return _ _ _ _ _ H1).
  unfold bind, bytes_decode, lift, undecoded.
  destruct (decode (buffer_stdout r1)) eqn:Eo.
  - destruct (decode (buffer_stderr r1)) eqn:Ee.
    + eexists _, _; split; [reflexivity|]; split; [exact Ht|]; left; eauto.
    + eexists _, _; split; [reflexivity|]; split; [exact Ht|]; right; left; eauto.
    + eexists _, _; split; [reflexivity|]; split; [exact Ht|]; right; right; eauto.
  - eexists _, _; split; [reflexivity|]; split; [exact Ht|]; right; left; eauto.
  - eexists _, _; split; [reflexivity|]; split; [exact Ht|]; right; right; eauto.
Qed.

(** A turn comes to an end when the completion check does: with a result,
    and then a turn after which the loop goes on has taken 50 ms at least,
    or at bytes that do not decode. *)
Lemma read_pass_ends (cmd cm sm : option str) (wait : bool) (r : reader)
    (w : World) :
  (polls cmd wait = true ->
   check_raises (match cmd with Some c => c | None => [] end) = false) ->
  exists o w',
    read_pass cmd cm sm wait r w = (o, w') /\
    ((exists b r', o = Return (b, r') /\ (b = false -> (now w + 50 <= now w')%Z))
     \/ undecoded o).
Proof.
  intros Hsafe; unfold read_pass, polls in *.
  assert (H1 : exists exited w1,
             (if wait && truthy cmd
              then _has_command_exited (match cmd with Some c => c | None => [] end)
              else ret true) w = (Return exited, w1) /\ (now w <= now w1)%Z).
  { destruct (wait && truthy cmd) eqn:E.
    - destruct (has_command_exited_returns _ w (Hsafe eq_refl)) as (b & w1 & H).
      exists b, w1; split; [exact H|].
      exact (now_after _ _ _ _ (steady_has_command_exited _) H).
    - exists true, w; split; [reflexivity | lia]. }
  destruct H1 as (exited & w1 & H1 & Ht1).
  rewrite (bind_Return _ _ _ _ _ H1).
  destruct exited; cbn [negb].
  - destruct (select_select_returns w1) as (fds & w2 & H2).
    pose proof (now_after _ _ _ _ steady_select_select H2) as Ht2.
    rewrite (bind_Return _ _ _ _ _ H2).
    assert (H3 : exists o w3,
               (match fds with
                | [] => ret (false, r)
                | _ => r' <- read_fds fds r ;;
                       out <- bytes_decode (buffer_stdout r') ;;
                       err <- bytes_decode (buffer_stderr r') ;;
                       ret (check_markers cm sm r' out err)
                end) w2 = (o, w3) /\ (now w2 <= now w3)%Z /\
               ((exists br, o = Return br) \/ undecoded o)).
    { destruct fds as [|f fs].
      - exists (Return (false, r)), w2; split; [reflexivity|]; split; [lia|].
        left; eauto.
      - apply read_and_check_ends. }
    destruct H3 as (o & w3 & H3 & Ht3 & [[[b r1] ->]|Hu]).
    + rewrite (bind_Return _ _ _ _ _ H3); cbn [fst snd].
      destruct b.
      * eexists _, w3; split; [reflexivity|]; left.
        exists true, r1; split; [reflexivity | discriminate].
      * destruct (truthy cmd); cbn [negb].
        -- eexists _, _; split; [reflexivity|]; left.
           exists false, r1; split; [reflexivity|].
           intros _; cbn; lia.
        -- eexists _, w3; split; [reflexivity|]; left.
           exists true, r1; split; [reflexivity | discriminate].
    + destruct Hu as [(b & -> & Hb)|(b & -> & Hb)]; unfold bind at 1; rewrite H3.
      * eexists _, _; split; [reflexivity|]; right; left; eauto.
      * eexists _, _; split; [reflexivity|]; right; right; eauto.
  - eexists _, _; split; [reflexivity|]; left.
    exists false, r; split; [reflexivity|].
    intros _; cbn; lia.
Qed.

(** With 50 ms for every turn left, the loop comes to an end: with the
    reader, or at bytes that do not decode. *)
Lemma read_loop_ends (end_time : Z) (cmd cm sm : option str) (wait : bool) :
  (polls cmd wait = true ->
   check_raises (match cmd with Some c => c | None => [] end) = false) ->
  forall (turns : nat) (r : reader) (w : World),
    (end_time - now w <= 50 * Z.of_nat turns)%Z ->
    exists o w',
      read_loop turns end_time cmd cm sm wait r w = (o, w') /\
      ((exists r', o = Return r') \/ undecoded o).
Proof.
  intros Hsafe; induction turns as [|turns IH]; intros r w Hn; cbn [read_loop];
    unfold bind at 1, time_time;
    destruct (Z.ltb_spec (now w) end_time) as [Hlt|Hge];
    try (eexists _, _; split; [reflexivity | left; eauto]).
  - lia.
  - destruct (read_pass_ends cmd cm sm wait r w Hsafe)
      as (o & w1 & Hp & [(b & r1 & -> & Ht)|Hu]).
    + rewrite (bind_Return _ _ _ _ _ Hp); cbn [fst snd].
      destruct b; [eexists _, _; split; [reflexivity | left; eauto]|].
      apply IH; specialize (Ht eq_refl); lia.
    + destruct Hu as [(b & -> & Hb)|(b & -> & Hb)]; unfold bind; rewrite Hp.
      * eexists _, _; split; [reflexivity|]; right; left; eauto.
      * eexists _, _; split; [reflexivity|]; right; right; eauto.
Qed.

Lemma turns_for_enough (timeout t : Z) :
  (t + timeout - t <= 50 * Z.of_nat (turns_for timeout))%Z.
Proof.
  unfold turns_for; rewrite Nat2Z.inj_succ.
  pose proof (Z.mod_pos_bound timeout 50 ltac:(lia)).
  pose proof (Z.div_mod timeout 50 ltac:(lia)); lia.
Qed.

End ReaderFacts.

(** ** The markers and the wrapped command *)

Section MarkerClaims.

Import HostShell.

Lemma safe_cmd_nonempty (cmd : str) : safe_cmd cmd <> [].
Proof. destruct cmd; discriminate. Qed.

Lemma cut_at_marker (m d : str) :
  m <> [] -> cut_at (Some m) d = slice_to d (find d m).
Proof. destruct m; [congruence | reflexivity]. Qed.

Lemma missing_marker (m d : str) :
  missing (Some m) d = false -> contains m d = true.
Proof. cbn; destruct (contains m d); [reflexivity | discriminate]. Qed.

Lemma rstrip_snoc (x : str) (c : ascii) :
  isspace c = false -> rstrip (x ++ [c]) = x ++ [c].
Proof.
  intros H; unfold rstrip; rewrite rev_app_distr; cbn [rev app lstrip].
  rewrite H; cbn [rev]; rewrite rev_involutive; reflexivity.
Qed.

(** The wrapped command ends in a letter, so [sanitize_command] only adds
    the line feed. *)
Lemma sanitize_marked_cmd (_id : str) (hash : str -> Z) (cmd : str) :
  sanitize_command (marked_cmd _id hash cmd) = marked_cmd _id hash cmd ++ [LF].
Proof.
  unfold sanitize_command; f_equal.
  assert (H : marked_cmd _id hash cmd =
              (safe_cmd cmd ++ py "; "
               ++ py "echo '" ++ exit_marker hash cmd ++ py " '$?; "
               ++ py "echo '" ++ command_marker _id hash cmd ++ py "'; "
               ++ py "printf '" ++ stderr_marker _id hash cmd
               ++ py "' > /dev/stder") ++ ["r"%char]).
  { unfold marked_cmd; repeat rewrite <- app_assoc; reflexivity. }
  rewrite H; apply rstrip_snoc; reflexivity.
Qed.

(** What [exec] does after the guard has let the command through. *)
Lemma exec_unfold (_id : str) (hash : str -> Z) (cmd : str) (wait : bool) :
  _is_interactive_command cmd = false ->
  exec _id hash cmd wait =
  bind (_write (marked_cmd _id hash cmd))
       (fun _ =>
          bind (_read (Some (safe_cmd cmd)) (Some (command_marker _id hash cmd))
                      (Some (stderr_marker _id hash cmd)) wait default_timeout)
               (fun result =>
                  bind (lift (extract_exit_code (exit_marker hash cmd) (fst result)))
                       (fun oc => ret (mkResult (fst oc) (snd result)
                                                (VInt (snd oc)))))).
Proof. intros H; unfold exec; rewrite H; reflexivity. Qed.

(** After the write, [exec] writes no more. *)
Lemma steady_after_write (_id : str) (hash : str -> Z) (cmd : str) (wait : bool) :
  steady (bind (_read (Some (safe_cmd cmd)) (Some (command_marker _id hash cmd))
                      (Some (stderr_marker _id hash cmd)) wait default_timeout)
               (fun result =>
                  bind (lift (extract_exit_code (exit_marker hash cmd) (fst result)))
                       (fun oc => ret (mkResult (fst oc) (snd result)
                                                (VInt (snd oc)))))).
Proof.
  apply steady_bind; [apply steady_read|].
  intros result; apply steady_bind; [apply steady_lift|].
  intros oc; apply steady_ret.
Qed.

(** The log of an [exec] that the guard lets through: the write of the
    wrapped command, then quiet events. *)
Lemma exec_log (_id : str) (hash : str -> Z) (cmd : str) (wait : bool) (w : World) :
  _is_interactive_command cmd = false ->
  exists l,
    log (snd (exec _id hash cmd wait w)) =
    log w ++ EvWrite (marked_cmd _id hash cmd ++ [LF]) :: l /\ Forall quiet l.
Proof.
  intros H; rewrite (exec_unfold _ _ _ _ H).
  unfold bind at 1, _write; rewrite sanitize_marked_cmd.
  destruct (stdin_open w).
  - destruct (steady_after_write _id hash cmd wait
                (emit (EvWrite (marked_cmd _id hash cmd ++ [LF])) w))
      as (_ & l & Hl & Hq).
    exists l; rewrite Hl; cbn [log emit]; rewrite <- app_assoc; auto.
  - exists []; cbn; auto.
Qed.

(** C7.  For every local [exec], what goes to the shell is the command,
    or [true] for the empty command, followed in this order by the echo
    of the exit-code marker with [$?], the echo of the command-end marker
    and the [printf] of the stderr-end marker to [/dev/stderr]: this one
    write is the first thing a call does that the guard lets through, no
    other write follows, and a call that the guard stops writes
    nothing. *)
Theorem exec_writes_marked_command (_id : str) (hash : str -> Z) (cmd : str)
    (wait : bool) (w : World) :
  (safe_cmd [] = py "true" /\ forall c s, safe_cmd (c :: s) = c :: s) /\
  exists l,
    log (snd (exec _id hash cmd wait w)) = log w ++ l /\
    if _is_interactive_command cmd then l = []
    else exists l',
        l = EvWrite (safe_cmd cmd
                     ++ py "; echo '" ++ exit_marker hash cmd ++ py " '$?; "
                     ++ py "echo '" ++ command_marker _id hash cmd ++ py "'; "
                     ++ py "printf '" ++ stderr_marker _id hash cmd
                     ++ py "' > /dev/stderr" ++ [LF]) :: l' /\
        Forall quiet l'.
Proof.
  split; [split; reflexivity|].
  destruct (_is_interactive_command cmd) eqn:E.
  - exists []; unfold exec; rewrite E; cbn; rewrite app_nil_r; auto.
  - destruct (exec_log _id hash cmd wait w E) as (l & Hl & Hq).
    eexists; split; [exact Hl|].
    exists l; split; [|exact Hq].
    unfold marked_cmd; repeat rewrite <- app_assoc; reflexivity.
Qed.

(** C5, as the code has it.  The command-end and the stderr-end marker are
    a fixed prefix, the session id and the hash of the command, joined by
    underscores, so that the marker tells the session; the exit-code
    marker is its prefix and the hash alone, the same in every session. *)
Theorem markers_built (_id : str) (hash : str -> Z) (cmd : str) :
  let m := markers _id hash cmd in
  let h := str_of_int (hash cmd) in
  command_end m = py "__CMD_END" ++ py "_" ++ _id ++ py "_" ++ h ++ py "__" /\
  stderr_end m = py "__STDERR_END" ++ py "_" ++ _id ++ py "_" ++ h ++ py "__" /\
  exit_code_marker m = py "__EXIT" ++ py "_" ++ h ++ py "__" /\
  Spec.built_from [py "__CMD_END"; _id; h] (command_end m) /\
  Spec.built_from [py "__STDERR_END"; _id; h] (stderr_end m) /\
  Spec.built_from [py "__EXIT"; h] (exit_code_marker m) /\
  (forall id', command_end (markers id' hash cmd) = command_end m -> id' = _id) /\
  (forall id', stderr_end (markers id' hash cmd) = stderr_end m -> id' = _id) /\
  (forall id', exit_code_marker (markers id' hash cmd) = exit_code_marker m).
Proof.
  cbn zeta; repeat split.
  - repeat constructor.
    + exists [], (py "_" ++ _id ++ py "_" ++ str_of_int (hash cmd) ++ py "__").
      reflexivity.
    + exists (py "__CMD_END_"), (py "_" ++ str_of_int (hash cmd) ++ py "__").
      reflexivity.
    + exists (py "__CMD_END_" ++ _id ++ py "_"), (py "__").
      cbn [command_end markers]; unfold command_marker.
      repeat rewrite <- app_assoc; reflexivity.
  - repeat constructor.
    + exists [], (py "_" ++ _id ++ py "_" ++ str_of_int (hash cmd) ++ py "__").
      reflexivity.
    + exists (py "__STDERR_END_"), (py "_" ++ str_of_int (hash cmd) ++ py "__").
      reflexivity.
    + exists (py "__STDERR_END_" ++ _id ++ py "_"), (py "__").
      cbn [stderr_end markers]; unfold stderr_marker.
      repeat rewrite <- app_assoc; reflexivity.
  - repeat constructor.
    + exists [], (py "_" ++ str_of_int (hash cmd) ++ py "__"); reflexivity.
    + exists (py "__EXIT_"), (py "__"); reflexivity.
  - intros id' H; cbn [command_end markers] in H; unfold command_marker in H.
    apply app_inv_head in H; apply app_inv_head in H.
    apply app_inv_tail in H; exact H.
  - intros id' H; cbn [stderr_end markers] in H; unfold stderr_marker in H.
    apply app_inv_head in H; apply app_inv_head in H.
    apply app_inv_tail in H; exact H.
Qed.

(** C5 as stated fails for the exit-code marker: the session id is no part
    of it, and two sessions get the same one. *)
Lemma exit_marker_without_session_id :
  let m := markers Demo.session Demo.hash (py "ls -l") in
  exit_code_marker m = py "__EXIT_601636__" /\
  ~ Spec.built_from [py "__EXIT"; Demo.session; str_of_int (Demo.hash (py "ls -l"))]
      (exit_code_marker m) /\
  exit_code_marker (markers (py "another") Demo.hash (py "ls -l")) = exit_code_marker m.
Proof.
  cbn zeta; split; [vm_compute; reflexivity|]; split; [|reflexivity].
  intros H; inversion H as [|? ? _ H']; subst.
  inversion H' as [|? ? Hs _]; subst.
  apply contains_iff in Hs; vm_compute in Hs; discriminate.
Qed.

End MarkerClaims.

(** ** What [exec] returns *)

Section ResultClaims.

Import HostShell.






(** Where text before the marker does not stay: on a marked line that
    gives no number, and behind a stray [__EXIT] of an earlier command. *)
Example extraction_drops_text :
  let m := exit_marker Demo.hash (py "printf out") in
  extract_exit_code m (py "a" ++ [LF] ++ py "out" ++ m ++ py " x" ++ [LF])
  = Return (py "a", 1%Z) /\
  extract_exit_code m (py "out" ++ m ++ py " x" ++ [LF]) = Return ([], 1%Z) /\
  extract_exit_code m
    (py "__EXIT_9__ 0" ++ [LF] ++ py "out" ++ m ++ py " 3" ++ [LF])
  = Return ([], 3%Z).
Proof. vm_compute; repeat split. Qed.


(** C1, as the code has it.  When a local [exec] returns, its output holds
    neither the command-end nor the exit-code marker and its error text
    does not hold the stderr-end marker: the reader saw both end markers
    and cut each stream at the first occurrence of its own, and the
    extraction worked on the output so cut.  (The session id is taken
    without line feed.) *)
Theorem exec_strips_own_markers (_id : str) (hash : str -> Z) (cmd : str)
    (wait : bool) (w w' : World) (r : CommandResult) :
  ~ In LF _id ->
  exec _id hash cmd wait w = (Return r, w') ->
  let cm := command_marker _id hash cmd in
  let sm := stderr_marker _id hash cmd in
  let em := exit_marker hash cmd in
  contains cm (STDOUT r) = false /\
  contains em (STDOUT r) = false /\
  contains sm (STDERR r) = false /\
  exists raw_out raw_err code,
    contains cm raw_out = true /\
    contains sm raw_err = true /\
    STDERR r = slice_to raw_err (find raw_err sm) /\
    extract_exit_code em (slice_to raw_out (find raw_out cm)) =
    Return (STDOUT r, code) /\
    EXIT_CODE r = VInt code.
Proof.
  intros Hid H cm sm em.
  destruct (_is_interactive_command cmd) eqn:Eg.
  { unfold exec in H; rewrite Eg in H; discriminate. }
  rewrite (exec_unfold _ _ _ _ Eg) in H.
  apply bind_Return_inv in H as (u & w1 & _ & H).
  apply bind_Return_inv in H as ([out err] & w2 & Hread & H).
  apply bind_Return_inv in H as ([out' code] & w3 & Hx & H).
  injection H as <- _; cbn [STDOUT STDERR EXIT_CODE fst snd] in *.
  unfold lift in Hx; injection Hx as Hx _.
  apply read_return in Hread as (rd & raw_out & raw_err & _ & _ & Ho & He & -> & ->);
    [|apply safe_cmd_nonempty].
  apply missing_marker in Ho, He.
  fold cm sm em in Ho, He, Hx |- *.
  assert (Hcm : cm <> []) by apply command_marker_nonempty.
  assert (Hsm : sm <> []) by apply stderr_marker_nonempty.
  assert (Hem : em <> []) by apply exit_marker_nonempty.
  rewrite (cut_at_marker cm _ Hcm) in *; rewrite (cut_at_marker sm _ Hsm) in *.
  split; [|split; [|split]].
  - eapply (extract_keeps_free em _ cm out' code Hem Hcm); [| |exact Hx].
    + apply command_marker_no_LF; exact Hid.
    + apply cut_free; assumption.
  - destruct (extract_exit_code_shape em (slice_to raw_out (find raw_out cm)) Hem)
      as (o & c & Hs & _).
    rewrite Hs in Hx; injection Hx as <- _.
    apply (cut_stray_free o em (py "_" ++ str_of_int (hash cmd) ++ py "__")).
    reflexivity.
  - apply cut_free; assumption.
  - exists raw_out, raw_err, code; auto.
Qed.

Lemma exec_strips_own_markers_witness :
  let cmd := py "echo hi" in
  let w := Demo.answering cmd (py "hi" ++ [LF]) (py "warn" ++ [LF]) 0 in
  ~ In LF Demo.session /\
  exists r w',
    exec Demo.session Demo.hash cmd true w = (Return r, w') /\
    STDOUT r = py "hi" ++ [LF] /\ STDERR r = py "warn" ++ [LF] /\
    contains (command_marker Demo.session Demo.hash cmd) (STDOUT r) = false /\
    contains (exit_marker Demo.hash cmd) (STDOUT r) = false /\
    contains (stderr_marker Demo.session Demo.hash cmd) (STDERR r) = false.
Proof.
  cbn zeta.
  assert (Hid : ~ In LF Demo.session).
  { vm_compute; intuition discriminate. }
  split; [exact Hid|].
  destruct (exec Demo.session Demo.hash (py "echo hi") true
              (Demo.answering (py "echo hi") (py "hi" ++ [LF]) (py "warn" ++ [LF]) 0))
    as [[r|e|] w'] eqn:E; try (vm_compute in E; discriminate).
  exists r, w'; split; [reflexivity|].
  destruct (exec_strips_own_markers _ _ _ _ _ _ _ Hid E) as (H1 & H2 & H3 & _).
  assert (Hr : r = mkResult (py "hi" ++ [LF]) (py "warn" ++ [LF]) (VInt 0)).
  { vm_compute in E; injection E as <- _; reflexivity. }
  split; [rewrite Hr; reflexivity|]; split; [rewrite Hr; reflexivity|].
  auto.
Defined.

(** C1 as stated fails: each stream is cleared of its own marker only.
    After [set -x] the shell traces the wrapper's [echo] on its error
    stream, and the exit-code marker comes back in the error text. *)
Lemma exec_leaves_traced_exit_marker :
  let cmd := py "echo hi" in
  exists r w',
    exec Demo.session Demo.hash cmd true (Demo.traced cmd (py "hi" ++ [LF]))
    = (Return r, w') /\
    STDERR r = py "+ echo '__EXIT_988099__ 0'" ++ [LF] /\
    contains (exit_marker Demo.hash cmd) (STDERR r) = true.
Proof.
  cbn zeta.
  destruct (exec Demo.session Demo.hash (py "echo hi") true
              (Demo.traced (py "echo hi") (py "hi" ++ [LF])))
    as [[r|e|] w'] eqn:E; try (vm_compute in E; discriminate).
  exists r, w'; split; [reflexivity|].
  assert (Hr : r = mkResult (py "hi" ++ [LF])
                 (py "+ echo '" ++ exit_marker Demo.hash (py "echo hi")
                  ++ py " 0'" ++ [LF]) (VInt 0)).
  { vm_compute in E; injection E as <- _; reflexivity. }
  rewrite Hr; split; vm_compute; reflexivity.
Qed.

End ResultClaims.

(** ** The interactivity guard *)

Section GuardClaims.

Import HostShell.

Lemma chr_eqb_neq (a b : ascii) : chr_eqb a b = false <-> a <> b.
Proof. apply Ascii.eqb_neq. Qed.

Lemma replace_amp_amp (s : str) :
  replace_go (py "&&") (py ";") 0 ("&"%char :: "&"%char :: s)
  = ";"%char :: replace_go (py "&&") (py ";") 0 s.
Proof. reflexivity. Qed.

Lemma replace_other (c : ascii) (s : str) :
  startswith (c :: s) (py "&&") = false ->
  replace_go (py "&&") (py ";") 0 (c :: s)
  = c :: replace_go (py "&&") (py ";") 0 s.
Proof. intros H; cbn [replace_go]; rewrite H; reflexivity. Qed.

Lemma split_semi (acc t : str) :
  split_go (py ";") 0 acc (";"%char :: t) = rev acc :: split_go (py ";") 0 [] t.
Proof. reflexivity. Qed.

Lemma split_other (c : ascii) (acc t : str) :
  c <> ";"%char ->
  split_go (py ";") 0 acc (c :: t) = split_go (py ";") 0 (c :: acc) t.
Proof.
  intros H; cbn [split_go py String.list_ascii_of_string startswith].
  assert (E : chr_eqb ";" c = false) by (apply chr_eqb_neq; congruence).
  rewrite E; reflexivity.
Qed.

Lemma clauses_semi (acc s : str) :
  Spec.clauses_go acc (";"%char :: s) = rev acc :: Spec.clauses_go [] s.
Proof. reflexivity. Qed.

Lemma clauses_amp_amp (acc s : str) :
  Spec.clauses_go acc ("&"%char :: "&"%char :: s) = rev acc :: Spec.clauses_go [] s.
Proof. reflexivity. Qed.

Lemma clauses_amp_other (d : ascii) (acc s : str) :
  d <> "&"%char ->
  Spec.clauses_go acc ("&"%char :: d :: s)
  = Spec.clauses_go ("&"%char :: acc) (d :: s).
Proof.
  intros H; assert (E : chr_eqb d "&" = false) by (apply chr_eqb_neq; congruence).
  change (Spec.clauses_go acc ("&"%char :: d :: s))
    with (if chr_eqb d "&" then rev acc :: Spec.clauses_go [] s
          else Spec.clauses_go ("&"%char :: acc) (d :: s)).
  rewrite E; reflexivity.
Qed.

Lemma clauses_other (c : ascii) (acc s : str) :
  c <> ";"%char -> c <> "&"%char ->
  Spec.clauses_go acc (c :: s) = Spec.clauses_go (c :: acc) s.
Proof.
  intros H1 H2; cbn [Spec.clauses_go].
  assert (E1 : chr_eqb c ";" = false) by (apply chr_eqb_neq; congruence).
  assert (E2 : chr_eqb c "&" = false) by (apply chr_eqb_neq; congruence).
  rewrite E1, E2; reflexivity.
Qed.

Lemma no_amp_amp_here (c : ascii) (s : str) :
  c <> "&"%char -> startswith (c :: s) (py "&&") = false.
Proof.
  intros H; assert (E : chr_eqb "&" c = false) by (apply chr_eqb_neq; congruence).
  change (startswith (c :: s) (py "&&"))
    with (chr_eqb "&" c && startswith s (py "&")).
  rewrite E; reflexivity.
Qed.

Lemma no_amp_amp_next (d : ascii) (s : str) :
  d <> "&"%char -> startswith ("&"%char :: d :: s) (py "&&") = false.
Proof.
  intros H; assert (E : chr_eqb "&" d = false) by (apply chr_eqb_neq; congruence).
  change (startswith ("&"%char :: d :: s) (py "&&"))
    with (chr_eqb "&" "&" && (chr_eqb "&" d && true)).
  rewrite E; reflexivity.
Qed.

(** Replacing [&&] by [;] and splitting on [;] is splitting on both. *)
Lemma split_replace_clauses (n : nat) :
  forall (s acc : str), length s <= n ->
    split_go (py ";") 0 acc (replace_go (py "&&") (py ";") 0 s)
    = Spec.clauses_go acc s.
Proof.
  induction n as [|n IH]; intros s acc Hn.
  - destruct s; [reflexivity | simpl in Hn; lia].
  - destruct s as [|c s]; [reflexivity|]; simpl in Hn.
    destruct (Ascii.eqb_spec c ";") as [->|Hsemi].
    + rewrite replace_other by reflexivity.
      rewrite split_semi, clauses_semi; f_equal; apply IH; lia.
    + destruct (Ascii.eqb_spec c "&") as [->|Hamp].
      * destruct s as [|d s]; [reflexivity|].
        destruct (Ascii.eqb_spec d "&") as [->|Hd].
        -- rewrite replace_amp_amp, split_semi, clauses_amp_amp.
           f_equal; apply IH; simpl in Hn; lia.
        -- rewrite replace_other by (apply no_amp_amp_next; exact Hd).
           rewrite split_other, clauses_amp_other by assumption.
           apply IH; lia.
      * rewrite replace_other by (apply no_amp_amp_here; exact Hamp).
        rewrite split_other, clauses_other by assumption.
        apply IH; lia.
Qed.

Lemma guard_clauses (cmd : str) :
  split (replace cmd (py "&&") (py ";")) (py ";") = Spec.clauses cmd.
Proof. apply (split_replace_clauses (length cmd)); lia. Qed.

(** Trimming and lowering can be done in either order. *)
Lemma isspace_lower_chr (c : ascii) : isspace (lower_chr c) = isspace c.
Proof. destruct c as [[] [] [] [] [] [] [] []]; reflexivity. Qed.

Lemma lstrip_lower (s : str) : lstrip (lower s) = lower (lstrip s).
Proof.
  induction s as [|c s IH]; [reflexivity|].
  cbn [lower map lstrip]; rewrite isspace_lower_chr.
  destruct (isspace c); [exact IH | reflexivity].
Qed.

Lemma strip_lower (s : str) : strip (lower s) = lower (strip s).
Proof.
  unfold strip, rstrip; rewrite lstrip_lower.
  unfold lower; rewrite <- map_rev.
  fold (lower (rev (lstrip s))); rewrite lstrip_lower.
  unfold lower; rewrite map_rev; reflexivity.
Qed.

Lemma clause_is_iff (subcmd first entry : str) :
  clause_is subcmd first entry = true <->
  item (split_ws entry) 0 = Some first /\ startswith subcmd entry = true.
Proof.
  unfold clause_is; destruct (item (split_ws entry) 0) as [first'|].
  - rewrite andb_true_iff, str_eqb_eq; split.
    + intros [-> H]; auto.
    + intros [H1 H2]; injection H1 as ->; auto.
  - split; [discriminate | intros [H _]; discriminate].
Qed.

(** The loop of the guard finds a clause and an entry that match, if
    there are any. *)
Lemma any_interactive_iff (subcmds : list str) :
  any_interactive subcmds = true <->
  exists clause entry,
    In clause subcmds /\ In entry _INTERACTIVE_COMMANDS /\
    Spec.clause_matches clause entry.
Proof.
  induction subcmds as [|subcmd rest IH]; cbn [any_interactive].
  - split; [discriminate | intros (c & e & [] & _)].
  - destruct (split_ws (strip (lower subcmd))) as [|first parts] eqn:Ep.
    + rewrite IH; split.
      * intros (c & e & Hc & He & Hm); exists c, e; auto using in_cons.
      * intros (c & e & [<-|Hc] & He & Hm); [|exists c, e; auto].
        destruct Hm as (token & Ht & _); cbn zeta in Ht.
        rewrite Ep in Ht; discriminate.
    + destruct (existsb _ _INTERACTIVE_COMMANDS) eqn:Ex.
      * split; [intros _ | reflexivity].
        apply existsb_exists in Ex as (entry & He & Hm).
        apply clause_is_iff in Hm as [H1 H2].
        exists subcmd, entry; split; [left; reflexivity|]; split; [exact He|].
        exists first; cbn zeta; rewrite Ep; auto.
      * rewrite IH; split.
        -- intros (c & e & Hc & He & Hm); exists c, e; auto using in_cons.
        -- intros (c & e & [<-|Hc] & He & Hm); [|exists c, e; auto].
           exfalso; destruct Hm as (token & Ht & Ht' & Hs); cbn zeta in Ht, Hs.
           rewrite Ep in Ht; injection Ht as <-.
           assert (existsb (clause_is (strip (lower subcmd)) first)
                     _INTERACTIVE_COMMANDS = true); [|congruence].
           apply existsb_exists; exists e; split; [exact He|].
           apply clause_is_iff; auto.
Qed.

Lemma is_interactive_command_iff (cmd : str) :
  _is_interactive_command cmd = true <-> Spec.names_interactive cmd.
Proof.
  unfold _is_interactive_command, Spec.names_interactive.
  rewrite guard_clauses; apply any_interactive_iff.
Qed.

(** C2.  For every command, [exec] raises the ValueError of the guard
    ("Interactive commands are not supported ...") with nothing written,
    the world being as before, if and only if some clause of the command,
    split on [&&] and [;], has, trimmed and in lower case, the first token
    of an entry of the catalogue as its first token and starts with the
    whole entry (trimming and lowering can be done in either order).
    When no clause matches, the guard raises nothing and the first thing
    [exec] does is to write the wrapped command. *)
Theorem exec_rejects_interactive (_id : str) (hash : str -> Z) (cmd : str)
    (wait : bool) (w : World) :
  (forall clause, strip (lower clause) = lower (strip clause)) /\
  (_is_interactive_command cmd = true <-> Spec.names_interactive cmd) /\
  ((fst (exec _id hash cmd wait w) = Raise (ValueError (msg_interactive cmd)) /\
    log (snd (exec _id hash cmd wait w)) = log w)
   <-> Spec.names_interactive cmd) /\
  (Spec.names_interactive cmd ->
   exec _id hash cmd wait w = (Raise (ValueError (msg_interactive cmd)), w)) /\
  (~ Spec.names_interactive cmd ->
   exists l, log (snd (exec _id hash cmd wait w))
             = log w ++ EvWrite (marked_cmd _id hash cmd ++ [LF]) :: l).
Proof.
  pose proof (is_interactive_command_iff cmd) as Hiff.
  assert (Hyes : Spec.names_interactive cmd ->
                 exec _id hash cmd wait w
                 = (Raise (ValueError (msg_interactive cmd)), w)).
  { intros H; apply Hiff in H; unfold exec; rewrite H; reflexivity. }
  assert (Hno : ~ Spec.names_interactive cmd ->
                exists l, log (snd (exec _id hash cmd wait w))
                          = log w ++ EvWrite (marked_cmd _id hash cmd ++ [LF]) :: l).
  { intros H.
    destruct (_is_interactive_command cmd) eqn:E; [tauto|].
    destruct (exec_log _id hash cmd wait w E) as (l & Hl & _); eauto. }
  split; [exact strip_lower|].
  split; [exact Hiff|]; split; [|split; assumption].
  split.
  - intros [_ Hlog].
    destruct (_is_interactive_command cmd) eqn:E; [tauto|].
    destruct (exec_log _id hash cmd wait w E) as (l & Hl & _).
    rewrite Hl in Hlog; exfalso.
    apply (f_equal (@length event)) in Hlog.
    rewrite length_app in Hlog; simpl in Hlog; lia.
  - intros H; rewrite (Hyes H); auto.
Qed.

End GuardClaims.

(** ** Completion polling *)

Section PollingClaims.

Import HostShell.

Lemma all_nowait_true_iff (commands : list str) :
  all_nowait commands = Return true <-> Forall nowait_clause commands.
Proof.
  induction commands as [|c rest IH]; cbn [all_nowait].
  - split; [constructor | reflexivity].
  - destruct (item (split_ws c) 0) as [first|] eqn:E.
    + destruct (in_tuple first _NOWAIT_CMDS) eqn:En.
      * rewrite IH; split.
        -- intros H; constructor; [exists first; auto | exact H].
        -- intros H; inversion H; assumption.
      * split; [discriminate|].
        intros H; inversion H as [|? ? (token & Ht & Hn) _]; subst.
        rewrite E in Ht; injection Ht as <-; congruence.
    + split; [discriminate|].
      intros H; inversion H as [|? ? (token & Ht & Hn) _]; subst.
      rewrite E in Ht; discriminate.
Qed.

(** The check raises when it comes to a clause without a token, all
    clauses before it beginning with a no-wait command. *)
Lemma all_nowait_raise_iff (commands : list str) (e : exn) :
  all_nowait commands = Raise e <->
  e = IndexError msg_index /\
  exists pre c post,
    commands = pre ++ c :: post /\ Forall nowait_clause pre /\ split_ws c = [].
Proof.
  induction commands as [|c rest IH]; cbn [all_nowait].
  - split; [discriminate|].
    intros (_ & pre & c & post & H & _); destruct pre; discriminate.
  - destruct (item (split_ws c) 0) as [first|] eqn:E.
    + destruct (in_tuple first _NOWAIT_CMDS) eqn:En.
      * rewrite IH; split.
        -- intros (He & pre & c' & post & -> & Hpre & Hc); split; [exact He|].
           exists (c :: pre), c', post; split; [reflexivity|]; split; [|exact Hc].
           constructor; [exists first; auto | exact Hpre].
        -- intros (He & pre & c' & post & Heq & Hpre & Hc); split; [exact He|].
           destruct pre as [|p pre]; cbn [app] in Heq; injection Heq as <- ->.
           ++ rewrite Hc in E; discriminate.
           ++ exists pre, c', post; split; [reflexivity|]; split; [|exact Hc].
              inversion Hpre; assumption.
      * split; [discriminate|].
        intros (_ & pre & c' & post & Heq & Hpre & Hc).
        destruct pre as [|p pre]; cbn [app] in Heq; injection Heq as <- ->.
        -- rewrite Hc in E; discriminate.
        -- inversion Hpre as [|? ? (token & Ht & Hn) _]; subst.
           rewrite E in Ht; injection Ht as <-; congruence.
    + split.
      * intros H; injection H as <-; split; [reflexivity|].
        exists [], c, rest; split; [reflexivity|]; split; [constructor|].
        destruct (split_ws c); [reflexivity | discriminate].
      * intros (-> & _); reflexivity.
Qed.

Lemma check_raises_iff (cmd : str) :
  check_raises cmd = true <->
  exists pre c post,
    polled_clauses cmd = pre ++ c :: post /\
    Forall nowait_clause pre /\ split_ws c = [].
Proof.
  unfold check_raises, polled_clauses.
  destruct (all_nowait (map strip (split cmd (py "&&")))) as [b|e|] eqn:E.
  - split; [discriminate|].
    intros H; assert (Hr : all_nowait (map strip (split cmd (py "&&")))
                           = Raise (IndexError msg_index)).
    { apply all_nowait_raise_iff; auto. }
    congruence.
  - split; [intros _ | reflexivity].
    apply all_nowait_raise_iff in E as [_ H]; exact H.
  - exfalso; exact (all_nowait_not_pending _ E).
Qed.

Lemma has_command_exited_raises (cmd : str) (w : World) :
  check_raises cmd = true ->
  _has_command_exited cmd w = (Raise (IndexError msg_index), w).
Proof.
  unfold check_raises, _has_command_exited; intros H.
  destruct (all_nowait (map strip (split cmd (py "&&")))) as [b|e|] eqn:E;
    try discriminate.
  apply all_nowait_raise_iff in E as [-> _]; reflexivity.
Qed.

Lemma process_matches_iff (commands : list str) (process : str) :
  process_matches commands process = true <->
  exists c, In c commands /\
            (process = c \/ startswith process (c ++ py " ") = true).
Proof.
  unfold process_matches; rewrite existsb_exists.
  split; intros (c & Hc & H); exists c; (split; [exact Hc|]).
  - apply orb_true_iff in H as [H|H];
      [left; apply str_eqb_eq; exact H | right; exact H].
  - apply orb_true_iff; destruct H as [H|H];
      [left; apply str_eqb_eq; exact H | right; exact H].
Qed.

Lemma none_running_iff (commands processes : list str) :
  none_running commands processes = true <->
  forall line c, In line processes -> In c commands -> ~ shows line c.
Proof.
  induction processes as [|p rest IH]; cbn [none_running].
  - split; [intros _ line c [] | reflexivity].
  - destruct (process_matches commands (strip p)) eqn:E.
    + split; [discriminate|].
      intros H; apply process_matches_iff in E as (c & Hc & Hs).
      exfalso; exact (H p c (or_introl eq_refl) Hc Hs).
    + rewrite IH; split.
      * intros H line c [<-|Hl] Hc Hs; [|exact (H line c Hl Hc Hs)].
        assert (process_matches commands (strip p) = true); [|congruence].
        apply process_matches_iff; exists c; auto.
      * intros H line c Hl Hc; apply H; [right; exact Hl | exact Hc].
Qed.

(** X1.  What the completion check does when it does not raise: with every
    clause beginning with a no-wait command it sleeps 300 ms, lists no
    process and says yes; otherwise it lists the processes once, and says
    yes when no line after the first shows a clause. *)
Lemma has_command_exited_returns_spec (cmd : str) (w : World) :
  (Forall nowait_clause (polled_clauses cmd) ->
   _has_command_exited cmd w
   = (Return true, set_now (now w + 300) (emit (EvSleep 300) w))) /\
  (check_raises cmd = false -> ~ Forall nowait_clause (polled_clauses cmd) ->
   exists b,
     _has_command_exited cmd w = (Return b, emit EvPs w) /\
     (b = true <->
      forall line c,
        In line (tl (splitlines (ps_output w (now w)))) ->
        In c (polled_clauses cmd) -> ~ shows line c)).
Proof.
  unfold check_raises, _has_command_exited, polled_clauses; split.
  - intros H; apply all_nowait_true_iff in H; rewrite H; reflexivity.
  - intros Hr Hn.
    destruct (all_nowait (map strip (split cmd (py "&&")))) as [[|]|e|] eqn:E;
      try discriminate.
    + apply all_nowait_true_iff in E; tauto.
    + eexists; split; [reflexivity|].
      cbn [fst snd]; apply none_running_iff.
    + exfalso; exact (all_nowait_not_pending _ E).
Qed.

(** C6, where the code departs from it.  On a command with a clause
    without a token behind no-wait clauses only, such as [ls &&] or a
    blank command, the check raises IndexError; it neither says yes after
    the delay nor consults the process table. *)
Theorem has_command_exited_blank_clause (w : World) :
  _has_command_exited (py "ls &&") w = (Raise (IndexError msg_index), w) /\
  _has_command_exited (py " ") w = (Raise (IndexError msg_index), w) /\
  polled_clauses (py "ls &&") = [py "ls"; []] /\
  polled_clauses (py " ") = [[]].
Proof. repeat split. Qed.

(** C10, as the code has it.  The completion check raises IndexError
    exactly when the clauses of the command, split on [&&] and trimmed,
    come to one without a token after clauses that all begin with a
    no-wait command; it raises before it sleeps or lists processes.  A
    waiting [exec] of such a command that is not empty, passes the guard
    and reaches the shell ends in that IndexError; in all other cases the
    check returns. *)
Theorem blank_clause_crash (cmd : str) :
  (check_raises cmd = true <->
   exists pre c post,
     polled_clauses cmd = pre ++ c :: post /\
     Forall nowait_clause pre /\ split_ws c = []) /\
  (check_raises cmd = true ->
   (forall w, _has_command_exited cmd w = (Raise (IndexError msg_index), w)) /\
   (forall _id hash w,
      cmd <> [] -> _is_interactive_command cmd = false -> stdin_open w = true ->
      exists w', exec _id hash cmd true w = (Raise (IndexError msg_index), w'))) /\
  (check_raises cmd = false ->
   forall w, exists b w', _has_command_exited cmd w = (Return b, w')).
Proof.
  split; [apply check_raises_iff|]; split.
  - intros Hr; split; [intros w; apply has_command_exited_raises; exact Hr|].
    intros _id hash w Hne Hg Hopen.
    rewrite (exec_unfold _ _ _ _ Hg).
    unfold bind at 1, _write; rewrite Hopen.
    set (w1 := emit _ w).
    eexists; apply bind_Raise.
    unfold _read; cbn [andb].
    unfold bind at 1, time_time.
    apply bind_Raise.
    unfold turns_for; cbn [read_loop].
    unfold bind at 1, time_time.
    replace (now w1 <? now w1 + default_timeout)%Z with true
      by (symmetry; apply Z.ltb_lt; unfold default_timeout; lia).
    apply bind_Raise; unfold read_pass; apply bind_Raise.
    destruct cmd as [|c s]; [congruence|].
    cbn [safe_cmd truthy andb].
    apply has_command_exited_raises; exact Hr.
  - intros Hr w; apply has_command_exited_returns; exact Hr.
Qed.

(** C10 as stated fails: [all] stops at the first clause that does not
    begin with a no-wait command, so the empty clause behind [sleep 5] is
    never looked at and the check returns; and the empty command, whose
    one clause is empty, is run as [true]. *)
Lemma empty_clause_without_crash :
  In [] (polled_clauses (py "sleep 5 &&")) /\
  _has_command_exited (py "sleep 5 &&") Demo.silent
  = (Return true, emit EvPs Demo.silent) /\
  In [] (polled_clauses []) /\
  exists r w', exec Demo.session Demo.hash [] true (Demo.answering [] [] [] 0)
               = (Return r, w').
Proof.
  split; [right; left; reflexivity|]; split; [reflexivity|].
  split; [left; reflexivity|].
  destruct (exec Demo.session Demo.hash [] true (Demo.answering [] [] [] 0))
    as [[r|e|] w'] eqn:E; try (vm_compute in E; discriminate).
  exists r, w'; reflexivity.
Qed.

End PollingClaims.
(** *** No call of the local session runs out of turns *)

Section NeverPending.

Import HostShell.

Lemma has_command_exited_not_pending (cmd : str) (w : World) :
  fst (_has_command_exited cmd w) <> Pending.
Proof.
  unfold _has_command_exited.
  pose proof (all_nowait_not_pending (map strip (split cmd (py "&&")))) as Hp.
  destruct (all_nowait _) as [[|]|e|]; cbn; congruence.
Qed.

(** A turn gives a result or an exception, and a turn after which the loop
    goes on has taken 50 ms at least; it gives no answer only for bytes
    that the model does not cover. *)
Lemma read_pass_progress (cmd cm sm : option str) (wait : bool) (r : reader)
    (w : World) :
  match read_pass cmd cm sm wait r w with
  | (Return (b, _), w') => b = false -> (now w + 50 <= now w')%Z
  | (Raise _, _) => True
  | (Pending, _) => exists b, decode b = Beyond
  end.
Proof.
  assert (H : (polls cmd wait = true ->
               check_raises (match cmd with Some c => c | None => [] end) = false) ->
              match read_pass cmd cm sm wait r w with
              | (Return (b, _), w') => b = false -> (now w + 50 <= now w')%Z
              | (Raise _, _) => True
              | (Pending, _) => exists b, decode b = Beyond
              end).
  { intros Hsafe.
    destruct (read_pass_ends cmd cm sm wait r w Hsafe)
      as (o & w' & -> & [(b & r' & -> & Ht)|[(b & -> & Hb)|(b & -> & Hb)]]);
      [exact Ht | exact I | exists b; exact Hb]. }
  destruct (polls cmd wait) eqn:Ep; [|apply H; discriminate].
  destruct (check_raises (match cmd with Some c => c | None => [] end)) eqn:Er;
    [|apply H; reflexivity].
  unfold read_pass; fold (polls cmd wait); rewrite Ep.
  rewrite (bind_Raise _ _ _ _ _ (has_command_exited_raises _ w Er)); exact I.
Qed.

Lemma read_loop_pending (end_time : Z) (cmd cm sm : option str) (wait : bool) :
  forall (turns : nat) (r : reader) (w : World),
    (end_time - now w <= 50 * Z.of_nat turns)%Z ->
    fst (read_loop turns end_time cmd cm sm wait r w) = Pending ->
    exists b, decode b = Beyond.
Proof.
  induction turns as [|turns IH]; intros r w Hn; cbn [read_loop];
    unfold bind at 1, time_time;
    destruct (Z.ltb_spec (now w) end_time) as [Hlt|Hge];
    try (cbn; discriminate).
  - lia.
  - pose proof (read_pass_progress cmd cm sm wait r w) as Hp.
    unfold bind.
    destruct (read_pass cmd cm sm wait r w) as [[[b r1]|e|] w1];
      [|cbn; discriminate|intros _; exact Hp].
    cbn [fst snd]; destruct b; [cbn; discriminate|].
    apply IH; specialize (Hp eq_refl); lia.
Qed.

(** The reader is over within its turns, whatever the shell does, but for
    bytes that the model does not cover. *)
Lemma read_pending (cmd cm sm : option str) (wait : bool) (timeout : Z)
    (w : World) :
  fst (_read cmd cm sm wait timeout w) = Pending -> exists b, decode b = Beyond.
Proof.
  unfold _read.
  destruct (wait && _); [cbn; discriminate|].
  unfold bind at 1, time_time.
  pose proof (read_loop_pending (now w + timeout) cmd cm sm wait
                (turns_for timeout) reader0 w (turns_for_enough timeout (now w)))
    as Hloop.
  unfold bind at 1.
  destruct (read_loop _ _ _ _ _ _ _ _) as [[r1|e|] w1];
    [|cbn; discriminate|intros _; apply Hloop; reflexivity].
  rewrite read_finish_cases.
  destruct (returncode w1 (now w1)); [cbn; discriminate|].
  destruct (now w1 >=? now w + timeout)%Z; [cbn; discriminate|].
  unfold bind, ret, bytes_decode, lift.
  destruct (stdout_data r1).
  - destruct (stderr_data r1); [cbn; discriminate|].
    destruct (decode (buffer_stderr r1)) eqn:E; cbn; try discriminate; eauto.
  - destruct (decode (buffer_stdout r1)) eqn:E; cbn; try discriminate; eauto.
    destruct (stderr_data r1); [cbn; discriminate|].
    destruct (decode (buffer_stderr r1)) eqn:E'; cbn; try discriminate; eauto.
Qed.

(** So is [exec]. *)
Lemma exec_pending (_id : str) (hash : str -> Z) (cmd : str) (wait : bool)
    (w : World) :
  fst (exec _id hash cmd wait w) = Pending -> exists b, decode b = Beyond.
Proof.
  unfold exec.
  destruct (_is_interactive_command cmd); [cbn; discriminate|].
  unfold bind at 1, _write.
  destruct (stdin_open w); [|cbn; discriminate].
  set (w1 := emit _ w).
  pose proof (read_pending (Some (safe_cmd cmd))
                (Some (command_marker _id hash cmd))
                (Some (stderr_marker _id hash cmd)) wait default_timeout w1) as Hr.
  unfold bind at 1.
  destruct (_read _ _ _ _ _ w1) as [[res|e|] w2];
    [|cbn; discriminate|intros _; apply Hr; reflexivity].
  unfold bind, lift.
  destruct (extract_exit_code_shape (exit_marker hash cmd) (fst res)
              (exit_marker_nonempty hash cmd)) as (out & code & Hx & _).
  rewrite Hx; cbn; discriminate.
Qed.

End NeverPending.
(** ** The reader: what it takes and how it fails *)

Section ReaderMore.

Import HostShell Notions.

Lemma same_pipes_refl (w : World) : same_pipes w w.
Proof. repeat split. Qed.

Lemma same_pipes_trans (w1 w2 w3 : World) :
  same_pipes w1 w2 -> same_pipes w2 w3 -> same_pipes w1 w3.
Proof.
  intros (A1 & A2 & A3 & A4 & A5) (B1 & B2 & B3 & B4 & B5).
  repeat split; congruence.
Qed.

Lemma same_pipes_pending (w w' : World) (f : fd) :
  same_pipes w w' -> pending f w' = pending f w.
Proof.
  intros (H1 & H2 & _); unfold pending, pipe; destruct f; congruence.
Qed.

(** The completion check: the world after it, and the time it takes. *)
Lemma has_command_exited_world (cmd : str) (w : World) :
  same_pipes w (snd (_has_command_exited cmd w)) /\
  (now (snd (_has_command_exited cmd w)) <= now w + 300)%Z /\
  (fst (_has_command_exited cmd w) = Return false ->
   now (snd (_has_command_exited cmd w)) = now w).
Proof.
  unfold _has_command_exited.
  destruct (all_nowait _) as [[|]|e|]; cbn;
    (split; [repeat split|]); (split; [lia|]); congruence.
Qed.

Lemma select_select_world (w : World) :
  same_pipes w (snd (select_select w)) /\
  (now w <= now (snd (select_select w)) <= now w + 100)%Z /\
  log (snd (select_select w)) = log w /\
  exists fds, fst (select_select w) = Return fds.
Proof.
  unfold select_select; destruct (filter _ _);
    [|cbn; split; [repeat split|]; split; [lia|]; eauto].
  destruct (earliest _ _) as [t|];
    [|cbn; split; [repeat split|]; split; [lia|]; eauto].
  destruct (Z.ltb_spec (now w) t); cbn [andb];
    [|cbn; split; [repeat split|]; split; [lia|]; eauto].
  destruct (Z.leb_spec t (now w + 100)); cbn;
    (split; [repeat split|]); (split; [lia|]); eauto.
Qed.

(** *** Bytes in a pipe *)

Lemma skipn_app_le {A} (n : nat) (a b : list A) :
  length a <= n -> skipn n (a ++ b) = skipn (n - length a) b.
Proof.
  intros H; rewrite skipn_app, (skipn_all2 a) by exact H; reflexivity.
Qed.

Lemma skipn_app_gt {A} (n : nat) (a b : list A) :
  n <= length a -> skipn n (a ++ b) = skipn n a ++ b.
Proof.
  intros H; rewrite skipn_app.
  replace (n - length a) with 0 by lia; reflexivity.
Qed.

(** A pipe that was read holds the bytes behind those that were taken. *)
Lemma shorten_concat (p : list (Z * bytes)) :
  forall n, concat (map snd (shorten n p)) = skipn n (concat (map snd p)).
Proof.
  induction p as [|[t d] rest IH]; intros n; cbn [shorten map snd concat].
  - rewrite skipn_nil; reflexivity.
  - destruct (Nat.eqb_spec n 0) as [->|Hn]; [reflexivity|].
    destruct (Nat.leb_spec (length d) n) as [Hle|Hgt].
    + rewrite IH, skipn_app_le by exact Hle; reflexivity.
    + cbn [map snd concat]; rewrite skipn_app_gt by lia; reflexivity.
Qed.

(** The bytes that are there begin the bytes of the pipe. *)
Lemma arrived_prefix (t : Z) (p : list (Z * bytes)) :
  exists u, concat (map snd p) = arrived t p ++ u.
Proof.
  induction p as [|[t0 d] rest [u IH]]; cbn [arrived map snd concat].
  - exists []; reflexivity.
  - destruct (t0 <=? t)%Z.
    + exists u; rewrite IH, app_assoc; reflexivity.
    + exists (d ++ concat (map snd rest)); reflexivity.
Qed.

Lemma firstn_prefix {A} (k : nat) (a u : list A) :
  firstn k a ++ skipn (length (firstn k a)) (a ++ u) = a ++ u.
Proof.
  assert (Ha : a ++ u = firstn k a ++ (skipn k a ++ u))
    by (rewrite app_assoc, firstn_skipn; reflexivity).
  rewrite Ha, skipn_app_le by lia.
  rewrite Nat.sub_diag; reflexivity.
Qed.

(** One [os.read] moves bytes from the front of the pipe to the caller. *)
Lemma os_read_stream (g : fd) (w : World) :
  exists data w',
    os_read g w = (Return data, w') /\
    data = taken (now w) g w /\
    (forall f, (if match f, g with
                   | stdout, stdout | stderr, stderr => true
                   | _, _ => false
                   end then data else []) ++ pending f w' = pending f w) /\
    now w' = now w /\ returncode w' = returncode w /\ log w' = log w.
Proof.
  unfold os_read, taken; eexists _, _; split; [reflexivity|].
  split; [reflexivity|].
  split; [|destruct g; repeat split].
  intros f; unfold pending.
  destruct (arrived_prefix (now w) (pipe g w)) as [u Hu].
  destruct g, f; cbn [pipe set_pipe stdout_pipe stderr_pipe app] in *;
    try reflexivity;
    rewrite shorten_concat, Hu; apply firstn_prefix.
Qed.

(** Reading moves bytes from a pipe to its buffer and changes nothing
    else. *)
Lemma read_fd_stream (g : fd) (r : reader) (w : World) :
  exists r' w',
    read_fd g r w = (Return r', w') /\
    (forall f, buffer f r' ++ pending f w' = buffer f r ++ pending f w) /\
    stdout_data r' = stdout_data r /\ stderr_data r' = stderr_data r /\
    now w' = now w /\ returncode w' = returncode w /\ log w' = log w.
Proof.
  unfold read_fd.
  destruct (match g with stdout => status_stdout r | stderr => status_stderr r end).
  { exists r, w; repeat split; reflexivity. }
  destruct (os_read_stream g w) as (data & w' & Hr & _ & Hp & Hn & Hc & Hl).
  rewrite (bind_Return _ _ _ _ _ Hr).
  destruct data as [|c data].
  - exists r, w'; split; [reflexivity|].
    split; [|repeat split; assumption].
    intros f; rewrite <- (Hp f); destruct f, g; reflexivity.
  - eexists _, w'; split; [reflexivity|].
    split; [|destruct g; repeat split; assumption].
    intros f; rewrite <- (Hp f).
    destruct f, g; cbn [buffer buffer_stdout buffer_stderr];
      rewrite <- ?app_assoc; reflexivity.
Qed.

Lemma read_fds_stream (fds : list fd) :
  forall (r : reader) (w : World),
  exists r' w',
    read_fds fds r w = (Return r', w') /\
    (forall f, buffer f r' ++ pending f w' = buffer f r ++ pending f w) /\
    stdout_data r' = stdout_data r /\ stderr_data r' = stderr_data r /\
    now w' = now w /\ returncode w' = returncode w /\ log w' = log w.
Proof.
  induction fds as [|g fds IH]; intros r w; cbn [read_fds].
  - exists r, w; repeat split; reflexivity.
  - destruct (read_fd_stream g r w) as (r1 & w1 & H1 & S1 & D1 & E1 & T1 & C1 & L1).
    destruct (IH r1 w1) as (r2 & w2 & H2 & S2 & D2 & E2 & T2 & C2 & L2).
    exists r2, w2; rewrite (bind_Return _ _ _ _ _ H1).
    split; [exact H2|]; split; [intros f; rewrite S2; apply S1|].
    repeat split; congruence.
Qed.

Lemma cut_at_prefix (marker : option str) (data : str) :
  missing marker data = false -> exists t, data = cut_at marker data ++ t.
Proof.
  destruct marker as [[|c m]|]; cbn [cut_at missing].
  - intros _; exists []; symmetry; apply app_nil_r.
  - intros H; apply cut_prefix.
    destruct (contains (c :: m) data); [reflexivity | discriminate].
  - intros _; exists []; symmetry; apply app_nil_r.
Qed.

Lemma check_markers_data (cm sm : option str) (r : reader) (out err : str) :
  decode (buffer_stdout r) = Decoded out ->
  decode (buffer_stderr r) = Decoded err ->
  data_from_buffers (snd (check_markers cm sm r out err)) /\
  (forall f, buffer f (snd (check_markers cm sm r out err)) = buffer f r).
Proof.
  intros Do De; unfold check_markers, data_from_buffers.
  destruct (missing cm out) eqn:Eo; destruct (missing sm err) eqn:Ee; cbn;
    (split; [split; intros d H; injection H as <-|intros []; reflexivity]);
    try (exists []; rewrite app_nil_r; assumption).
  - destruct (cut_at_prefix cm _ Eo) as [t Ht]; exists t; rewrite <- Ht; exact Do.
  - destruct (cut_at_prefix sm _ Ee) as [t Ht]; exists t; rewrite <- Ht; exact De.
Qed.

(** The reads and the marker checks of a turn. *)
Lemma read_and_check_world (cm sm : option str) (fds : list fd) (r : reader)
    (w w' : World) (o : outcome (bool * reader)) :
  (r' <- read_fds fds r ;;
   out <- bytes_decode (buffer_stdout r') ;;
   err <- bytes_decode (buffer_stderr r') ;;
   ret (check_markers cm sm r' out err)) w = (o, w') ->
  now w' = now w /\ returncode w' = returncode w /\ log w' = log w /\
  match o with
  | Return (_, r') =>
      (forall f, buffer f r' ++ pending f w' = buffer f r ++ pending f w) /\
      data_from_buffers r'
  | Raise e =>
      exists b, e = UnicodeDecodeError b /\ decode b = Malformed /\
                read_so_far b r w w'
  | Pending => exists b, decode b = Beyond
  end.
Proof.
  destruct (read_fds_stream fds r w) as (r1 & w1 & H1 & S1 & _ & _ & T1 & C1 & L1).
  rewrite (bind_Return _ _ _ _ _ H1).
  unfold bind, bytes_decode, lift, ret.
  destruct (decode (buffer_stdout r1)) as [out| |] eqn:Eo.
  - destruct (decode (buffer_stderr r1)) as [err| |] eqn:Ee.
    + intros H; injection H as <- <-; repeat split; try assumption.
      destruct (check_markers_data cm sm r1 out err Eo Ee) as [Hd Hb].
      destruct (check_markers cm sm r1 out err) as [b r2]; cbn [snd] in *.
      split; [intros f; rewrite Hb; apply S1 | exact Hd].
    + intros H; injection H as <- <-; repeat split; try assumption.
      exists (buffer_stderr r1); repeat split; [exact Ee|].
      exists stderr; exact (S1 stderr).
    + intros H; injection H as <- <-; repeat split; try assumption.
      exists (buffer_stderr r1); exact Ee.
  - intros H; injection H as <- <-; repeat split; try assumption.
    exists (buffer_stdout r1); repeat split; [exact Eo|].
    exists stdout; exact (S1 stdout).
  - intros H; injection H as <- <-; repeat split; try assumption.
    exists (buffer_stdout r1); exact Eo.
Qed.

(** A turn of the loop: the time it takes, what it keeps, and how
    it fails. *)
Lemma read_pass_world (cmd cm sm : option str) (wait : bool) (r : reader)
    (w w' : World) (o : outcome (bool * reader)) :
  read_pass cmd cm sm wait r w = (o, w') ->
  (now w' <= now w + 500)%Z /\
  match o with
  | Return (_, r') => turn_ok r w r' w'
  | Raise e =>
      (e = IndexError msg_index /\ polls cmd wait = true /\
       check_raises (match cmd with Some c => c | None => [] end) = true /\
       w' = w)
      \/ (exists b, e = UnicodeDecodeError b /\ decode b = Malformed /\
                    read_so_far b r w w' /\ returncode w' = returncode w)
  | Pending => exists b, decode b = Beyond
  end.
Proof.
  unfold read_pass; fold (polls cmd wait).
  set (c := match cmd with Some c => c | None => [] end).
  assert (Hex : exists o1 w1,
             (if polls cmd wait then _has_command_exited c else ret true) w
             = (o1, w1) /\ same_pipes w w1 /\ (now w1 <= now w + 300)%Z /\
             (o1 = Return false -> now w1 = now w) /\ (now w <= now w1)%Z /\
             match o1 with
             | Return _ => True
             | Raise e => e = IndexError msg_index /\ polls cmd wait = true /\
                          check_raises c = true /\ w1 = w
             | Pending => False
             end).
  { destruct (polls cmd wait) eqn:Ep.
    - destruct (has_command_exited_world c w) as (Hs & Ht & Hf).
      destruct (_has_command_exited c w) as [o1 w1] eqn:E; cbn [fst snd] in *.
      exists o1, w1; split; [reflexivity|]; split; [exact Hs|].
      split; [exact Ht|]; split; [exact Hf|].
      split; [exact (now_after _ _ _ _ (steady_has_command_exited c) E)|].
      destruct o1 as [b|e|]; [exact I| |].
      + destruct (check_raises c) eqn:Er.
        * rewrite (has_command_exited_raises c w Er) in E.
          injection E as <- <-; auto.
        * destruct (has_command_exited_returns c w Er) as (b & w2 & H).
          congruence.
      + apply (has_command_exited_not_pending c w); rewrite E; reflexivity.
    - exists (Return true), w; split; [reflexivity|].
      split; [apply same_pipes_refl|]; repeat split; try lia; congruence. }
  destruct Hex as (o1 & w1 & Hex & Hs1 & Ht1 & Hf1 & Hm1 & Ho).
  unfold bind at 1; rewrite Hex.
  destruct o1 as [exited|e|];
    [|intros H; injection H as <- <-; split; [lia | left; exact Ho]|destruct Ho].
  destruct exited; cbn [negb].
  - destruct (select_select_world w1) as (Hs2 & Ht2 & _ & fds & Hsel).
    destruct (select_select w1) as [o2 w2] eqn:E2; cbn [fst snd] in *; subst o2.
    unfold bind at 1; rewrite E2.
    assert (Hw2 : forall f, pending f w2 = pending f w).
    { intros f; rewrite (same_pipes_pending w1 w2 f Hs2).
      apply (same_pipes_pending w w1 f Hs1). }
    assert (Hc2 : returncode w2 = returncode w).
    { destruct Hs1 as (_ & _ & R1 & _); destruct Hs2 as (_ & _ & R2 & _).
      congruence. }
    unfold bind at 1.
    destruct (match fds with
              | [] => ret (false, r)
              | _ => r' <- read_fds fds r ;;
                     out <- bytes_decode (buffer_stdout r') ;;
                     err <- bytes_decode (buffer_stderr r') ;;
                     ret (check_markers cm sm r' out err)
              end w2) as [o3 w3] eqn:E3.
    assert (Hbr : now w3 = now w2 /\ returncode w3 = returncode w2 /\
                  match o3 with
                  | Return (_, r3) =>
                      (forall f, buffer f r3 ++ pending f w3
                                 = buffer f r ++ pending f w2) /\
                      (data_from_buffers r -> data_from_buffers r3)
                  | Raise e =>
                      exists b, e = UnicodeDecodeError b /\ decode b = Malformed /\
                                read_so_far b r w2 w3
                  | Pending => exists b, decode b = Beyond
                  end).
    { destruct fds as [|g fds].
      - injection E3 as <- <-.
        split; [reflexivity|]; split; [reflexivity|]; split; [reflexivity | tauto].
      - destruct (read_and_check_world _ _ _ _ _ _ _ E3) as (T3 & C3 & _ & H3).
        split; [exact T3|]; split; [exact C3|].
        destruct o3 as [[b r3]|e|]; [|exact H3|exact H3].
        destruct H3 as [S3 D3]; split; [exact S3 | intros _; exact D3]. }
    destruct Hbr as (T3 & C3 & H3).
    destruct o3 as [[b r3]|e|]; cbn [fst snd].
    + destruct H3 as [S3 D3].
      assert (Hok : turn_ok r w r3 w3).
      { split; [|split; [exact D3 | congruence]].
        intros f; rewrite S3, Hw2; reflexivity. }
      destruct b; [intros H; injection H as <- <-; split; [lia | exact Hok]|].
      destruct (truthy cmd); cbn [negb].
      * intros H; cbn in H; injection H as <- <-; cbn; split; [lia|].
        destruct Hok as (S & D & C); split; [exact S|]; split; [exact D | exact C].
      * intros H; injection H as <- <-; split; [lia | exact Hok].
    + intros H; injection H as <- <-; split; [lia|]; right.
      destruct H3 as (b & -> & Hb & f & Hf).
      exists b; repeat split; [exact Hb| |congruence].
      exists f; rewrite Hf, Hw2; reflexivity.
    + intros H; injection H as <- <-; split; [lia | exact H3].
  - specialize (Hf1 eq_refl); intros H; cbn in H; injection H as <- <-.
    assert (P : forall f, buffer f r ++ pending f w1 = buffer f r ++ pending f w).
    { intros f; rewrite (same_pipes_pending w w1 f Hs1); reflexivity. }
    split; [cbn; lia|].
    split; [exact P|].
    split; [tauto|]; destruct Hs1 as (_ & _ & R1 & _); exact R1.
Qed.

(** The loop: bytes only move from the pipes to the buffers, the texts of
    the reader begin its buffers decoded, and a failure is the IndexError
    of the completion check or the UnicodeDecodeError for what was read so
    far from a stream. *)
Lemma read_loop_world (end_time : Z) (cmd cm sm : option str) (wait : bool) :
  forall (turns : nat) (r : reader) (w w' : World) (o : outcome reader),
    read_loop turns end_time cmd cm sm wait r w = (o, w') ->
    (now w' < Z.max (now w + 1) (end_time + 500))%Z /\
    match o with
    | Return r' => turn_ok r w r' w'
    | Raise e =>
        (e = IndexError msg_index /\ polls cmd wait = true /\
         check_raises (match cmd with Some c => c | None => [] end) = true)
        \/ (exists b, e = UnicodeDecodeError b /\ decode b = Malformed /\
                      read_so_far b r w w' /\ returncode w' = returncode w)
    | Pending => True
    end.
Proof.
  induction turns as [|turns IH]; intros r w w' o; cbn [read_loop];
    unfold bind at 1, time_time;
    destruct (Z.ltb_spec (now w) end_time) as [Hlt|Hge]; cbn beta;
    try (intros H; injection H as <- <-; split; [lia|];
         first [exact I | split; [reflexivity | split; [tauto | reflexivity]]]).
  destruct (read_pass cmd cm sm wait r w) as [o1 w1] eqn:Ep.
  destruct (read_pass_world _ _ _ _ _ _ _ _ Ep) as [Ht Hp].
  unfold bind; rewrite Ep.
  destruct o1 as [[b r1]|e|]; cbn [fst snd].
  - destruct b; [intros H; injection H as <- <-; split; [lia | exact Hp]|].
    intros H; destruct (IH _ _ _ _ H) as [Ht' Hl].
    split; [lia|].
    destruct Hp as (S1 & D1 & C1).
    destruct o as [r2|e|]; [| |exact I].
    + destruct Hl as (S2 & D2 & C2).
      split; [intros f; rewrite S2; apply S1|]; split; [tauto | congruence].
    + destruct Hl as [Hl|(b & -> & Hb & (f & Hf) & Hc)]; [left; exact Hl|].
      right; exists b; repeat split; [exact Hb| |congruence].
      exists f; rewrite Hf; apply S1.
  - intros H; injection H as <- <-; split; [lia|].
    destruct Hp as [Hp|Hp]; [left; tauto | right; exact Hp].
  - intros H; injection H as <- <-; split; [lia | exact I].
Qed.

End ReaderMore.
(** ** Failures of the reader *)

Section ReaderClaims.

Import HostShell Notions.




End ReaderClaims.

(** ** The remote session *)

Section RemoteClaims.

Import SSHShell.

Lemma endswith_iff (s p : str) : endswith s p = true <-> exists t, s = t ++ p.
Proof.
  unfold endswith; rewrite startswith_iff; split.
  - intros [t Ht]; exists (rev t).
    rewrite <- (rev_involutive s), Ht, rev_app_distr, rev_involutive; reflexivity.
  - intros [t ->]; exists (rev t); apply rev_app_distr.
Qed.

Lemma no_line_ends_with_iff (cmd listing : str) :
  no_line_ends_with cmd listing = true <->
  forall line, In line (split listing newline) ->
               ~ exists t, rstrip (lstrip line) = t ++ cmd.
Proof.
  unfold no_line_ends_with; rewrite forallb_forall.
  split; intros H line Hl.
  - rewrite <- endswith_iff; specialize (H line Hl).
    destruct (endswith _ cmd); [discriminate | congruence].
  - specialize (H line Hl); rewrite <- endswith_iff in H.
    destruct (endswith _ cmd); [congruence | reflexivity].
Qed.

(** The loop asks for a listing, sleeps 300 ms when the listing shows the
    clause, and returns at the first listing that does not. *)
Lemma wait_loop_polls (cmd : str) (ready : list str) (free : str) (later : list str) :
  no_line_ends_with cmd free = true ->
  forall (seen : list str) (turns : nat) (lg : list event),
    length seen < turns -> Forall (busy cmd) seen ->
    wait_loop turns cmd (mkWorld ready (seen ++ free :: later) lg)
    = (Return tt, mkWorld ready later (lg ++ polling seen)).
Proof.
  intros Hfree; induction seen as [|l seen IH]; intros turns lg Ht Hb;
    (destruct turns as [|turns]; [simpl in Ht; lia|]); cbn [wait_loop].
  - unfold bind, exec_command; cbn; rewrite Hfree; reflexivity.
  - inversion Hb as [|? ? Hl Hs]; subst.
    unfold bind at 1, exec_command; cbn [listings app inbox log].
    rewrite Hl.
    unfold bind, time_sleep, emit; cbn [listings inbox log].
    rewrite IH; [|simpl in Ht; lia | exact Hs].
    unfold polling, ps_command; cbn [flat_map app].
    repeat rewrite <- app_assoc; reflexivity.
Qed.

(** While every listing shows the clause the loop does not return. *)
Lemma wait_loop_pending (cmd : str) (ready : list str) :
  forall (seen : list str) (turns : nat) (lg : list event),
    Forall (busy cmd) seen ->
    exists w', wait_loop turns cmd (mkWorld ready seen lg) = (Pending, w').
Proof.
  induction seen as [|l seen IH]; intros turns lg Hb;
    (destruct turns as [|turns]; [eexists; reflexivity|]); cbn [wait_loop].
  - eexists; reflexivity.
  - inversion Hb as [|? ? Hl Hs]; subst.
    unfold bind at 1, exec_command; cbn [listings app inbox log].
    rewrite Hl.
    unfold bind, time_sleep, emit; cbn [listings inbox log].
    apply IH; exact Hs.
Qed.

(** C9, as the code has it.  A clause whose first word, up to the first
    space, is a no-wait command, and also a clause of one word, is not
    polled: the wait is a sleep of 300 ms.  Every other clause is polled:
    the process listing is asked for on the side channel again and again,
    300 ms apart, until a listing has no line that ends with the clause;
    while the listings show the clause the wait goes on. *)
Theorem wait_polls_long_clauses (cmd first : str) (rest : list str) :
  split cmd (py " ") = first :: rest ->
  (in_tuple first _NOWAIT_CMDS = true \/ rest = [] ->
   forall w, _wait cmd w = (Return tt, emit (EvSleep 300) w)) /\
  (in_tuple first _NOWAIT_CMDS = false -> rest <> [] ->
   (forall ready seen free later lg,
      Forall (busy cmd) seen -> no_line_ends_with cmd free = true ->
      _wait cmd (mkWorld ready (seen ++ free :: later) lg)
      = (Return tt, mkWorld ready later (lg ++ polling seen))) /\
   (forall ready seen lg,
      Forall (busy cmd) seen ->
      exists w', _wait cmd (mkWorld ready seen lg) = (Pending, w'))) /\
  (forall listing,
     no_line_ends_with cmd listing = true <->
     forall line, In line (split listing newline) ->
                  ~ exists t, rstrip (lstrip line) = t ++ cmd).
Proof.
  intros Hsplit; split; [|split].
  - intros H w; unfold _wait; rewrite Hsplit.
    destruct H as [->| ->]; [reflexivity|].
    rewrite orb_true_r; reflexivity.
  - intros Hn Hrest; unfold _wait; rewrite Hsplit, Hn.
    destruct rest as [|x rest]; [congruence|]; cbn [length Nat.eqb orb].
    split.
    + intros ready seen free later lg Hb Hfree.
      apply wait_loop_polls; [exact Hfree | | exact Hb].
      cbn [listings]; rewrite length_app; simpl; lia.
    + intros ready seen lg Hb; apply wait_loop_pending; exact Hb.
  - intros listing; apply no_line_ends_with_iff.
Qed.

Lemma wait_polls_long_clauses_witness :
  split (py "make all") (py " ") = [py "make"; py "all"] /\
  _wait (py "cd /tmp") (Demo.remote [])
  = (Return tt, emit (EvSleep 300) (Demo.remote [])) /\
  _wait (py "make all") (Demo.remote [])
  = (Return tt,
     mkWorld [] [] [EvExecCommand ps_command; EvSleep 300; EvExecCommand ps_command]).
Proof.
  assert (H : split (py "make all") (py " ") = [py "make"; py "all"]) by reflexivity.
  split; [exact H|]; split; [reflexivity|].
  destruct (wait_polls_long_clauses (py "make all") (py "make") [py "all"] H)
    as (_ & Hpoll & _).
  destruct (Hpoll eq_refl ltac:(discriminate)) as [Hret _].
  apply (Hret [] [Demo.remote_listing true] (Demo.remote_listing false) [] []).
  - constructor; [reflexivity | constructor].
  - reflexivity.
Defined.

(** C9 as stated fails: a clause of one word that is no no-wait command,
    such as [make], is not polled either, even while the remote side
    shows it running. *)
Lemma wait_skips_single_word :
  let w := mkWorld [] [py "COMMAND" ++ newline ++ py "make" ++ newline] [] in
  in_tuple (py "make") _NOWAIT_CMDS = false /\
  busy (py "make") (py "COMMAND" ++ newline ++ py "make" ++ newline) /\
  _wait (py "make") w = (Return tt, emit (EvSleep 300) w).
Proof. repeat split. Qed.

(** What a decoded response gives as exit status. *)
Lemma status_item (response : str) :
  (if (length (split response newline) =? 1)%nat
   then item (split response newline) 0
   else item (split response newline) 1)
  = Some (status_line response).
Proof.
  unfold status_line.
  pose proof (split_nonempty response newline ltac:(discriminate)) as Hne.
  destruct (split response newline) as [|a [|b l]]; [congruence | |]; reflexivity.
Qed.

(** [_exit_status] sends [echo $?], reads what the channel has ready,
    without its escape sequences, decodes it and takes the code from
    [status_line]; it raises when the bytes do not decode. *)
Lemma exit_status_outcome (w : World) :
  _exit_status w
  = (match decode (strip_escapes 0 (hd [] (inbox w))) with
     | Decoded response => Return (status_code response)
     | Malformed => Return 1%Z
     | Beyond => Pending
     end,
     mkWorld (tl (inbox w)) (listings w)
             (log w ++ [EvSend (py "echo $?" ++ newline); EvSleep 50])).
Proof.
  set (w1 := mkWorld (inbox w) (listings w)
               ((log w ++ [EvSend (py "echo $?" ++ newline)]) ++ [EvSleep 50])).
  assert (Hsend : _send (py "echo $?") None w = (Return tt, w1)) by reflexivity.
  assert (Hlog : log w1 = log w ++ [EvSend (py "echo $?" ++ newline); EvSleep 50]).
  { unfold w1; cbn [log]; rewrite <- app_assoc; reflexivity. }
  assert (Hdrain : channel_drain w1
                   = (Return (hd [] (inbox w)),
                      mkWorld (tl (inbox w)) (listings w) (log w1))).
  { unfold channel_drain, w1; cbn [inbox listings log].
    destruct (inbox w); reflexivity. }
  unfold _exit_status.
  rewrite (bind_Return _ _ _ _ _ Hsend).
  unfold except_ValueError, _read; unfold bind at 1; unfold bind at 1.
  rewrite Hdrain, Hlog.
  unfold bytes_decode, lift.
  destruct (decode (strip_escapes 0 (hd [] (inbox w)))) as [response| |];
    [|reflexivity|reflexivity].
  cbn zeta; rewrite status_item; unfold status_code.
  destruct (int _); reflexivity.
Qed.

(** C4, as the code has it.  A local [exec] that returns gives a number
    as exit code.  A remote [exec], once its clauses are sent, sends the
    status query [echo $?] and decodes what the channel then has ready;
    it gives as exit code the text of a number: the number read on the
    second line of that response (the only line when there is one), or 1
    when that line is no number, and 1 as well when the response is no
    well-formed UTF-8, the UnicodeDecodeError being a ValueError, which
    [_exit_status] catches. *)
Theorem exec_exit_code :
  (forall _id hash cmd wait w r w',
     HostShell.exec _id hash cmd wait w = (Return r, w') ->
     exists n, EXIT_CODE r = VInt n) /\
  (forall cmd wait w output w1,
     exec_clauses (split cmd (py " && ")) wait [] w = (Return output, w1) ->
     exec cmd wait w
     = (match decode (strip_escapes 0 (hd [] (inbox w1))) with
        | Decoded response =>
            Return (mkResult output []
                      (VStr (str_of_int (status_code response))))
        | Malformed => Return (mkResult output [] (VStr (py "1")))
        | Beyond => Pending
        end,
        mkWorld (tl (inbox w1)) (listings w1)
                (log w1 ++ [EvSend (py "echo $?" ++ newline); EvSleep 50]))) /\
  (forall response,
     status_line response
     = (if (length (split response newline) =? 1)%nat
        then nth 0 (split response newline) []
        else nth 1 (split response newline) []) /\
     status_code response
     = match int (rstrip (lstrip (status_line response))) with
       | Some code => code
       | None => 1%Z
       end).
Proof.
  split; [|split].
  - intros _id hash cmd wait w r w' H.
    destruct (HostShell._is_interactive_command cmd) eqn:Eg.
    { unfold HostShell.exec in H; rewrite Eg in H; discriminate. }
    rewrite (exec_unfold _ _ _ _ Eg) in H.
    apply bind_Return_inv in H as (u & w1 & _ & H).
    apply bind_Return_inv in H as (res & w2 & _ & H).
    apply bind_Return_inv in H as (oc & w3 & _ & H).
    injection H as <- _; eexists; reflexivity.
  - intros cmd wait w output w1 H; unfold exec.
    rewrite (bind_Return _ _ _ _ _ H).
    unfold bind at 1; rewrite (exit_status_outcome w1).
    destruct (decode _); reflexivity.
  - intros response; split; reflexivity.
Qed.

(** C4 as stated fails for the remote session: the exit code comes back
    as text, and it is read from the second line of the response, which
    here is the echo of the query and gives 1, where the last line that is
    not empty gives 0. *)
Lemma remote_exit_code_is_text :
  let late := py "done" ++ [CR; LF] ++ py "echo $?" ++ [CR; LF] ++ py "0" ++ [CR; LF] in
  let w := mkWorld [py "true" ++ [CR; LF]; late] [] [] in
  (exists w', exec (py "true") true w = (Return (mkResult [] [] (VStr (py "1"))), w')) /\
  status_code late = 1%Z /\
  Spec.exit_status late = 0%Z.
Proof.
  cbn zeta; split; [eexists; vm_compute; reflexivity|].
  split; vm_compute; reflexivity.
Qed.

End RemoteClaims.

(** * Further properties *)

(** ** The reader: what it returns, its deadline, how [exec] fails *)

Section ReaderProperties.

Import HostShell Notions.

(** What the end of a read returns begins what its buffers decode to. *)
Lemma read_finish_prefix (end_time : Z) (r : reader) (w w' : World)
    (out err : str) :
  data_from_buffers r ->
  read_finish end_time r w = (Return (out, err), w') ->
  w' = w /\ (now w < end_time)%Z /\
  (exists t, decode (buffer_stdout r) = Decoded (out ++ t)) /\
  (exists t, decode (buffer_stderr r) = Decoded (err ++ t)).
Proof.
  intros [Do De] H; rewrite read_finish_cases in H.
  destruct (returncode w (now w)); [discriminate|].
  destruct (Z.geb_spec (now w) end_time); [discriminate|].
  apply bind_Return_inv in H as (o & w1 & Ho & H).
  apply bind_Return_inv in H as (e & w2 & He & H).
  injection H as <- <- <-.
  assert (Ho' : w1 = w /\ exists t, decode (buffer_stdout r) = Decoded (o ++ t)).
  { destruct (stdout_data r) as [d|].
    - injection Ho as <- <-; split; [reflexivity | exact (Do d eq_refl)].
    - apply bytes_decode_Return in Ho as [Ho ->]; split; [reflexivity|].
      exists []; rewrite app_nil_r; exact Ho. }
  destruct Ho' as [-> Ho'].
  assert (He' : w2 = w /\ exists t, decode (buffer_stderr r) = Decoded (e ++ t)).
  { destruct (stderr_data r) as [d|].
    - injection He as <- <-; split; [reflexivity | exact (De d eq_refl)].
    - apply bytes_decode_Return in He as [He ->]; split; [reflexivity|].
      exists []; rewrite app_nil_r; exact He. }
  destruct He' as [-> He']; repeat split; [lia | exact Ho' | exact He'].
Qed.

Lemma data_from_reader0 : data_from_buffers reader0.
Proof. split; intros d H; discriminate. Qed.

(** X3.  The reader returns only what the shell wrote, in the order it
    wrote it: on each stream, the bytes that were in the pipe are those
    that the reader took followed by those that are still there, and the
    text returned begins the text that the bytes taken decode to. *)
Theorem read_returns_prefix (cmd cm sm : option str) (wait : bool) (timeout : Z)
    (w w' : World) (out err : str) :
  _read cmd cm sm wait timeout w = (Return (out, err), w') ->
  exists taken_out taken_err,
    pending stdout w = taken_out ++ pending stdout w' /\
    pending stderr w = taken_err ++ pending stderr w' /\
    (exists t, decode taken_out = Decoded (out ++ t)) /\
    (exists t, decode taken_err = Decoded (err ++ t)).
Proof.
  intros H.
  destruct (wait && (match cmd with None => true | Some _ => false end)) eqn:Eg.
  { unfold _read in H; rewrite Eg in H; discriminate. }
  rewrite (read_unfold _ _ _ _ _ _ Eg) in H.
  destruct (read_loop _ _ _ _ _ _ _ _) as [[r|e|] w1] eqn:El; try discriminate.
  destruct (read_loop_world _ _ _ _ _ _ _ _ _ _ El) as (_ & S & D & _).
  destruct (read_finish_prefix _ _ _ _ _ _ (D data_from_reader0) H)
    as (-> & _ & Ho & He).
  exists (buffer_stdout r), (buffer_stderr r).
  split; [symmetry; exact (S stdout)|]; split; [symmetry; exact (S stderr)|].
  split; assumption.
Qed.

Lemma read_returns_prefix_witness :
  let cmd := py "echo hi" in
  let w := Demo.answering cmd (py "hi" ++ [LF]) [] 0 in
  exists w',
    _read (Some cmd) (Some (command_marker Demo.session Demo.hash cmd))
          (Some (stderr_marker Demo.session Demo.hash cmd)) true 1000 w
    = (Return (py "hi" ++ [LF] ++ exit_marker Demo.hash cmd ++ py " 0" ++ [LF], []), w') /\
    exists taken_out taken_err,
      pending stdout w = taken_out ++ pending stdout w' /\
      pending stderr w = taken_err ++ pending stderr w' /\
      (exists t, decode taken_out
                 = Decoded ((py "hi" ++ [LF] ++ exit_marker Demo.hash cmd
                             ++ py " 0" ++ [LF]) ++ t)) /\
      (exists t, decode taken_err = Decoded ([] ++ t)).
Proof.
  cbn zeta.
  destruct (_read (Some (py "echo hi"))
              (Some (command_marker Demo.session Demo.hash (py "echo hi")))
              (Some (stderr_marker Demo.session Demo.hash (py "echo hi"))) true 1000
              (Demo.answering (py "echo hi") (py "hi" ++ [LF]) [] 0))
    as [o w'] eqn:E.
  assert (Ho : o = Return (py "hi" ++ [LF] ++ exit_marker Demo.hash (py "echo hi")
                           ++ py " 0" ++ [LF], [])).
  { apply (f_equal fst) in E; cbn [fst] in E; rewrite <- E.
    vm_compute; reflexivity. }
  subst o; exists w'; split; [reflexivity|].
  exact (read_returns_prefix _ _ _ _ _ _ _ _ _ E).
Defined.

(** X2.  The deadline of a read.  A read returns only when its deadline
    has not passed at the check behind its loop, and it raises the
    TimeoutError only when the deadline has passed.  With a timeout that
    is not positive the loop is not entered: a read whose arguments pass
    the check at its head takes nothing from the pipes, does not sleep
    and raises, the RuntimeError when the shell has ended and the
    TimeoutError otherwise, so that it never returns. *)
Theorem read_deadline (cmd cm sm : option str) (wait : bool) (timeout : Z)
    (w : World) :
  let res := _read cmd cm sm wait timeout w in
  (forall data, fst res = Return data -> (now (snd res) < now w + timeout)%Z) /\
  (forall msg, fst res = Raise (TimeoutError msg) ->
               (now w + timeout <= now (snd res))%Z) /\
  ((timeout <= 0)%Z ->
   wait && (match cmd with None => true | Some _ => false end) = false ->
   res = (match returncode w (now w) with
          | Some _ => Raise (RuntimeError (msg_exited reader0))
          | None => Raise (TimeoutError (msg_timeout reader0))
          end, w)).
Proof.
  cbn zeta; split; [|split].
  - intros [out err] H.
    destruct (_read cmd cm sm wait timeout w) as [o w'] eqn:E; cbn [fst snd] in *.
    subst o.
    destruct (wait && (match cmd with None => true | Some _ => false end)) eqn:Eg.
    { unfold _read in E; rewrite Eg in E; discriminate. }
    rewrite (read_unfold _ _ _ _ _ _ Eg) in E.
    destruct (read_loop _ _ _ _ _ _ _ _) as [[r|e|] w1] eqn:El; try discriminate.
    destruct (read_loop_world _ _ _ _ _ _ _ _ _ _ El) as (_ & _ & D & _).
    destruct (read_finish_prefix _ _ _ _ _ _ (D data_from_reader0) E)
      as (-> & Ht & _); exact Ht.
  - intros msg H.
    destruct (_read cmd cm sm wait timeout w) as [o w'] eqn:E; cbn [fst snd] in *.
    subst o.
    destruct (wait && (match cmd with None => true | Some _ => false end)) eqn:Eg.
    { unfold _read in E; rewrite Eg in E; discriminate. }
    rewrite (read_unfold _ _ _ _ _ _ Eg) in E.
    destruct (read_loop _ _ _ _ _ _ _ _) as [[r|e|] w1] eqn:El.
    + rewrite read_finish_cases in E.
      destruct (returncode w1 (now w1)); [discriminate|].
      destruct (Z.geb_spec (now w1) (now w + timeout)).
      * injection E as _ <-; lia.
      * unfold bind, ret, bytes_decode, lift in E.
        destruct (stdout_data r); destruct (stderr_data r);
          repeat (match type of E with
                  | context [decode ?b] => destruct (decode b)
                  end); discriminate.
    + injection E as -> <-.
      destruct (read_loop_world _ _ _ _ _ _ _ _ _ _ El)
        as (_ & [(He & _)|(b & He & _)]); discriminate.
    + discriminate.
  - intros Ht Eg; rewrite (read_unfold _ _ _ _ _ _ Eg).
    unfold turns_for; cbn [read_loop]; unfold bind at 1, time_time.
    replace (now w <? now w + timeout)%Z with false
      by (symmetry; apply Z.ltb_ge; lia).
    cbn [ret]; rewrite read_finish_cases.
    destruct (returncode w (now w)); [reflexivity|].
    replace (now w >=? now w + timeout)%Z with true; [reflexivity|].
    symmetry; rewrite Z.geb_leb; apply Z.leb_le; lia.
Qed.

(** How the reader fails. *)
Lemma read_raise (cmd cm sm : option str) (wait : bool) (timeout : Z)
    (w w' : World) (e : exn) :
  _read cmd cm sm wait timeout w = (Raise e, w') ->
  (wait = true /\ cmd = None /\
   e = ValueError [Text (py "`cmd` cannot be `None` when `wait` is set to `True`")])
  \/ (e = IndexError msg_index /\ polls cmd wait = true /\
      check_raises (match cmd with Some c => c | None => [] end) = true)
  \/ (exists b f, e = UnicodeDecodeError b /\ decode b = Malformed /\
                  b ++ pending f w' = pending f w)
  \/ (exists r, e = RuntimeError (msg_exited r) /\ returncode w' (now w') <> None)
  \/ (exists r, e = TimeoutError (msg_timeout r) /\ (now w + timeout <= now w')%Z).
Proof.
  intros H.
  destruct (wait && (match cmd with None => true | Some _ => false end)) eqn:Eg.
  { unfold _read in H; rewrite Eg in H; injection H as <- _.
    left; destruct wait; [|discriminate]; destruct cmd; [discriminate | auto]. }
  rewrite (read_unfold _ _ _ _ _ _ Eg) in H.
  destruct (read_loop _ _ _ _ _ _ _ _) as [o w1] eqn:El.
  destruct (read_loop_world _ _ _ _ _ _ _ _ _ _ El) as (_ & Ho).
  destruct o as [r|e1|]; [| |discriminate].
  - rewrite read_finish_cases in H.
    destruct (returncode w1 (now w1)) as [code|] eqn:Ec.
    + injection H as <- <-; right; right; right; left; exists r; split; [reflexivity|].
      congruence.
    + destruct (Z.geb_spec (now w1) (now w + timeout)).
      * injection H as <- <-; right; right; right; right; exists r; auto.
      * right; right; left.
        destruct Ho as (S & _).
        unfold bind, ret, bytes_decode, lift in H.
        destruct (stdout_data r) as [d|].
        -- destruct (stderr_data r) as [d'|]; [discriminate|].
           destruct (decode (buffer_stderr r)) eqn:E; try discriminate.
           injection H as <- <-; exists (buffer_stderr r), stderr.
           repeat split; [exact E | exact (S stderr)].
        -- destruct (decode (buffer_stdout r)) eqn:E; try discriminate.
           ++ destruct (stderr_data r) as [d'|]; [discriminate|].
              destruct (decode (buffer_stderr r)) eqn:E'; try discriminate.
              injection H as <- <-; exists (buffer_stderr r), stderr.
              repeat split; [exact E' | exact (S stderr)].
           ++ injection H as <- <-; exists (buffer_stdout r), stdout.
              repeat split; [exact E | exact (S stdout)].
  - injection H as <- <-.
    destruct Ho as [Ho|(b & -> & Hb & (f & Hf) & _)]; [right; left; exact Ho|].
    right; right; left; exists b, f; repeat split; [exact Hb|].
    rewrite Hf; destruct f; reflexivity.
Qed.

(** X5.  The exceptions of a local [exec] are these and no others: the
    ValueError of the guard, with nothing done; a RuntimeError for a
    broken pipe, after the one attempt to write; the IndexError of the
    completion check, for a waiting call; the UnicodeDecodeError for
    bytes that are no well-formed UTF-8, these bytes being what was read
    so far from one of the streams; the RuntimeError of a shell that has
    ended; the TimeoutError, no sooner than 120 s after the write.  A
    number that does not parse behind the exit-code marker raises
    nothing. *)
Theorem exec_raises_only (_id : str) (hash : str -> Z) (cmd : str) (wait : bool)
    (w w' : World) (e : exn) :
  exec _id hash cmd wait w = (Raise e, w') ->
  (_is_interactive_command cmd = true /\
   e = ValueError (msg_interactive cmd) /\ w' = w)
  \/ (_is_interactive_command cmd = false /\
      ((stdin_open w = false /\
        e = RuntimeError [Text (py "[Errno 32] Broken pipe")] /\
        w' = emit (EvWrite (marked_cmd _id hash cmd ++ [LF])) w)
       \/ (wait = true /\ check_raises (safe_cmd cmd) = true /\
           e = IndexError msg_index)
       \/ (exists b f, e = UnicodeDecodeError b /\ decode b = Malformed /\
                       b ++ pending f w' = pending f w)
       \/ (exists r, e = RuntimeError (msg_exited r) /\
                     returncode w' (now w') <> None)
       \/ (exists r, e = TimeoutError (msg_timeout r) /\
                     (now w + default_timeout <= now w')%Z))).
Proof.
  intros H.
  destruct (_is_interactive_command cmd) eqn:Eg.
  { unfold exec in H; rewrite Eg in H; injection H as <- <-; auto. }
  right; split; [reflexivity|].
  rewrite (exec_unfold _ _ _ _ Eg) in H.
  unfold bind at 1, _write in H; rewrite sanitize_marked_cmd in H.
  destruct (stdin_open w) eqn:Eo.
  2:{ injection H as <- <-; left; auto. }
  right.
  set (w1 := emit (EvWrite (marked_cmd _id hash cmd ++ [LF])) w) in H.
  unfold bind at 1 in H.
  destruct (_read _ _ _ _ _ w1) as [[res|e1|] w2] eqn:Er; [| |discriminate].
  - exfalso; unfold bind, lift in H.
    destruct (extract_exit_code_shape (exit_marker hash cmd) (fst res)
                (exit_marker_nonempty hash cmd)) as (o & c & Hx & _).
    rewrite Hx in H; discriminate.
  - injection H as <- <-.
    apply read_raise in Er as [(_ & Hn & _)|[(He & Hp & Hc)|[Hx|[Hx|Hx]]]].
    + discriminate.
    + left; unfold polls in Hp; apply andb_true_iff in Hp as [Hw _]; auto.
    + right; left; destruct Hx as (b & f & He & Hb & Hf).
      exists b, f; repeat split; [exact He | exact Hb|].
      rewrite Hf; destruct f; reflexivity.
    + right; right; left; exact Hx.
    + right; right; right; exact Hx.
Qed.

Lemma exec_raises_only_witness :
  (exists w',
     exec Demo.session Demo.hash (py "ls -l") true Demo.dead
     = (Raise (RuntimeError (msg_exited reader0)), w') /\
     returncode w' (now w') <> None) /\
  (exists w',
     exec Demo.session Demo.hash (py "ls -l") true Demo.garbled
     = (Raise (UnicodeDecodeError [ascii_of_N 255]), w') /\
     [ascii_of_N 255] ++ pending stdout w' = pending stdout Demo.garbled).
Proof.
  split.
  - pose (res := exec Demo.session Demo.hash (py "ls -l") true Demo.dead).
    assert (E : res = (Raise (RuntimeError (msg_exited reader0)), snd res)).
    { rewrite (surjective_pairing res) at 1; f_equal; vm_compute; reflexivity. }
    exists (snd res); split; [exact E|].
    destruct (exec_raises_only _ _ _ _ _ _ _ E)
      as [(Hg & _)|(_ & [(Ho & _)|[(_ & _ & He)|[(b & f & He & _)|
                                                  [(r & _ & Hr)|(r & He & _)]]]])].
    + vm_compute in Hg; discriminate Hg.
    + vm_compute in Ho; discriminate Ho.
    + discriminate He.
    + discriminate He.
    + exact Hr.
    + discriminate He.
  - pose (res := exec Demo.session Demo.hash (py "ls -l") true Demo.garbled).
    assert (E : res = (Raise (UnicodeDecodeError [ascii_of_N 255]), snd res)).
    { rewrite (surjective_pairing res) at 1; f_equal; vm_compute; reflexivity. }
    exists (snd res); split; [exact E|].
    vm_compute; reflexivity.
Defined.

End ReaderProperties.

(** ** More about text *)

Section TextMore.

Lemma lstrip_nospace (s : str) :
  Forall (fun c => isspace c = false) s -> lstrip s = s.
Proof. intros H; destruct H as [|c s Hc _]; cbn; [|rewrite Hc]; reflexivity. Qed.

Lemma strip_nospace (s : str) :
  Forall (fun c => isspace c = false) s -> strip s = s.
Proof.
  intros H; unfold strip, rstrip; rewrite (lstrip_nospace s H).
  rewrite lstrip_nospace by (apply Forall_rev; exact H).
  apply rev_involutive.
Qed.

Lemma str_of_int_nospace (n : Z) :
  Forall (fun c => isspace c = false) (str_of_int n).
Proof. apply Forall_forall; intros c H; apply (str_of_int_chars n c H). Qed.

Lemma digits_go_acc (d : Decimal.uint) :
  forall p : positive,
    digits_go (Zpos p) true
      (String.list_ascii_of_string (DecimalString.NilEmpty.string_of_uint d))
    = Some (Zpos (Pos.of_uint_acc d p)).
Proof.
  induction d; intros p; cbn [DecimalString.NilEmpty.string_of_uint
    String.list_ascii_of_string Pos.of_uint_acc]; [reflexivity| ..];
    (match goal with
     | |- digits_go _ true (_ :: ?t) = Some (Zpos (Pos.of_uint_acc _ ?q)) =>
         transitivity (digits_go (Zpos q) true t); [|apply IHd]
     end);
    cbn [digits_go];
    (match goal with
     | |- context [digit_val ?c] =>
         let v := eval vm_compute in (digit_val c) in
         change (digit_val c) with v
     end);
    cbn iota; f_equal; lia.
Qed.

Lemma digits_go_zero (d : Decimal.uint) :
  forall b : bool, d <> Decimal.Nil \/ b = true ->
    digits_go 0 b
      (String.list_ascii_of_string (DecimalString.NilEmpty.string_of_uint d))
    = Some (Z.of_N (Pos.of_uint d)).
Proof.
  induction d; intros b Hb;
    cbn [DecimalString.NilEmpty.string_of_uint String.list_ascii_of_string
         Pos.of_uint].
  - destruct Hb as [Hb| ->]; [congruence | reflexivity].
  - change (digits_go 0 true
              (String.list_ascii_of_string
                 (DecimalString.NilEmpty.string_of_uint d))
            = Some (Z.of_N (Pos.of_uint d))).
    apply IHd; right; reflexivity.
  - exact (digits_go_acc d 1).
  - exact (digits_go_acc d 2).
  - exact (digits_go_acc d 3).
  - exact (digits_go_acc d 4).
  - exact (digits_go_acc d 5).
  - exact (digits_go_acc d 6).
  - exact (digits_go_acc d 7).
  - exact (digits_go_acc d 8).
  - exact (digits_go_acc d 9).
Qed.

Lemma digits_go_nilzero (d : Decimal.uint) :
  digits_go 0 false
    (String.list_ascii_of_string (DecimalString.NilZero.string_of_uint d))
  = Some (Z.of_uint d).
Proof.
  unfold Z.of_uint; destruct d; try (apply digits_go_zero; left; discriminate).
  reflexivity.
Qed.

(** [int(str(n)) == n] *)
Lemma int_str_of_int (n : Z) : int (str_of_int n) = Some n.
Proof.
  unfold int; rewrite (strip_nospace _ (str_of_int_nospace n)).
  unfold str_of_int, py.
  pose proof (DecimalZ.of_to n) as Hn.
  destruct (Z.to_int n) as [d|d]; cbn [DecimalString.NilZero.string_of_int
    String.list_ascii_of_string Z.of_int] in *.
  - pose proof (digits_go_nilzero d) as Hd.
    destruct d; cbn in Hd |- *; rewrite <- Hn; exact Hd.
  - change (ord "-" =? 45)%N with true; cbn iota.
    rewrite digits_go_nilzero; cbn [option_map]; rewrite <- Hn; reflexivity.
Qed.

(** The first occurrence of a marker behind a character that it does not
    hold and a text that does not hold it. *)
Lemma index_after_separator (m a b : str) (c : ascii) :
  m <> [] -> ~ In c m -> contains m a = false ->
  index m (a ++ c :: m ++ b) = Some (S (length a)).
Proof.
  intros Hm Hc; induction a as [|y a IH]; intros Ha.
  - cbn [app length]; rewrite index_cons.
    replace (startswith (c :: m ++ b) m) with false.
    + rewrite index_here; [reflexivity|].
      apply startswith_iff; exists b; reflexivity.
    + symmetry; destruct m as [|x m]; [congruence|]; cbn [startswith].
      replace (chr_eqb x c) with false; [reflexivity|].
      symmetry; apply Ascii.eqb_neq; intros ->; apply Hc; left; reflexivity.
  - cbn [app length]; rewrite index_cons.
    unfold contains in Ha; rewrite index_cons in Ha.
    destruct (startswith (y :: a) m) eqn:Es; [discriminate|].
    replace (startswith (y :: a ++ c :: m ++ b) m) with false.
    + rewrite IH; [reflexivity|].
      unfold contains; destruct (index m a); [discriminate | reflexivity].
    + symmetry; destruct (startswith (y :: a ++ c :: m ++ b) m) eqn:E;
        [exfalso | reflexivity].
      apply startswith_iff in E as [t Ht].
      change (y :: a ++ c :: m ++ b) with ((y :: a) ++ c :: m ++ b) in Ht.
      apply app_eq_app in Ht as [l [[H1 H2]|[H1 H2]]].
      * assert (startswith (y :: a) m = true); [|congruence].
        apply startswith_iff; exists l; exact H1.
      * destruct l as [|c' l].
        -- rewrite app_nil_r in H1; subst m.
           assert (startswith (y :: a) (y :: a) = true); [|congruence].
           apply startswith_iff; exists []; symmetry; apply app_nil_r.
        -- simpl in H2; injection H2 as <- _.
           apply Hc; rewrite H1; apply in_or_app; right; left; reflexivity.
Qed.

(** A text without line end and a line feed make one line. *)
Lemma splitlines_go_line (l : str) :
  (forall c, In c l -> is_linebreak c = false) ->
  forall acc, splitlines_go acc (l ++ [LF]) = [rev acc ++ l].
Proof.
  induction l as [|c l IH]; intros Hl acc.
  - cbn; rewrite app_nil_r; reflexivity.
  - cbn [app splitlines_go].
    assert (Hc : is_linebreak c = false) by (apply Hl; left; reflexivity).
    replace (chr_eqb c CR) with false.
    + rewrite Hc, IH by (intros x Hx; apply Hl; right; exact Hx).
      cbn [rev]; rewrite <- app_assoc; reflexivity.
    + symmetry; apply Ascii.eqb_neq; intros ->; discriminate.
Qed.

(** One more line behind whole lines. *)
Lemma splitlines_go_snoc (l : str) (n : nat) :
  (forall c, In c l -> is_linebreak c = false) ->
  forall (o acc : str), length o <= n ->
    splitlines_go acc (o ++ LF :: l ++ [LF])
    = splitlines_go acc (o ++ [LF]) ++ [l].
Proof.
  intros Hl; induction n as [|n IH]; intros o acc Hn.
  - destruct o; [|simpl in Hn; lia].
    cbn [app splitlines_go]; change (chr_eqb LF CR) with false.
    change (is_linebreak LF) with true; cbn iota.
    rewrite (splitlines_go_line l Hl); reflexivity.
  - destruct o as [|c o].
    + cbn [app splitlines_go]; change (chr_eqb LF CR) with false.
      change (is_linebreak LF) with true; cbn iota.
      rewrite (splitlines_go_line l Hl); reflexivity.
    + simpl in Hn; cbn [app splitlines_go].
      destruct (chr_eqb c CR).
      * destruct o as [|d o].
        -- cbn [app]; change (chr_eqb LF LF) with true; cbn iota.
           rewrite (splitlines_go_line l Hl); reflexivity.
        -- cbn [app]; destruct (chr_eqb d LF).
           ++ cbn [app]; f_equal; apply IH; simpl in Hn; lia.
           ++ cbn [app]; f_equal; apply (IH (d :: o)); lia.
      * destruct (is_linebreak c).
        -- cbn [app]; f_equal; apply IH; lia.
        -- apply IH; lia.
Qed.

(** The lines of a text made of whole lines and one more line. *)
Lemma splitlines_whole_then_line (out l : str) :
  Notions.whole_lines out ->
  (forall c, In c l -> is_linebreak c = false) ->
  splitlines (out ++ l ++ [LF]) = splitlines out ++ [l].
Proof.
  intros [->|[t ->]] Hl; unfold splitlines.
  - apply (splitlines_go_line l Hl []).
  - rewrite <- app_assoc; cbn [app].
    apply (splitlines_go_snoc l (length t) Hl t []); lia.
Qed.

Lemma join_cons (sep x : str) (l : list str) :
  l <> [] -> join sep (x :: l) = x ++ sep ++ join sep l.
Proof. destruct l; [congruence | reflexivity]. Qed.

(** Lines that end in line feeds only are put back as they were. *)
Lemma join_splitlines_go (s : str) :
  Notions.unix_lines s ->
  forall acc, join [LF] (splitlines_go acc (s ++ [LF]) ++ [[]])
              = rev acc ++ s ++ [LF].
Proof.
  induction s as [|c s IH]; intros Hs acc.
  - cbn; rewrite ?app_nil_r; reflexivity.
  - assert (Hs' : Notions.unix_lines s).
    { intros x Hx; apply Hs; right; exact Hx. }
    cbn [app splitlines_go].
    destruct (Ascii.eqb_spec c CR) as [->|Hcr].
    { specialize (Hs CR (or_introl eq_refl) eq_refl); discriminate. }
    change (chr_eqb c CR) with (Ascii.eqb c CR).
    destruct (Ascii.eqb_spec c CR); [congruence|].
    destruct (is_linebreak c) eqn:Eb.
    + rewrite (Hs c (or_introl eq_refl) Eb).
      cbn [app]; rewrite join_cons.
      * rewrite (IH Hs' []); reflexivity.
      * intros H; apply app_eq_nil in H as [_ H]; discriminate.
    + rewrite (IH Hs' (c :: acc)); cbn [rev]; rewrite <- app_assoc; reflexivity.
Qed.

Lemma join_splitlines (out : str) :
  Notions.whole_lines out -> Notions.unix_lines out ->
  join [LF] (splitlines out ++ [[]]) = out.
Proof.
  intros [->|[t ->]] Hu; [reflexivity|].
  apply (join_splitlines_go t); intros c Hc; apply Hu.
  apply in_or_app; left; exact Hc.
Qed.

(** *** Encoding and decoding *)

Lemma decode_encode_chr (c : ascii) (rest : bytes) :
  decode (encode_chr c ++ rest) = put c (decode rest).
Proof. destruct c as [[] [] [] [] [] [] [] []]; reflexivity. Qed.

Lemma encode_app (a b : str) : encode (a ++ b) = encode a ++ encode b.
Proof. apply flat_map_app. Qed.

(** [s.encode().decode() == s] *)
Lemma decode_encode (s : str) : decode (encode s) = Decoded s.
Proof.
  induction s as [|c s IH]; [reflexivity|].
  cbn [encode flat_map]; fold (encode s).
  rewrite decode_encode_chr, IH; reflexivity.
Qed.

Lemma encode_nonempty (s : str) : s <> [] -> encode s <> [].
Proof.
  destruct s as [|c s]; [congruence|]; intros _ H.
  apply (f_equal decode) in H; rewrite decode_encode in H; discriminate.
Qed.

End TextMore.

(** ** A command and its answer *)

Section RoundTrip.

Import HostShell Notions.

Lemma str_of_int_digits (n : Z) (c : ascii) :
  In c (str_of_int n) -> c = "-"%char \/ exists d, digit_val c = Some d.
Proof.
  unfold str_of_int, py.
  assert (Hu : forall d, In c (String.list_ascii_of_string
                                 (DecimalString.NilEmpty.string_of_uint d)) ->
                         c = "-"%char \/ exists d, digit_val c = Some d).
  { induction d; simpl; try tauto;
      (intros [<-|H]; [right; eexists; reflexivity | exact (IHd H)]). }
  assert (Hz : forall d, In c (String.list_ascii_of_string
                                 (DecimalString.NilZero.string_of_uint d)) ->
                         c = "-"%char \/ exists d, digit_val c = Some d).
  { intros d; destruct d; try apply Hu.
    simpl; intros [<-|[]]; right; eexists; reflexivity. }
  destruct (Z.to_int n) as [d|d]; simpl.
  - apply Hz.
  - intros [<-|H]; [left; reflexivity | exact (Hz d H)].
Qed.

Lemma occurs_chars (m s : str) (c : ascii) : occurs m s -> In c m -> In c s.
Proof.
  intros (a & b & ->) H; apply in_or_app; right; apply in_or_app; left; exact H.
Qed.

Lemma exit_line_chars (hash : str -> Z) (cmd : str) (code : Z) (c : ascii) :
  In c (exit_line hash cmd code) ->
  is_linebreak c = false /\ c <> "C"%char.
Proof.
  unfold exit_line, exit_marker; intros H.
  repeat (apply in_app_or in H as [H|H]);
    try (vm_compute in H; intuition (subst; first [reflexivity | discriminate])).
  - split; [apply (str_of_int_chars _ _ H)|].
    apply str_of_int_digits in H as [->|[d Hd]]; [discriminate|].
    intros ->; discriminate.
  - split; [apply (str_of_int_chars _ _ H)|].
    apply str_of_int_digits in H as [->|[d Hd]]; [discriminate|].
    intros ->; discriminate.
Qed.

Lemma stderr_marker_no_LF (_id : str) (hash : str -> Z) (cmd : str) :
  ~ In LF _id -> ~ In LF (stderr_marker _id hash cmd).
Proof.
  intros Hid H; unfold stderr_marker in H.
  repeat (apply in_app_or in H as [H|H]).
  - vm_compute in H; intuition discriminate.
  - vm_compute in H; intuition discriminate.
  - exact (Hid H).
  - vm_compute in H; intuition discriminate.
  - apply str_of_int_chars in H as [H _]; discriminate.
  - vm_compute in H; intuition discriminate.
Qed.

Lemma skipn_length_app {A} (a b : list A) : skipn (length a) (a ++ b) = b.
Proof. induction a; [reflexivity | exact IHa]. Qed.

Lemma firstn_length_app {A} (a b : list A) : firstn (length a) (a ++ b) = a.
Proof. induction a; cbn; [destruct b; reflexivity | f_equal; exact IHa]. Qed.

Lemma last_marked_snoc (m : str) (lines : list str) (l : str) :
  contains m l = true -> last_marked m (lines ++ [l]) = Some l.
Proof.
  intros H; induction lines as [|x lines IH]; cbn [app last_marked].
  - rewrite H; reflexivity.
  - rewrite IH; reflexivity.
Qed.

(** The line of the first [echo] gives the exit code back. *)
Lemma exit_line_code (hash : str -> Z) (cmd : str) (code : Z) :
  let m := exit_marker hash cmd in
  contains m (exit_line hash cmd code) = true /\
  line_code m (exit_line hash cmd code) = Some code /\
  kept m (exit_line hash cmd code) = [].
Proof.
  cbn zeta; set (m := exit_marker hash cmd).
  assert (Hm : m <> []) by discriminate.
  assert (Hi : index m (exit_line hash cmd code) = Some 0).
  { apply index_here, startswith_iff; eexists; reflexivity. }
  assert (Hc : contains m (exit_line hash cmd code) = true).
  { unfold contains; rewrite Hi; reflexivity. }
  split; [exact Hc|]; split.
  - unfold line_code; rewrite (split_unfold _ m Hm), Hi.
    cbn [Nat.add]; unfold exit_line; fold m; rewrite skipn_length_app.
    rewrite (split_unfold _ m Hm).
    replace (index m (py " " ++ str_of_int code)) with (@None nat).
    + cbn [item nth_error firstn].
      replace (strip (py " " ++ str_of_int code)) with (str_of_int code).
      * apply int_str_of_int.
      * symmetry; unfold strip; cbn [py String.list_ascii_of_string app lstrip].
        change (isspace " ") with true; cbn iota.
        fold (strip (str_of_int code)).
        apply strip_nospace, str_of_int_nospace.
    + symmetry.
      destruct (index m (py " " ++ str_of_int code)) as [i|] eqn:E; [|reflexivity].
      exfalso.
      assert (Ho : occurs m (py " " ++ str_of_int code)).
      { apply contains_iff; unfold contains; rewrite E; reflexivity. }
      assert (Hin : In "E"%char (py " " ++ str_of_int code)).
      { apply (occurs_chars m _ _ Ho); vm_compute; tauto. }
      destruct Hin as [Hin|Hin]; [discriminate|].
      apply str_of_int_digits in Hin as [Hin|[d Hd]]; discriminate.
  - unfold kept; rewrite Hc, (slice_to_find _ _ _ Hi); reflexivity.
Qed.

(** The extraction undoes what the first [echo] of the wrapper adds. *)
Lemma extract_answer (hash : str -> Z) (cmd out : str) (code : Z) :
  whole_lines out -> contains exit_prefix out = false ->
  extract_exit_code (exit_marker hash cmd) (out ++ exit_line hash cmd code ++ [LF])
  = Return (join [LF] (splitlines out ++ [[]]), code).
Proof.
  intros Hw Hfree; set (m := exit_marker hash cmd).
  assert (Hm : m <> []) by discriminate.
  destruct (exit_line_code hash cmd code) as (Hc & Hcode & Hkept); fold m in Hc, Hcode, Hkept.
  assert (Hlines : splitlines (out ++ exit_line hash cmd code ++ [LF])
                   = splitlines out ++ [exit_line hash cmd code]).
  { apply splitlines_whole_then_line; [exact Hw|].
    intros c H; apply (exit_line_chars hash cmd code c H). }
  assert (Hout : forall l, In l (splitlines out) -> contains m l = false).
  { intros l Hl; apply not_contains_iff; intros Ho.
    apply not_contains_iff in Hfree; apply Hfree.
    apply (occurs_trans _ l); [|apply splitlines_occurs; exact Hl].
    apply (occurs_trans _ m); [|exact Ho].
    exists [], (py "_" ++ str_of_int (hash cmd) ++ py "__"); reflexivity. }
  unfold extract_exit_code; fold m.
  replace (contains m (out ++ exit_line hash cmd code ++ [LF])) with true.
  2:{ symmetry; apply contains_iff, occurs_app_r, occurs_app_l.
      apply contains_iff; exact Hc. }
  rewrite Hlines.
  assert (Hall : all_parse m (splitlines out ++ [exit_line hash cmd code]) = true).
  { unfold all_parse; rewrite forallb_app; apply andb_true_iff; split.
    - apply forallb_forall; intros l Hl; rewrite (Hout l Hl); reflexivity.
    - cbn [forallb]; rewrite Hcode, orb_true_r; reflexivity. }
  rewrite (scan_lines_all_parse m _ Hm Hall).
  rewrite (last_marked_snoc m _ _ Hc), Hcode; cbn [app].
  assert (Hmap : map (kept m) (splitlines out ++ [exit_line hash cmd code])
                 = splitlines out ++ [[]]).
  { rewrite map_app; cbn [map]; rewrite Hkept; f_equal.
    rewrite <- (map_id (splitlines out)) at 2.
    apply map_ext_in; intros l Hl; unfold kept; rewrite (Hout l Hl); reflexivity. }
  rewrite Hmap.
  replace (contains exit_prefix (join [LF] (splitlines out ++ [[]]))) with false;
    [reflexivity|].
  symmetry; apply not_contains_iff; intros Ho.
  apply occurs_join in Ho as (p & Hp & Hop);
    [|discriminate|vm_compute; intuition discriminate].
  apply in_app_or in Hp as [Hp|[<-|[]]].
  - apply not_contains_iff in Hfree; apply Hfree.
    apply (occurs_trans _ p); [exact Hop | apply splitlines_occurs; exact Hp].
  - apply occurs_nil in Hop; discriminate.
Qed.

(** Where the two end markers are found in the answer. *)
Lemma cut_answer_stdout (_id : str) (hash : str -> Z) (cmd out : str) (code : Z) :
  ~ In LF _id -> whole_lines out ->
  contains (command_marker _id hash cmd) out = false ->
  let a := answer_stdout _id hash cmd out code in
  contains (command_marker _id hash cmd) a = true /\
  slice_to a (find a (command_marker _id hash cmd))
  = out ++ exit_line hash cmd code ++ [LF].
Proof.
  intros Hid Hw Hfree; cbn zeta; set (cm := command_marker _id hash cmd).
  assert (Hcm : cm <> []) by discriminate.
  assert (Hlf : ~ In LF cm) by (apply command_marker_no_LF; exact Hid).
  assert (Ha : answer_stdout _id hash cmd out code
               = (out ++ exit_line hash cmd code) ++ LF :: cm ++ [LF]).
  { unfold answer_stdout, exit_line; fold cm.
    repeat rewrite <- app_assoc; reflexivity. }
  assert (Hline : ~ occurs cm (exit_line hash cmd code)).
  { intros Ho.
    assert (Hin : In "C"%char (exit_line hash cmd code)).
    { apply (occurs_chars cm _ _ Ho); vm_compute; tauto. }
    apply exit_line_chars in Hin as [_ Hin]; congruence. }
  assert (Hpre : contains cm (out ++ exit_line hash cmd code) = false).
  { apply not_contains_iff; intros Ho.
    apply not_contains_iff in Hfree.
    destruct Hw as [->|[t ->]]; [exact (Hline Ho)|].
    rewrite <- app_assoc in Ho; cbn [app] in Ho.
    apply occurs_around in Ho as [Ho|Ho]; [| |exact Hlf].
    - apply Hfree, occurs_app_l; exact Ho.
    - exact (Hline Ho). }
  pose proof (index_after_separator cm _ [LF] LF Hcm Hlf Hpre) as Hi.
  rewrite Ha; split.
  - unfold contains; rewrite Hi; reflexivity.
  - rewrite (slice_to_find _ _ _ Hi).
    replace (S (length (out ++ exit_line hash cmd code)))
      with (length ((out ++ exit_line hash cmd code) ++ [LF]))
      by (rewrite length_app; simpl; lia).
    change (LF :: cm ++ [LF]) with ([LF] ++ cm ++ [LF]).
    rewrite (app_assoc _ [LF]), firstn_length_app, <- app_assoc; reflexivity.
Qed.

Lemma cut_answer_stderr (_id : str) (hash : str -> Z) (cmd err : str) :
  ~ In LF _id -> whole_lines err ->
  contains (stderr_marker _id hash cmd) err = false ->
  let a := answer_stderr _id hash cmd err in
  contains (stderr_marker _id hash cmd) a = true /\
  slice_to a (find a (stderr_marker _id hash cmd)) = err.
Proof.
  intros Hid Hw Hfree; cbn zeta; set (sm := stderr_marker _id hash cmd).
  assert (Hsm : sm <> []) by discriminate.
  assert (Hlf : ~ In LF sm) by (apply stderr_marker_no_LF; exact Hid).
  unfold answer_stderr; fold sm.
  assert (Hi : index sm (err ++ sm) = Some (length err)).
  { destruct Hw as [->|[t ->]].
    - apply index_here, startswith_iff; exists [].
      cbn [app]; rewrite app_nil_r; reflexivity.
    - rewrite <- app_assoc; cbn [app].
      rewrite <- (app_nil_r sm) at 2.
      rewrite index_after_separator; [|exact Hsm|exact Hlf|].
      + rewrite length_app; simpl; f_equal; lia.
      + apply not_contains_iff; intros Ho.
        apply not_contains_iff in Hfree; apply Hfree, occurs_app_l; exact Ho. }
  split.
  - unfold contains; rewrite Hi; reflexivity.
  - rewrite (slice_to_find _ _ _ Hi); apply firstn_length_app.
Qed.

End RoundTrip.

Section RoundTripExec.

Import HostShell Notions.

Lemma has_command_exited_emit (cmd : str) (e : event) (w : World) :
  fst (_has_command_exited cmd (emit e w)) = fst (_has_command_exited cmd w).
Proof.
  unfold _has_command_exited; destruct (all_nowait _) as [[|]|x|]; reflexivity.
Qed.

(** What is not there later is not there before. *)
Lemma arrived_later_nil (t t' : Z) (p : list (Z * bytes)) :
  (t <= t')%Z -> arrived t' p = [] -> arrived t p = [].
Proof.
  intros Ht; induction p as [|[t0 d] rest IH]; cbn [arrived]; [reflexivity|].
  destruct (Z.leb_spec t0 t') as [Ha|Ha]; destruct (Z.leb_spec t0 t) as [Hb|Hb];
    try reflexivity; [|lia].
  intros E; apply app_eq_nil in E as [-> E]; rewrite (IH E); reflexivity.
Qed.

(** An answer that is there alone and fits in one read is taken whole. *)
Lemma read_fd_whole (f : fd) (r : reader) (w : World) (t : Z) (d : bytes)
    (rest : list (Z * bytes)) :
  (match f with stdout => status_stdout r | stderr => status_stderr r end) = false ->
  pipe f w = (t, d) :: rest -> (t <= now w)%Z -> arrived (now w) rest = [] ->
  d <> [] -> length d <= 4096 ->
  read_fd f r w = (Return (add_data f r d), set_pipe f rest w).
Proof.
  intros Hs Hp Ht Hn Hd Hl; unfold read_fd; rewrite Hs.
  unfold bind, os_read; rewrite Hp; cbn [arrived].
  replace (t <=? now w)%Z with true by (symmetry; apply Z.leb_le; exact Ht).
  rewrite Hn, app_nil_r, firstn_all2 by exact Hl.
  cbn [shorten]; rewrite Nat.leb_refl, Nat.sub_diag.
  destruct d as [|c d]; [congruence|]; cbn [length Nat.eqb].
  destruct rest as [|[t' d'] rest]; destruct f; reflexivity.
Qed.

(** The reader on a shell whose answer is there: one turn, both markers
    found, each stream cut at its marker. *)
Lemma read_answer (c cm sm a_out a_err : str) (b_out b_err : bytes)
    (wait : bool) (w : World) (t1 t2 : Z) (more_out more_err : list (Z * bytes)) :
  cm <> [] -> sm <> [] ->
  decode b_out = Decoded a_out -> decode b_err = Decoded a_err ->
  stdout_pipe w = (t1, b_out) :: more_out ->
  stderr_pipe w = (t2, b_err) :: more_err ->
  (t1 <= now w)%Z -> (t2 <= now w)%Z ->
  arrived (now w + 300) more_out = [] -> arrived (now w + 300) more_err = [] ->
  length b_out <= 4096 -> length b_err <= 4096 ->
  contains cm a_out = true -> contains sm a_err = true ->
  (forall t, returncode w t = None) ->
  (wait = true -> fst (_has_command_exited c w) = Return true) ->
  exists w',
    _read (Some c) (Some cm) (Some sm) wait default_timeout w
    = (Return (slice_to a_out (find a_out cm), slice_to a_err (find a_err sm)), w')
    /\ stdout_pipe w' = more_out /\ stderr_pipe w' = more_err.
Proof.
  intros Hcm Hsm Do De Hpo Hpe Ht1 Ht2 Hmo Hme Hlo Hle Hco Hce Hrc Hex.
  assert (Hbo : b_out <> []).
  { intros ->; cbn in Do; injection Do as <-.
    destruct cm; [congruence | discriminate]. }
  assert (Hbe : b_err <> []).
  { intros ->; cbn in De; injection De as <-.
    destruct sm; [congruence | discriminate]. }
  rewrite read_unfold by apply andb_false_r.
  unfold turns_for; cbn [read_loop]; unfold bind at 1, time_time.
  replace (now w <? now w + default_timeout)%Z with true
    by (symmetry; apply Z.ltb_lt; unfold default_timeout; lia).
  (* the completion check *)
  assert (H1 : exists w1,
             (if wait && truthy (Some c) then _has_command_exited c else ret true) w
             = (Return true, w1) /\ same_pipes w w1 /\
             (now w <= now w1)%Z /\ (now w1 <= now w + 300)%Z).
  { destruct (wait && truthy (Some c)) eqn:E.
    - destruct (has_command_exited_world c w) as (Hs & Hb & _).
      pose proof (steady_has_command_exited c w) as [Hm _].
      destruct (_has_command_exited c w) as [o w1] eqn:Eh; cbn [fst snd] in *.
      apply andb_true_iff in E as [-> _]; rewrite (Hex eq_refl).
      exists w1; auto.
    - exists w; split; [reflexivity|]; split; [apply same_pipes_refl | lia]. }
  destruct H1 as (w1 & H1 & (Po & Pe & Pr & _) & Hm1 & Hb1).
  rewrite Hpo in Po; rewrite Hpe in Pe.
  assert (Hno : arrived (now w1) more_out = [])
    by (apply (arrived_later_nil _ (now w + 300)); [lia | exact Hmo]).
  assert (Hne : arrived (now w1) more_err = [])
    by (apply (arrived_later_nil _ (now w + 300)); [lia | exact Hme]).
  (* select *)
  assert (H2 : select_select w1 = (Return [stderr; stdout], w1)).
  { unfold select_select, ready, readable, pipe; cbn [filter].
    rewrite Pe, Po; cbn [arrived].
    replace (t2 <=? now w1)%Z with true by (symmetry; apply Z.leb_le; lia).
    replace (t1 <=? now w1)%Z with true by (symmetry; apply Z.leb_le; lia).
    rewrite Hno, Hne, !app_nil_r.
    destruct b_err; [congruence|]; destruct b_out; [congruence|]; reflexivity. }
  (* the two reads *)
  set (w2 := set_pipe stderr more_err w1).
  set (w3 := set_pipe stdout more_out w2).
  assert (H3 : read_fds [stderr; stdout] reader0 w1
               = (Return (mkReader b_out b_err None None false false), w3)).
  { cbn [read_fds].
    rewrite (bind_Return _ _ _ _ _
               (read_fd_whole stderr reader0 w1 t2 b_err more_err eq_refl Pe
                  ltac:(lia) Hne Hbe Hle)).
    fold w2.
    rewrite (bind_Return _ _ _ _ _
               (read_fd_whole stdout (add_data stderr reader0 b_err) w2 t1 b_out
                  more_out eq_refl Po ltac:(cbn; lia) Hno Hbo Hlo)).
    reflexivity. }
  set (r3 := mkReader b_out b_err None None false false) in H3.
  set (r4 := mkReader b_out b_err (Some (slice_to a_out (find a_out cm)))
               (Some (slice_to a_err (find a_err sm))) true true).
  assert (H4 : check_markers (Some cm) (Some sm) r3 a_out a_err = (true, r4)).
  { unfold check_markers; cbn [missing].
    rewrite Hco, Hce; cbn [negb orb].
    rewrite !cut_at_marker by assumption; reflexivity. }
  assert (H5 : (r' <- read_fds [stderr; stdout] reader0 ;;
                out <- bytes_decode (buffer_stdout r') ;;
                err <- bytes_decode (buffer_stderr r') ;;
                ret (check_markers (Some cm) (Some sm) r' out err)) w1
               = (Return (true, r4), w3)).
  { rewrite (bind_Return _ _ _ _ _ H3).
    rewrite (bind_Return _ _ _ _ _ (bytes_decode_Decoded _ _ _ Do)).
    rewrite (bind_Return _ _ _ _ _ (bytes_decode_Decoded _ _ _ De)).
    unfold ret; rewrite H4; reflexivity. }
  assert (Hpass : read_pass (Some c) (Some cm) (Some sm) wait reader0 w
                  = (Return (true, r4), w3)).
  { unfold read_pass.
    rewrite (bind_Return _ _ _ _ _ H1); cbn [negb].
    rewrite (bind_Return _ _ _ _ _ H2); cbn beta iota.
    rewrite (bind_Return _ _ _ _ _ H5); reflexivity. }
  rewrite (bind_Return _ _ _ _ _ Hpass); cbn [fst snd ret].
  rewrite (read_finish_data _ r4 _ _ _ eq_refl eq_refl).
  replace (returncode w3 (now w3)) with (@None Z)
    by (symmetry; cbn; rewrite Pr; apply Hrc).
  replace (now w3 >=? now w + default_timeout)%Z with false.
  - exists w3; repeat split.
  - symmetry; rewrite Z.geb_leb; apply Z.leb_gt.
    change (now w3) with (now w1); unfold default_timeout; lia.
Qed.

(** X4.  A command and its answer.  Take a shell that has answered the
    wrapped command when [exec] comes to read, and nothing more for the
    300 ms that the completion check may take: on its output the bytes of
    [out], of the line of the first [echo] with the status [code] and of
    the line of the second, on its error stream those of [err] and of the
    marker, each answer within one read of 4096 bytes.  When [out] and
    [err] are made of whole lines, [out] holds neither the command-end
    marker nor [__EXIT], [err] does not hold the stderr-end marker and the
    shell lives, [exec] returns [err] and [code] as they are and [out]
    with its line ends turned into line feeds, which is [out] itself when
    its lines end in line feeds already; what was not there yet stays in
    the pipes. *)
Theorem exec_round_trip (_id : str) (hash : str -> Z) (cmd out err : str)
    (code : Z) (wait : bool) (w : World) (t1 t2 : Z)
    (more_out more_err : list (Z * bytes)) :
  ~ In LF _id ->
  _is_interactive_command cmd = false ->
  whole_lines out -> whole_lines err ->
  contains (command_marker _id hash cmd) out = false ->
  contains exit_prefix out = false ->
  contains (stderr_marker _id hash cmd) err = false ->
  stdout_pipe w = (t1, encode (answer_stdout _id hash cmd out code)) :: more_out ->
  stderr_pipe w = (t2, encode (answer_stderr _id hash cmd err)) :: more_err ->
  (t1 <= now w)%Z -> (t2 <= now w)%Z ->
  arrived (now w + 300) more_out = [] -> arrived (now w + 300) more_err = [] ->
  length (encode (answer_stdout _id hash cmd out code)) <= 4096 ->
  length (encode (answer_stderr _id hash cmd err)) <= 4096 ->
  stdin_open w = true -> (forall t, returncode w t = None) ->
  (wait = true -> fst (_has_command_exited (safe_cmd cmd) w) = Return true) ->
  exists w',
    exec _id hash cmd wait w
    = (Return (mkResult (join [LF] (splitlines out ++ [[]])) err (VInt code)), w')
    /\ (unix_lines out -> join [LF] (splitlines out ++ [[]]) = out)
    /\ stdout_pipe w' = more_out /\ stderr_pipe w' = more_err.
Proof.
  intros Hid Hg Hwo Hwe Hfo Hfx Hfe Hpo Hpe Ht1 Ht2 Hmo Hme Hlo Hle Hopen Hrc Hex.
  destruct (cut_answer_stdout _id hash cmd out code Hid Hwo Hfo) as [Hco Hcut_o].
  destruct (cut_answer_stderr _id hash cmd err Hid Hwe Hfe) as [Hce Hcut_e].
  set (w1 := emit (EvWrite (sanitize_command (marked_cmd _id hash cmd))) w).
  destruct (read_answer (safe_cmd cmd) (command_marker _id hash cmd)
              (stderr_marker _id hash cmd) _ _ _ _ wait w1 t1 t2 more_out more_err
              (command_marker_nonempty _ _ _) (stderr_marker_nonempty _ _ _)
              (decode_encode _) (decode_encode _)
              Hpo Hpe Ht1 Ht2 Hmo Hme Hlo Hle Hco Hce Hrc)
    as (w' & Hread & Ho' & He').
  { intros Hw; unfold w1; rewrite has_command_exited_emit; exact (Hex Hw). }
  rewrite Hcut_o, Hcut_e in Hread.
  exists w'; split; [|split; [apply join_splitlines; exact Hwo | auto]].
  rewrite (exec_unfold _ _ _ _ Hg).
  unfold bind at 1, _write; rewrite Hopen; fold w1.
  rewrite (bind_Return _ _ _ _ _ Hread); cbn [fst snd].
  unfold bind, lift; rewrite (extract_answer hash cmd out code Hwo Hfx).
  reflexivity.
Qed.

Lemma exec_round_trip_witness :
  exists w',
    exec Demo.session Demo.hash (py "ls /srv") true
      (mkWorld 0 (fun _ => [])
         [(0%Z, encode (answer_stdout Demo.session Demo.hash (py "ls /srv")
                          (py "caf" ++ [ascii_of_N 233; LF] ++ py "www" ++ [LF]) 2));
          (400%Z, py "later")]
         [(0%Z, encode (answer_stderr Demo.session Demo.hash (py "ls /srv")
                          (py "ls: cannot open /srv/x" ++ [LF])))]
         (fun _ => None) true [])
    = (Return (mkResult (py "caf" ++ [ascii_of_N 233; LF] ++ py "www" ++ [LF])
                 (py "ls: cannot open /srv/x" ++ [LF]) (VInt 2)), w') /\
    stdout_pipe w' = [(400%Z, py "later")].
Proof.
  pose (cmd := py "ls /srv").
  pose (out := py "caf" ++ [ascii_of_N 233; LF] ++ py "www" ++ [LF]).
  pose (err := py "ls: cannot open /srv/x" ++ [LF]).
  pose (w := mkWorld 0 (fun _ => [])
               [(0%Z, encode (answer_stdout Demo.session Demo.hash cmd out 2));
                (400%Z, py "later")]
               [(0%Z, encode (answer_stderr Demo.session Demo.hash cmd err))]
               (fun _ => None) true []).
  assert (P1 : ~ In LF Demo.session) by (vm_compute; intuition discriminate).
  assert (P2 : _is_interactive_command cmd = false) by (vm_compute; reflexivity).
  assert (P3 : whole_lines out)
    by (right; exists (py "caf" ++ [ascii_of_N 233; LF] ++ py "www"); reflexivity).
  assert (P4 : whole_lines err)
    by (right; exists (py "ls: cannot open /srv/x"); reflexivity).
  assert (P5 : contains (command_marker Demo.session Demo.hash cmd) out = false)
    by (vm_compute; reflexivity).
  assert (P6 : contains exit_prefix out = false) by (vm_compute; reflexivity).
  assert (P7 : contains (stderr_marker Demo.session Demo.hash cmd) err = false)
    by (vm_compute; reflexivity).
  assert (P8 : stdout_pipe w
               = (0%Z, encode (answer_stdout Demo.session Demo.hash cmd out 2))
                 :: [(400%Z, py "later")]) by reflexivity.
  assert (P9 : stderr_pipe w
               = (0%Z, encode (answer_stderr Demo.session Demo.hash cmd err)) :: [])
    by reflexivity.
  assert (P10 : (0 <= now w)%Z) by (vm_compute; discriminate).
  assert (P11 : arrived (now w + 300) [(400%Z, py "later")] = []) by reflexivity.
  assert (P12 : arrived (now w + 300) (@nil (Z * bytes)) = []) by reflexivity.
  assert (P13 : length (encode (answer_stdout Demo.session Demo.hash cmd out 2))
                <= 4096) by (vm_compute; lia).
  assert (P14 : length (encode (answer_stderr Demo.session Demo.hash cmd err))
                <= 4096) by (vm_compute; lia).
  assert (P15 : stdin_open w = true) by reflexivity.
  assert (P16 : forall t, returncode w t = None) by reflexivity.
  assert (P17 : true = true ->
                fst (_has_command_exited (safe_cmd cmd) w) = Return true)
    by (intros _; vm_compute; reflexivity).
  destruct (exec_round_trip Demo.session Demo.hash cmd out err 2 true w 0 0 _ []
              P1 P2 P3 P4 P5 P6 P7 P8 P9 P10 P10 P11 P12 P13 P14 P15 P16 P17)
    as (w' & Hexec & _ & Ho & _).
  exists w'; split; [exact Hexec | exact Ho].
Defined.

End RoundTripExec.

(** ** Commands and responses as text *)

Section CommandText.

Import HostShell.

Lemma lstrip_app_space (a b : str) :
  forallb isspace a = true -> lstrip (a ++ b) = lstrip b.
Proof.
  induction a as [|c a IH]; [reflexivity|]; cbn [forallb app lstrip].
  intros H; apply andb_true_iff in H as [Hc Ha]; rewrite Hc; exact (IH Ha).
Qed.

Lemma forallb_rev {A} (p : A -> bool) (l : list A) :
  forallb p l = true -> forallb p (rev l) = true.
Proof.
  rewrite !forallb_forall; intros H x Hx; apply H, in_rev; exact Hx.
Qed.

Lemma rstrip_app_space (s ws : str) :
  forallb isspace ws = true -> rstrip (s ++ ws) = rstrip s.
Proof.
  intros H; unfold rstrip; rewrite rev_app_distr, lstrip_app_space;
    [reflexivity | apply forallb_rev; exact H].
Qed.

(** [lstrip] takes white space away in front, and all of it. *)
Lemma lstrip_spec (s : str) :
  exists a, s = a ++ lstrip s /\ forallb isspace a = true /\
            (lstrip s = [] \/ exists c t, lstrip s = c :: t /\ isspace c = false).
Proof.
  induction s as [|c s (a & Hs & Ha & Hl)].
  - exists []; auto.
  - cbn [lstrip]; destruct (isspace c) eqn:Ec.
    + exists (c :: a); cbn [app forallb]; rewrite Ec, Ha; split; [congruence | auto].
    + exists []; split; [reflexivity|]; split; [reflexivity|].
      right; exists c, s; auto.
Qed.

Lemma rstrip_spec (s : str) :
  exists t, s = rstrip s ++ t /\ forallb isspace t = true /\
            (rstrip s = [] \/ exists b c, rstrip s = b ++ [c] /\ isspace c = false).
Proof.
  unfold rstrip; destruct (lstrip_spec (rev s)) as (a & Hs & Ha & Hl).
  exists (rev a); split; [|split].
  - rewrite <- rev_app_distr, <- Hs, rev_involutive; reflexivity.
  - apply forallb_rev; exact Ha.
  - destruct Hl as [->|(c & t & -> & Hc)]; [left; reflexivity|].
    right; exists (rev t), c; auto.
Qed.

(** X6.  What [sanitize_command] sends is the command without the white
    space at its end, line ends included, and one line feed: white space
    added at the end of a command changes nothing, and sanitizing twice is
    sanitizing once. *)
Theorem sanitize_command_trailing_space :
  (forall cmd, exists body t,
     sanitize_command cmd = body ++ [LF] /\ cmd = body ++ t /\
     forallb isspace t = true /\
     (body = [] \/ exists b c, body = b ++ [c] /\ isspace c = false)) /\
  (forall cmd ws, forallb isspace ws = true ->
     sanitize_command (cmd ++ ws) = sanitize_command cmd) /\
  (forall cmd, sanitize_command (sanitize_command cmd) = sanitize_command cmd).
Proof.
  split; [|split].
  - intros cmd; destruct (rstrip_spec cmd) as (t & Hs & Ht & Hb).
    exists (rstrip cmd), t; auto.
  - intros cmd ws H; unfold sanitize_command; rewrite rstrip_app_space by exact H.
    reflexivity.
  - intros cmd; unfold sanitize_command.
    rewrite rstrip_app_space by reflexivity; f_equal.
    destruct (rstrip_spec cmd) as (_ & _ & _ & [->|(b & c & -> & Hc)]);
      [reflexivity | apply rstrip_snoc; exact Hc].
Qed.

(** *** The guard on composite commands *)

Lemma any_interactive_app (a b : list str) :
  any_interactive (a ++ b) = any_interactive a || any_interactive b.
Proof.
  induction a as [|x a IH]; [reflexivity|]; cbn [app any_interactive].
  destruct (split_ws (strip (lower x))); [exact IH|].
  destruct (existsb _ _INTERACTIVE_COMMANDS); [reflexivity | exact IH].
Qed.

Lemma clauses_go_one_amp (acc : str) :
  Spec.clauses_go acc ["&"%char] = [rev ("&"%char :: acc)].
Proof. reflexivity. Qed.

(** The clauses on both sides of a semicolon. *)
Lemma clauses_go_app_semi (b : str) (n : nat) :
  forall (a acc : str), length a <= n ->
    Spec.clauses_go acc (a ++ ";"%char :: b)
    = Spec.clauses_go acc a ++ Spec.clauses_go [] b.
Proof.
  induction n as [|n IH]; intros a acc Hn.
  - destruct a; [|simpl in Hn; lia]. cbn [app]; rewrite clauses_semi; reflexivity.
  - destruct a as [|c a]; [cbn [app]; rewrite clauses_semi; reflexivity|].
    simpl in Hn; cbn [app].
    destruct (Ascii.eqb_spec c ";") as [->|Hsemi].
    { rewrite !clauses_semi; cbn [app]; f_equal; apply IH; lia. }
    destruct (Ascii.eqb_spec c "&") as [->|Hamp].
    + destruct a as [|d a].
      * cbn [app]; rewrite clauses_amp_other by discriminate.
        rewrite clauses_semi, clauses_go_one_amp; reflexivity.
      * cbn [app]; destruct (Ascii.eqb_spec d "&") as [->|Hd].
        -- rewrite !clauses_amp_amp; cbn [app]; f_equal; apply IH.
           simpl in Hn; lia.
        -- rewrite !clauses_amp_other by exact Hd.
           apply (IH (d :: a)); lia.
    + rewrite !clauses_other by assumption. apply IH; lia.
Qed.

Lemma endswith_cons (c x : ascii) (s : str) :
  s <> [] -> endswith (c :: s) [x] = endswith s [x].
Proof.
  intros Hs; unfold endswith; cbn [rev app].
  destruct (rev s) as [|y t] eqn:E.
  - apply (f_equal (@rev ascii)) in E; rewrite rev_involutive in E; cbn in E.
    congruence.
  - reflexivity.
Qed.

(** The clauses on both sides of [&&], when no [&] stands before it. *)
Lemma clauses_go_app_amp (b : str) (n : nat) :
  forall (a acc : str), length a <= n -> endswith a (py "&") = false ->
    Spec.clauses_go acc (a ++ "&"%char :: "&"%char :: b)
    = Spec.clauses_go acc a ++ Spec.clauses_go [] b.
Proof.
  induction n as [|n IH]; intros a acc Hn He.
  - destruct a; [|simpl in Hn; lia]. cbn [app]; rewrite clauses_amp_amp; reflexivity.
  - destruct a as [|c a]; [cbn [app]; rewrite clauses_amp_amp; reflexivity|].
    simpl in Hn; cbn [app].
    assert (He' : a <> [] -> endswith a (py "&") = false).
    { intros Ha; change (endswith a ["&"%char] = false).
      rewrite <- (endswith_cons c "&" a Ha); exact He. }
    destruct (Ascii.eqb_spec c ";") as [->|Hsemi].
    { rewrite !clauses_semi; cbn [app]; f_equal; apply IH; [lia|].
      destruct a; [reflexivity | apply He'; discriminate]. }
    destruct (Ascii.eqb_spec c "&") as [->|Hamp].
    + destruct a as [|d a]; [discriminate He|].
      cbn [app]; destruct (Ascii.eqb_spec d "&") as [->|Hd].
      * destruct a as [|e a]; [discriminate He|].
        rewrite !clauses_amp_amp; cbn [app]; f_equal; apply (IH (e :: a)).
        -- simpl in Hn |- *; lia.
        -- change (endswith (e :: a) ["&"%char] = false).
           rewrite <- (endswith_cons "&" "&" (e :: a)) by discriminate.
           apply He'; discriminate.
      * rewrite !clauses_amp_other by exact Hd.
        apply (IH (d :: a)); [lia | apply He'; discriminate].
    + rewrite !clauses_other by assumption. apply IH; [lia|].
      destruct a; [reflexivity | apply He'; discriminate].
Qed.

(** X7.  The guard on a composite command is the guard on its parts: two
    commands joined by a semicolon, or by [&&] when the first does not end
    in [&], are turned down exactly when one of them is; the empty command
    passes. *)
Theorem is_interactive_command_composite :
  (forall a b,
     _is_interactive_command (a ++ py ";" ++ b)
     = _is_interactive_command a || _is_interactive_command b) /\
  (forall a b, endswith a (py "&") = false ->
     _is_interactive_command (a ++ py "&&" ++ b)
     = _is_interactive_command a || _is_interactive_command b) /\
  _is_interactive_command [] = false.
Proof.
  unfold _is_interactive_command; split; [|split; [|reflexivity]].
  - intros a b; rewrite !guard_clauses; unfold Spec.clauses.
    change (a ++ py ";" ++ b) with (a ++ ";"%char :: b).
    rewrite (clauses_go_app_semi b (length a)) by lia.
    apply any_interactive_app.
  - intros a b He; rewrite !guard_clauses; unfold Spec.clauses.
    change (a ++ py "&&" ++ b) with (a ++ "&"%char :: "&"%char :: b).
    rewrite (clauses_go_app_amp b (length a)) by (lia || exact He).
    apply any_interactive_app.
Qed.

End CommandText.

(** ** Responses of the remote side *)

Section RemoteText.

Import SSHShell.

Lemma index_crlf (first rest : str) :
  contains [CR; LF] first = false ->
  index [CR; LF] (first ++ CR :: LF :: rest) = Some (length first).
Proof.
  induction first as [|c f IH]; intros H.
  - apply index_here, startswith_iff; exists rest; reflexivity.
  - unfold contains in H; rewrite index_cons in H.
    destruct (startswith (c :: f) [CR; LF]) eqn:Es; [discriminate|].
    assert (Hf : contains [CR; LF] f = false).
    { unfold contains; destruct (index [CR; LF] f); [discriminate | reflexivity]. }
    cbn [app length]; rewrite index_cons.
    replace (startswith (c :: f ++ CR :: LF :: rest) [CR; LF]) with false.
    + rewrite (IH Hf); reflexivity.
    + symmetry; cbn [startswith] in Es |- *.
      destruct (chr_eqb CR c); [|reflexivity].
      destruct f as [|d f]; [reflexivity|].
      cbn [app andb] in Es |- *; destruct (chr_eqb LF d); [discriminate | reflexivity].
Qed.

Lemma split_crlf (first rest : str) :
  contains [CR; LF] first = false ->
  split (first ++ [CR; LF] ++ rest) [CR; LF] = first :: split rest [CR; LF].
Proof.
  intros H; rewrite split_unfold by discriminate.
  cbn [app]; rewrite (index_crlf first rest H).
  rewrite firstn_length_app; f_equal; f_equal.
  replace (length first + length [CR; LF])%nat
    with (length (first ++ [CR; LF])) by (rewrite length_app; reflexivity).
  change (first ++ CR :: LF :: rest) with (first ++ [CR; LF] ++ rest).
  rewrite app_assoc; apply skipn_length_app.
Qed.

(** X8.  [_sanitize_output] drops the first line of a response, whatever
    it is, lines being cut at CR LF: a response without CR LF comes to
    nothing, and the text before the first CR LF does not count. *)
Theorem sanitize_output_first_line :
  (forall output, contains [CR; LF] output = false -> _sanitize_output output = []) /\
  (forall first rest, contains [CR; LF] first = false ->
     _sanitize_output (first ++ [CR; LF] ++ rest)
     = _sanitize_output ([CR; LF] ++ rest)).
Proof.
  split.
  - intros output H; unfold _sanitize_output.
    rewrite split_unfold by discriminate.
    unfold contains in H; destruct (index [CR; LF] output); [discriminate|].
    reflexivity.
  - intros first rest H; unfold _sanitize_output.
    rewrite (split_crlf first rest H).
    change ([CR; LF] ++ rest) with ([] ++ [CR; LF] ++ rest).
    rewrite (split_crlf [] rest eq_refl); reflexivity.
Qed.

(** *** Escape sequences *)

Lemma in_range_iff (lo hi : N) (c : ascii) :
  in_range lo hi c = true <-> (lo <= ord c /\ ord c <= hi)%N.
Proof.
  unfold in_range; rewrite andb_true_iff, !N.leb_le; reflexivity.
Qed.

Lemma in_range_apart (lo hi lo' hi' : N) (c : ascii) :
  (hi < lo' \/ hi' < lo)%N -> in_range lo hi c = true -> in_range lo' hi' c = false.
Proof.
  intros Hd H; apply in_range_iff in H.
  destruct (in_range lo' hi' c) eqn:E; [|reflexivity].
  apply in_range_iff in E; lia.
Qed.

Lemma drop_while_app (p : ascii -> bool) (a b : str) :
  forallb p a = true -> drop_while p (a ++ b) = drop_while p b.
Proof.
  induction a as [|c a IH]; [reflexivity|]; cbn [forallb app drop_while].
  intros H; apply andb_true_iff in H as [Hc Ha]; rewrite Hc; exact (IH Ha).
Qed.

Lemma strip_escapes_skip (a b : str) :
  strip_escapes (length a) (a ++ b) = strip_escapes 0 b.
Proof. induction a as [|c a IH]; [reflexivity | exact IH]. Qed.

(** The part of a control sequence behind its bracket. *)
Lemma escape_length_csi (params inter rest : str) (final : ascii) :
  forallb (in_range 48 63) params = true ->
  forallb (in_range 32 47) inter = true ->
  in_range 64 126 final = true ->
  escape_length ("["%char :: params ++ inter ++ final :: rest)
  = Some (S (S (length (params ++ inter)))).
Proof.
  intros Hp Hi Hf; unfold escape_length.
  change (in_range 64 90 "[" || in_range 92 95 "[") with false.
  change (ord "[" =? 91)%N with true; cbn iota.
  rewrite (drop_while_app _ params _ Hp).
  assert (H1 : drop_while (in_range 48 63) (inter ++ final :: rest)
               = inter ++ final :: rest).
  { destruct inter as [|i inter]; cbn [app drop_while forallb] in *.
    - rewrite (in_range_apart 64 126 48 63 final) by (lia || exact Hf); reflexivity.
    - apply andb_true_iff in Hi as [Hi _].
      rewrite (in_range_apart 32 47 48 63 i) by (lia || exact Hi); reflexivity. }
  rewrite H1, (drop_while_app _ inter _ Hi); cbn [drop_while].
  rewrite (in_range_apart 64 126 32 47 final) by (lia || exact Hf).
  rewrite Hf; do 3 f_equal.
  rewrite !length_app; cbn [length]; lia.
Qed.

(** X10.  What [_ANSI_ESCAPE] takes out of a response and what it leaves:
    text before the first escape character stays as it is; an escape
    character and one character from [@] to [Z] or from the backslash to
    the underscore go; so does a control sequence, that is the escape
    character, a bracket, parameter characters from [0] to [?],
    intermediate characters from the space to the slash and a final
    character from [@] to the tilde. *)
Theorem strip_escapes_sequences :
  (forall a b, ~ In ESC a -> strip_escapes 0 (a ++ b) = a ++ strip_escapes 0 b) /\
  (forall c rest, in_range 64 90 c || in_range 92 95 c = true ->
     strip_escapes 0 (ESC :: c :: rest) = strip_escapes 0 rest) /\
  (forall params inter final rest,
     forallb (in_range 48 63) params = true ->
     forallb (in_range 32 47) inter = true ->
     in_range 64 126 final = true ->
     strip_escapes 0 (ESC :: "["%char :: params ++ inter ++ final :: rest)
     = strip_escapes 0 rest).
Proof.
  split; [|split].
  - intros a b; induction a as [|c a IH]; intros Ha; [reflexivity|].
    cbn [app strip_escapes].
    replace (chr_eqb c ESC) with false.
    + rewrite IH; [reflexivity | intros H; apply Ha; right; exact H].
    + symmetry; apply Ascii.eqb_neq; intros ->; apply Ha; left; reflexivity.
  - intros c rest Hc; cbn [strip_escapes].
    change (chr_eqb ESC ESC) with true; cbn iota.
    unfold escape_length; rewrite Hc; reflexivity.
  - intros params inter final rest Hp Hi Hf; cbn [strip_escapes].
    change (chr_eqb ESC ESC) with true; cbn iota.
    rewrite (escape_length_csi params inter rest final Hp Hi Hf).
    cbn [strip_escapes]; rewrite app_assoc.
    change (final :: rest) with ([final] ++ rest); rewrite app_assoc.
    replace (S (length (params ++ inter)))
      with (length ((params ++ inter) ++ [final]))
      by (rewrite (length_app _ [final]); cbn [length]; lia).
    apply strip_escapes_skip.
Qed.

End RemoteText.

(** ** A remote command that is not waited for *)

Section RemoteExec.

Import SSHShell.

Lemma send_returns (buffer : str) (w : World) :
  _send buffer None w
  = (Return tt, mkWorld (inbox w) (listings w)
                  (log w ++ [EvSend (buffer ++ newline); EvSleep 50])).
Proof.
  unfold _send, bind, channel_send, time_sleep, emit; cbn [inbox listings log].
  rewrite <- app_assoc; reflexivity.
Qed.

(** A read takes what the channel has ready, takes the escape sequences
    out and decodes. *)
Lemma read_front (w : World) :
  _read w
  = (match decode (received w 0) with
     | Decoded s => Return s
     | Malformed => Raise (UnicodeDecodeError (received w 0))
     | Beyond => Pending
     end, mkWorld (tl (inbox w)) (listings w) (log w)).
Proof.
  unfold _read, bind, channel_drain, received, bytes_decode, lift.
  destruct w as [[|d rest] ls lg]; cbn [inbox listings log nth tl];
    [reflexivity|].
  destruct (decode (strip_escapes 0 d)); reflexivity.
Qed.

Lemma nth_S_tl {A} (l : list A) (i : nat) (d : A) : nth (S i) l d = nth i (tl l) d.
Proof. destruct l; [destruct i|]; reflexivity. Qed.

Lemma received_tl (w : World) (ls : list str) (lg : list event) (i : nat) :
  received (mkWorld (tl (inbox w)) ls lg) i = received w (S i).
Proof. unfold received; cbn [inbox]; rewrite nth_S_tl; reflexivity. Qed.

Lemma tl_skipn {A} (l : list A) (n : nat) : tl (skipn n l) = skipn (S n) l.
Proof.
  revert l; induction n as [|n IH]; intros [|x l]; try reflexivity.
  exact (IH l).
Qed.

Lemma skipn_tl {A} (l : list A) (n : nat) : skipn n (tl l) = skipn (S n) l.
Proof. destruct l; [apply skipn_nil | reflexivity]. Qed.

Lemma text_of_Decoded (b : bytes) (s : str) : decode b = Decoded s -> text_of b = s.
Proof. intros H; unfold text_of; rewrite H; reflexivity. Qed.

(** The loop of [exec] over the clauses, without waiting, when the reads
    decode. *)
Lemma exec_clauses_reads (clauses : list str) :
  forall (output : str) (w : World),
    (forall i, i < length clauses -> exists text, decode (received w i) = Decoded text) ->
    exec_clauses clauses false output w
    = (Return (output
               ++ concat (map (fun i => _sanitize_output (text_of (received w i)))
                              (seq 0 (length clauses)))),
       mkWorld (skipn (length clauses) (inbox w)) (listings w)
               (log w ++ sent clauses)).
Proof.
  induction clauses as [|c clauses IH]; intros output w H.
  - cbn; rewrite !app_nil_r; destruct w; reflexivity.
  - cbn [exec_clauses].
    rewrite (bind_Return _ _ _ _ _ (send_returns c w)).
    unfold bind at 1, ret at 1; unfold bind at 1; rewrite read_front.
    destruct (H 0 ltac:(cbn; lia)) as [text Ht].
    change (received (mkWorld (inbox w) (listings w)
                        (log w ++ [EvSend (c ++ newline); EvSleep 50])) 0)
      with (received w 0).
    rewrite Ht; cbn [inbox listings log].
    rewrite IH.
    + cbn [inbox listings log length seq map concat sent flat_map].
      rewrite skipn_tl, <- !app_assoc, (text_of_Decoded _ _ Ht).
      rewrite <- seq_shift, map_map.
      rewrite (map_ext _ (fun i => _sanitize_output (text_of (received w (S i)))))
        by (intros i; rewrite received_tl; reflexivity).
      reflexivity.
    + intros i Hi; rewrite received_tl; apply H; cbn; lia.
Qed.

(** The same loop, when the read behind the clause number [k] does not
    decode. *)
Lemma exec_clauses_raises (clauses : list str) :
  forall (k : nat) (output : str) (w : World),
    k < length clauses ->
    (forall i, i < k -> exists text, decode (received w i) = Decoded text) ->
    decode (received w k) = Malformed ->
    exec_clauses clauses false output w
    = (Raise (UnicodeDecodeError (received w k)),
       mkWorld (skipn (S k) (inbox w)) (listings w)
               (log w ++ sent (firstn (S k) clauses))).
Proof.
  induction clauses as [|c clauses IH]; intros k output w Hk H Hbad;
    [simpl in Hk; lia|].
  cbn [exec_clauses].
  rewrite (bind_Return _ _ _ _ _ (send_returns c w)).
  unfold bind at 1, ret at 1; unfold bind at 1; rewrite read_front.
  change (received (mkWorld (inbox w) (listings w)
                      (log w ++ [EvSend (c ++ newline); EvSleep 50])) 0)
    with (received w 0).
  destruct k as [|k].
  - rewrite Hbad; cbn [inbox listings log firstn sent flat_map app].
    rewrite <- skipn_tl; reflexivity.
  - destruct (H 0 ltac:(lia)) as [text Ht]; rewrite Ht; cbn [inbox listings log].
    rewrite (IH k).
    + cbn [inbox listings log firstn sent flat_map].
      rewrite received_tl, skipn_tl, <- !app_assoc; reflexivity.
    + simpl in Hk; lia.
    + intros i Hi; rewrite received_tl; apply H; lia.
    + rewrite received_tl; exact Hbad.
Qed.

Lemma hd_skipn {A} (l : list A) (n : nat) (d : A) : hd d (skipn n l) = nth n l d.
Proof.
  revert l; induction n as [|n IH]; intros [|x l]; try reflexivity.
  exact (IH l).
Qed.

(** X9.  A remote [exec] that does not wait.  It sends the clauses of the
    command, cut at [ && ], one by one, each with a line feed and
    followed by a pause of 50 ms, then the status query; behind every
    clause and behind the query it reads the channel once, takes the
    escape sequences out and decodes; a read that finds nothing ready
    counts as an empty one.  When the read behind a clause is no
    well-formed UTF-8, the call raises UnicodeDecodeError there, with
    nothing sent or read behind it.  When the reads behind the clauses
    decode, the call returns: its output is made of these reads, each
    cleaned, its error text is empty, and its exit code is read from the
    read behind the query, and is 1 when that one is no well-formed
    UTF-8. *)
Theorem exec_without_wait (cmd : str) (w : World) :
  let clauses := split cmd (py " && ") in
  let n := length clauses in
  (forall k, k < n ->
     (forall i, i < k -> exists text, decode (received w i) = Decoded text) ->
     decode (received w k) = Malformed ->
     exec cmd false w
     = (Raise (UnicodeDecodeError (received w k)),
        mkWorld (skipn (S k) (inbox w)) (listings w)
          (log w ++ sent (firstn (S k) clauses)))) /\
  ((forall i, i < n -> exists text, decode (received w i) = Decoded text) ->
   forall code, status_of (received w n) = Some code ->
   exec cmd false w
   = (Return (mkResult
                (concat (map (fun i => _sanitize_output (text_of (received w i)))
                             (seq 0 n)))
                []
                (VStr (str_of_int code))),
      mkWorld (skipn (S n) (inbox w)) (listings w)
        (log w ++ sent clauses ++ queried))).
Proof.
  cbn zeta; set (clauses := split cmd (py " && ")).
  assert (Hlast : strip_escapes 0 (hd [] (skipn (length clauses) (inbox w)))
                  = received w (length clauses)).
  { unfold received; rewrite hd_skipn; reflexivity. }
  split.
  - intros k Hk H Hbad; unfold exec; fold clauses.
    rewrite (bind_Raise _ _ _ _ _
               (exec_clauses_raises clauses k [] w Hk H Hbad)).
    reflexivity.
  - intros H code Hcode; unfold exec; fold clauses.
    rewrite (bind_Return _ _ _ _ _ (exec_clauses_reads clauses [] w H)).
    unfold bind at 1; rewrite exit_status_outcome.
    cbn [inbox listings log].
    rewrite Hlast, tl_skipn.
    unfold status_of in Hcode.
    destruct (decode (received w (length clauses))) as [response| |];
      [| |discriminate]; injection Hcode as <-;
      cbn [app ret]; rewrite <- app_assoc; reflexivity.
Qed.

(** A run of it: two clauses, and a response to the query that does not
    decode. *)
Example exec_without_wait_run :
  exec (py "cd /srv && ls") false
    (Demo.remote [py "cd /srv" ++ [CR; LF] ++ py "$ ";
                  py "ls" ++ [CR; LF] ++ py "a  b" ++ [CR; LF] ++ py "$ ";
                  [ascii_of_N 255]])
  = (Return (mkResult (py "$a  b" ++ [LF] ++ py "$") [] (VStr (py "1"))),
     mkWorld [] [Demo.remote_listing true; Demo.remote_listing false]
       [EvSend (py "cd /srv" ++ [LF]); EvSleep 50;
        EvSend (py "ls" ++ [LF]); EvSleep 50;
        EvSend (py "echo $?" ++ [LF]); EvSleep 50]).
Proof. vm_compute; reflexivity. Qed.

End RemoteExec.

(** ** What a local session writes when it is set up *)

Section SetupWrites.

Import HostShell Notions.

Variable _id : str.
Variable hash : str -> Z.

Lemma writes_app (a b : list event) : writes (a ++ b) = writes a ++ writes b.
Proof. apply flat_map_app. Qed.

Lemma writes_quiet (l : list event) : Forall quiet l -> writes l = [].
Proof.
  induction 1 as [|e l He _ IH]; [reflexivity|].
  destruct e; cbn in *; [contradiction | exact IH | exact IH].
Qed.

Lemma runs_steady {A} (m : M World A) : steady m -> runs _id hash m [].
Proof.
  intros H w; destruct (H w) as (_ & l & Hl & Hq).
  exists [], []; split; [reflexivity|]; split; [|reflexivity].
  rewrite Hl, writes_app, (writes_quiet l Hq); reflexivity.
Qed.

Lemma runs_bind {A B} (m : M World A) (k : A -> M World B) (c1 c2 : list str) :
  runs _id hash m c1 -> (forall a, runs _id hash (k a) c2) ->
  runs _id hash (bind m k) (c1 ++ c2).
Proof.
  intros Hm Hk w; unfold bind.
  destruct (Hm w) as (d1 & r1 & E1 & W1 & R1).
  destruct (m w) as [[a|e|] w1]; cbn [fst snd] in *.
  - rewrite (R1 a eq_refl), app_nil_r in E1; subst d1.
    destruct (Hk a w1) as (d2 & r2 & E2 & W2 & R2).
    exists (c1 ++ d2), r2; split; [|split].
    + rewrite E2, app_assoc; reflexivity.
    + rewrite W2, W1, map_app, app_assoc; reflexivity.
    + exact R2.
  - exists d1, (r1 ++ c2); split; [|split].
    + rewrite E1, app_assoc; reflexivity.
    + exact W1.
    + discriminate.
  - exists d1, (r1 ++ c2); split; [|split].
    + rewrite E1, app_assoc; reflexivity.
    + exact W1.
    + discriminate.
Qed.

(** One [exec] writes its wrapped command, or nothing when the guard
    turns the command down, and then it raises. *)
Lemma runs_exec (cmd : str) (wait : bool) : runs _id hash (exec _id hash cmd wait) [cmd].
Proof.
  intros w; destruct (_is_interactive_command cmd) eqn:Eg.
  - exists [], [cmd]; unfold exec; rewrite Eg; cbn [fst snd map].
    split; [reflexivity|]; split; [rewrite app_nil_r; reflexivity | discriminate].
  - destruct (exec_log _id hash cmd wait w Eg) as (l & Hl & Hq).
    exists [cmd], []; split; [reflexivity|]; split; [|reflexivity].
    rewrite Hl, writes_app; cbn [writes flat_map app map].
    fold (writes l); rewrite (writes_quiet l Hq); reflexivity.
Qed.

Lemma runs_export_all (environment : list (str * str)) :
  runs _id hash (HostShellSetup.export_all _id hash environment)
       (map (fun kv => export_cmd (fst kv) (snd kv)) environment).
Proof.
  induction environment as [|[key value] rest IH]; cbn [HostShellSetup.export_all map].
  - apply runs_steady, steady_ret.
  - change (export_cmd (fst (key, value)) (snd (key, value))
            :: map (fun kv => export_cmd (fst kv) (snd kv)) rest)
      with ([export_cmd key value]
            ++ [] ++ map (fun kv => export_cmd (fst kv) (snd kv)) rest).
    apply runs_bind; [apply runs_exec|]; intros _.
    apply runs_bind; [apply runs_steady, steady_time_sleep; lia|]; intros _.
    exact IH.
Qed.

(** X11.  Setting a local session up writes to the shell the wrapped
    forms of its commands and nothing else: the [source] of the
    development environment when that file exists, then one [export] for
    every item of the environment, in their order.  It writes all of them
    when it returns; when it raises, it has written the first ones only
    and no command after the failing one. *)
Theorem setup_writes (dev_source_exists : bool) (environment : list (str * str))
    (w : World) :
  exists done rest,
    HostShellSetup.setup_commands dev_source_exists environment = done ++ rest /\
    writes (log (snd (HostShellSetup.setup _id hash dev_source_exists environment w)))
    = writes (log w) ++ map (fun c => marked_cmd _id hash c ++ [LF]) done /\
    (fst (HostShellSetup.setup _id hash dev_source_exists environment w) = Return tt ->
     rest = []).
Proof.
  assert (H : runs _id hash
                (HostShellSetup.setup _id hash dev_source_exists environment)
                ([] ++ HostShellSetup.setup_commands dev_source_exists environment)).
  { unfold HostShellSetup.setup, HostShellSetup.setup_commands.
    apply runs_bind; [apply runs_steady, steady_read|]; intros _.
    apply runs_bind; [|intros _; apply runs_export_all].
    destruct dev_source_exists; [|apply runs_steady, steady_ret].
    change [py "source " ++ _DEV_SOURCE] with ([py "source " ++ _DEV_SOURCE] ++ []).
    apply runs_bind; [apply runs_exec | intros _; apply runs_steady, steady_ret]. }
  destruct (H w) as (done & rest & E & W & R).
  exists done, rest; split; [exact E|]; split; [exact W|].
  intros Hr; exact (R tt Hr).
Qed.

End SetupWrites.

(** ** A read without command *)

Section ReadOnce.

Import HostShell Notions.

Lemma add_data_nil (f : fd) (r : reader) : add_data f r [] = r.
Proof. destruct r, f; cbn; rewrite app_nil_r; reflexivity. Qed.

(** A pipe has something to be read from the time of its first byte. *)
Lemma arrived_first_byte (t : Z) (p : list (Z * bytes)) :
  arrived t p <> [] <-> exists t0, first_byte p = Some t0 /\ (t0 <= t)%Z.
Proof.
  induction p as [|[t0 d] rest IH]; cbn [arrived first_byte].
  - split; [congruence | intros (t0 & H & _); discriminate].
  - destruct d as [|c d].
    + destruct (Z.leb_spec t0 t) as [Hle|Hgt]; cbn [app].
      * rewrite IH; split.
        -- intros (t1 & -> & H1); exists (Z.max t0 t1); split; [reflexivity | lia].
        -- intros (t' & H & Ht).
           destruct (first_byte rest) as [t1|]; [|discriminate].
           injection H as <-; exists t1; split; [reflexivity | lia].
      * split; [congruence|].
        intros (t' & H & Ht).
        destruct (first_byte rest) as [t1|]; [|discriminate].
        injection H as <-; lia.
    + destruct (Z.leb_spec t0 t) as [Hle|Hgt].
      * split; [intros _; exists t0; auto | discriminate].
      * split; [congruence|]; intros (t' & H & Ht); injection H as <-; lia.
Qed.

Lemma readable_iff (t : Z) (f : fd) (w : World) :
  readable t f w = true <->
  exists t0, first_byte (pipe f w) = Some t0 /\ (t0 <= t)%Z.
Proof.
  rewrite <- arrived_first_byte; unfold readable.
  destruct (arrived t (pipe f w)); split; congruence.
Qed.

Lemma not_readable_iff (t : Z) (f : fd) (w : World) :
  readable t f w = false <->
  forall t0, first_byte (pipe f w) = Some t0 -> (t < t0)%Z.
Proof.
  split.
  - intros H t0 E; destruct (Z.lt_ge_cases t t0) as [Hlt|Hge]; [exact Hlt|].
    assert (readable t f w = true) by (apply readable_iff; eauto).
    congruence.
  - intros H; destruct (readable t f w) eqn:E; [|reflexivity].
    apply readable_iff in E as (t0 & E & Ht); specialize (H t0 E); lia.
Qed.

Lemma earliest_le (a b : option Z) (t : Z) :
  earliest a b = Some t ->
  (forall x, a = Some x -> (t <= x)%Z) /\ (forall y, b = Some y -> (t <= y)%Z) /\
  (a = Some t \/ b = Some t).
Proof.
  destruct a as [x|], b as [y|]; cbn; intros H; try discriminate;
    injection H as <-; repeat split; intros; try discriminate;
    try (match goal with E : Some _ = Some _ |- _ => injection E as <- end); try lia.
  - destruct (Z.min_spec x y) as [[_ ->]|[_ ->]]; auto.
  - auto.
  - auto.
Qed.

(** [select] returns at the time [wake], with the descriptors that are
    readable then. *)
Lemma select_select_wake (w : World) :
  select_select w
  = (Return (filter (fun f => readable (wake w) f w) [stderr; stdout]),
     set_now (wake w) w).
Proof.
  unfold select_select, wake, ready.
  destruct (earliest (first_byte (stderr_pipe w)) (first_byte (stdout_pipe w)))
    as [t|] eqn:Ee.
  - destruct (earliest_le _ _ _ Ee) as (He & Ho & Hor).
    assert (Hat : forall t', (t' < t)%Z ->
              filter (fun f => readable t' f w) [stderr; stdout] = []).
    { intros t' Ht'; cbn [filter].
      replace (readable t' stderr w) with false
        by (symmetry; apply not_readable_iff; intros x E; specialize (He x E); lia).
      replace (readable t' stdout w) with false
        by (symmetry; apply not_readable_iff; intros x E; specialize (Ho x E); lia).
      reflexivity. }
    destruct (Z.leb_spec t (now w)) as [Hle|Hgt].
    + assert (Hne : filter (fun f => readable (now w) f w) [stderr; stdout] <> []).
      { cbn [filter]; destruct Hor as [E|E].
        - replace (readable (now w) stderr w) with true; [discriminate|].
          symmetry; apply readable_iff; exists t; auto.
        - replace (readable (now w) stdout w) with true;
            [destruct (readable (now w) stderr w); discriminate|].
          symmetry; apply readable_iff; exists t; auto. }
      destruct (filter _ _) as [|g fds]; [congruence|].
      destruct w; reflexivity.
    + rewrite (Hat (now w) Hgt).
      replace (now w <? t)%Z with true by (symmetry; apply Z.ltb_lt; lia).
      cbn [andb]; destruct (Z.leb_spec t (now w + 100)) as [Hin|Hout];
        [reflexivity|].
      rewrite (Hat (now w + 100)%Z Hout); reflexivity.
  - assert (Hat : forall t', filter (fun f => readable t' f w) [stderr; stdout] = []).
    { destruct (first_byte (stderr_pipe w)) eqn:E1;
        [destruct (first_byte (stdout_pipe w)); discriminate Ee|].
      destruct (first_byte (stdout_pipe w)) eqn:E2; [discriminate Ee|].
      intros t'; cbn [filter].
      replace (readable t' stderr w) with false
        by (symmetry; apply not_readable_iff; cbn [pipe]; congruence).
      replace (readable t' stdout w) with false
        by (symmetry; apply not_readable_iff; cbn [pipe]; congruence).
      reflexivity. }
    rewrite !Hat; reflexivity.
Qed.

Lemma wake_bounds (w : World) : (now w <= wake w <= now w + 100)%Z.
Proof.
  unfold wake; destruct (earliest _ _) as [t|]; [|lia].
  destruct (Z.leb_spec t (now w)); [lia|].
  destruct (Z.leb_spec t (now w + 100)); lia.
Qed.

Lemma taken_not_readable (t : Z) (f : fd) (w : World) :
  readable t f w = false -> taken t f w = [].
Proof.
  unfold readable, taken; destruct (arrived t (pipe f w)); [reflexivity | discriminate].
Qed.

(** One read of a stream whose marker was not seen. *)
Lemma read_fd_taken (f : fd) (r : reader) (w : World) :
  (match f with stdout => status_stdout r | stderr => status_stderr r end) = false ->
  exists w',
    read_fd f r w = (Return (add_data f r (taken (now w) f w)), w') /\
    now w' = now w /\ log w' = log w /\ returncode w' = returncode w /\
    taken (now w) f w ++ pending f w' = pending f w /\
    (forall g, g <> f -> pipe g w' = pipe g w).
Proof.
  intros Hs; unfold read_fd; rewrite Hs.
  destruct (os_read_stream f w) as (data & w' & Hr & -> & Hp & Hn & Hc & Hl).
  rewrite (bind_Return _ _ _ _ _ Hr).
  exists w'; split; [|split; [exact Hn|]; split; [exact Hl|]; split; [exact Hc|]].
  - destruct (taken (now w) f w) as [|c data] eqn:E;
      [rewrite add_data_nil|]; destruct f; reflexivity.
  - split.
    + rewrite <- (Hp f); destruct f; reflexivity.
    + intros g Hg; unfold os_read in Hr; injection Hr as <-.
      destruct g, f; congruence || reflexivity.
Qed.

(** X12.  A read without command and without markers, not waiting, as the
    one at the head of [setup], with a shell that lives and more than
    100 ms to go.  It makes one turn: [select] returns at once when bytes
    are there, with the first byte when that comes within 100 ms, after
    100 ms otherwise; from each stream the read takes what is there at
    that time, 4096 bytes at most and nothing for a stream that has
    nothing; it writes nothing and sleeps never.  It returns the two
    texts that these bytes decode to, and it raises UnicodeDecodeError
    when those of the output, or else those of the error stream, are no
    well-formed UTF-8. *)
Theorem read_takes_what_is_there (cmd : option str) (timeout : Z) (w : World) :
  truthy cmd = false -> (100 < timeout)%Z -> (forall t, returncode w t = None) ->
  let t := wake w in
  let b_out := taken t stdout w in
  let b_err := taken t stderr w in
  exists w',
    _read cmd None None false timeout w
    = (match decode b_out, decode b_err with
       | Decoded out, Decoded err => Return (out, err)
       | Malformed, _ => Raise (UnicodeDecodeError b_out)
       | Decoded _, Malformed => Raise (UnicodeDecodeError b_err)
       | _, _ => Pending
       end, w') /\
    now w' = t /\ log w' = log w /\
    (forall f, taken t f w ++ pending f w' = pending f w).
Proof.
  intros Hcmd Ht Hrc; cbn zeta.
  pose proof (wake_bounds w) as Hwake.
  set (t := wake w) in *.
  set (w1 := set_now t w).
  assert (Hsel : select_select w = (Return (filter (fun f => readable t f w)
                                              [stderr; stdout]), w1))
    by apply select_select_wake.
  (* the reads: both streams, read or not, hold what was there *)
  assert (Hreads : exists r w2,
             read_fds (filter (fun f => readable t f w) [stderr; stdout]) reader0 w1
             = (Return r, w2) /\
             buffer_stdout r = taken t stdout w /\ buffer_stderr r = taken t stderr w /\
             stdout_data r = None /\ stderr_data r = None /\
             now w2 = t /\ log w2 = log w /\ returncode w2 = returncode w /\
             (forall f, taken t f w ++ pending f w2 = pending f w)).
  { assert (T1 : forall f, taken (now w1) f w1 = taken t f w) by (intros []; reflexivity).
    assert (P1 : forall f, pending f w1 = pending f w) by (intros []; reflexivity).
    assert (N1 : now w1 = t) by reflexivity.
    assert (L1 : log w1 = log w) by reflexivity.
    assert (C1 : returncode w1 = returncode w) by reflexivity.
    cbn [filter].
    destruct (readable t stderr w) eqn:Re; destruct (readable t stdout w) eqn:Ro;
      cbn [read_fds].
    - destruct (read_fd_taken stderr reader0 w1 eq_refl)
        as (w2 & H2 & N2 & L2 & C2 & S2 & P2).
      destruct (read_fd_taken stdout (add_data stderr reader0 (taken (now w1) stderr w1))
                  w2 eq_refl) as (w3 & H3 & N3 & L3 & C3 & S3 & P3).
      assert (T2 : taken (now w2) stdout w2 = taken t stdout w).
      { unfold taken; rewrite (P2 stdout), N2 by discriminate; reflexivity. }
      rewrite T1 in *; rewrite T2 in *.
      eexists _, w3; split.
      { rewrite (bind_Return _ _ _ _ _ H2), (bind_Return _ _ _ _ _ H3); reflexivity. }
      repeat (split; [solve [reflexivity | congruence]|]).
      intros [|].
      + rewrite S3; unfold pending; rewrite (P2 stdout) by discriminate; reflexivity.
      + unfold pending; rewrite (P3 stderr) by discriminate.
        fold (pending stderr w2); rewrite S2; reflexivity.
    - destruct (read_fd_taken stderr reader0 w1 eq_refl)
        as (w2 & H2 & N2 & L2 & C2 & S2 & P2).
      rewrite T1 in *.
      eexists _, w2; split.
      { rewrite (bind_Return _ _ _ _ _ H2); reflexivity. }
      rewrite (taken_not_readable t stdout w Ro).
      repeat (split; [solve [reflexivity | congruence]|]).
      intros [|].
      + rewrite (taken_not_readable t stdout w Ro); cbn [app].
        unfold pending; rewrite (P2 stdout) by discriminate; reflexivity.
      + rewrite S2; reflexivity.
    - destruct (read_fd_taken stdout reader0 w1 eq_refl)
        as (w2 & H2 & N2 & L2 & C2 & S2 & P2).
      rewrite T1 in *.
      eexists _, w2; split.
      { rewrite (bind_Return _ _ _ _ _ H2); reflexivity. }
      rewrite (taken_not_readable t stderr w Re).
      repeat (split; [solve [reflexivity | congruence]|]).
      intros [|].
      + rewrite S2; reflexivity.
      + rewrite (taken_not_readable t stderr w Re); cbn [app].
        unfold pending; rewrite (P2 stderr) by discriminate; reflexivity.
    - exists reader0, w1; split; [reflexivity|].
      rewrite (taken_not_readable t stderr w Re),
        (taken_not_readable t stdout w Ro).
      repeat (split; [solve [reflexivity | congruence]|]).
      intros f; rewrite (taken_not_readable t f w) by (destruct f; assumption).
      apply P1. }
  destruct Hreads as (r & w2 & Hreads & Bo & Be & Dout & Derr & N2 & L2 & C2 & S2).
  exists w2; split; [|split; [exact N2|]; split; [exact L2 | exact S2]].
  assert (F1 : returncode w2 (now w2) = None) by (rewrite C2; apply Hrc).
  assert (F2 : (now w2 >=? now w + timeout)%Z = false)
    by (rewrite Z.geb_leb; apply Z.leb_gt; lia).
  assert (Hpass : read_pass cmd None None false reader0 w
                  = (match filter (fun f => readable t f w) [stderr; stdout] with
                     | [] => Return (true, reader0)
                     | _ =>
                         match decode (taken t stdout w), decode (taken t stderr w) with
                         | Decoded out, Decoded err =>
                             Return (true, snd (check_markers None None r out err))
                         | Malformed, _ => Raise (UnicodeDecodeError (taken t stdout w))
                         | Decoded _, Malformed =>
                             Raise (UnicodeDecodeError (taken t stderr w))
                         | _, _ => Pending
                         end
                     end, w2)).
  { unfold read_pass; cbn [andb]; unfold bind at 1, ret at 1; cbn [negb].
    unfold bind at 1; rewrite Hsel.
    destruct (filter (fun f => readable t f w) [stderr; stdout]) as [|g fds].
    - injection Hreads as <- <-.
      unfold bind, ret; cbn [fst snd]; rewrite Hcmd; reflexivity.
    - unfold bind at 1, bind at 1; rewrite Hreads.
      unfold bind at 1, bytes_decode at 1, lift at 1; rewrite Bo.
      destruct (decode (taken t stdout w)) as [out| |];
        [|reflexivity | destruct (decode (taken t stderr w)); reflexivity].
      unfold bind at 1, bytes_decode at 1, lift at 1; rewrite Be.
      destruct (decode (taken t stderr w)) as [err| |]; [|reflexivity|reflexivity].
      unfold ret at 1; cbn [check_markers missing orb cut_at fst snd].
      unfold bind, ret; cbn [fst snd]; reflexivity. }
  rewrite read_unfold by reflexivity.
  unfold turns_for; cbn [read_loop]; unfold bind at 1, time_time.
  replace (now w <? now w + timeout)%Z with true by (symmetry; apply Z.ltb_lt; lia).
  destruct (filter (fun f => readable t f w) [stderr; stdout]) as [|g fds].
  - injection Hreads as <- <-.
    rewrite (bind_Return _ _ _ _ _ Hpass); cbn [fst snd ret].
    rewrite read_finish_cases, F1, F2.
    rewrite <- Bo, <- Be; reflexivity.
  - destruct (decode (taken t stdout w)) as [out| |].
    + destruct (decode (taken t stderr w)) as [err| |].
      * rewrite (bind_Return _ _ _ _ _ Hpass); cbn [fst snd ret].
        rewrite read_finish_cases, F1, F2; reflexivity.
      * rewrite (bind_Raise _ _ _ _ _ Hpass); reflexivity.
      * unfold bind; rewrite Hpass; reflexivity.
    + rewrite (bind_Raise _ _ _ _ _ Hpass); reflexivity.
    + assert (Hp : read_pass cmd None None false reader0 w = (Pending, w2))
        by (rewrite Hpass; destruct (decode (taken t stderr w)); reflexivity).
      unfold bind; rewrite Hp; reflexivity.
Qed.

Lemma read_takes_what_is_there_witness :
  exists w',
    _read None None None false default_timeout
      (mkWorld 0 (fun _ => [])
         [(50%Z, py "bash: no job control"); (50%Z, py " in this shell" ++ [LF]);
          (200%Z, py "$ ")]
         [(200%Z, py "late")] (fun _ => None) true [])
    = (Return (py "bash: no job control in this shell" ++ [LF], []), w') /\
    now w' = 50%Z /\ log w' = [] /\ pending stdout w' = py "$ ".
Proof.
  pose (w := mkWorld 0 (fun _ => [])
               [(50%Z, py "bash: no job control"); (50%Z, py " in this shell" ++ [LF]);
                (200%Z, py "$ ")]
               [(200%Z, py "late")] (fun _ => None) true []).
  assert (P1 : truthy None = false) by reflexivity.
  assert (P2 : (100 < default_timeout)%Z) by reflexivity.
  assert (P3 : forall t, returncode w t = None) by reflexivity.
  destruct (read_takes_what_is_there None default_timeout w P1 P2 P3)
    as (w' & H & N & L & S).
  exists w'; split; [exact H|]; split; [exact N|]; split; [exact L|].
  specialize (S stdout); vm_compute in S.
  apply (app_inv_head (py "bash: no job control in this shell" ++ [LF])).
  exact S.
Defined.

End ReadOnce.
